(** * esy-install: lockfile store, opam constraint resolver and opam fetcher

    A shallow embedding of

    - the lockfile module ([implodeEntry], [explodeEntry], [getLocked],
      [removePattern], [getLockfile]),
    - [src/resolvers/exotics/opam-resolver/index.js]
      ([solveVersionConstraint], [isLockfileEntryOutdated],
      [parseReference], [parseFragment], [isVersion], [resolveManifest]),
    - [src/fetchers/opam-fetcher.js] ([_fetch], [_fetchTarball],
      [writeValidatedStream], [getTarballFormatFromFilename],
      [unpackTarball], [writeFiles], [applyPatches]),

    followed by the properties of these functions.

    JavaScript strings are modelled by [string] (one [ascii] per code
    unit), objects used as dictionaries whose enumeration order is
    irrelevant by [gmap], objects whose key order matters by association
    lists, and a thrown exception by the left injection of a sum. *)

From Stdlib Require Import ZArith Ascii String List.
From stdpp Require Import base option gmap strings list sorting pretty.

Local Open Scope string_scope.
Local Open Scope list_scope.
Local Open Scope Z_scope.

(** ** JavaScript primitives used by the sources *)

Module JS.

(** Exceptions raised by the modelled code. *)
Inductive exn :=
| InvariantViolation (msg : string)
| TypeError (msg : string)
| MessageError (msg : string)
| SecurityError (msg : string)
| Error (msg : string).

Definition result (A : Type) : Type := exn + A.

Definition ret {A} (a : A) : result A := inr a.
Definition throw {A} (e : exn) : result A := inl e.
Definition bind {A B} (m : result A) (k : A -> result B) : result B :=
  match m with
  | inl e => inl e
  | inr a => k a
  end.

(** [invariant(cond, msg)] *)
Definition invariant (cond : bool) (msg : string) : result unit :=
  if cond then ret tt else throw (InvariantViolation msg).

(** Truthiness of a value of type [?string]: [undefined], [null] and the
    empty string are falsy. *)
Definition truthy (o : option string) : bool :=
  match o with
  | Some s => negb (String.eqb s "")
  | None => false
  end.

(** [a || b] on [?string] operands. *)
Definition or_else (a b : option string) : option string :=
  if truthy a then a else b.

(** [a || {}] on an object operand: every object is truthy. *)
Definition or_empty {V} (a : option (gmap string V)) : option (gmap string V) :=
  match a with
  | Some m => Some m
  | None => Some ∅
  end.

(** [s.charCodeAt(i)] for [i] in range. *)
Definition charCode (c : ascii) : Z := Z.of_N (N_of_ascii c).

Definition len (s : string) : Z := Z.of_nat (String.length s).

(** [s.startsWith(p)] *)
Fixpoint startsWith (s p : string) : bool :=
  match p, s with
  | EmptyString, _ => true
  | String _ _, EmptyString => false
  | String a p', String b s' => Ascii.eqb a b && startsWith s' p'
  end.

(** [s.endsWith(p)] *)
Definition endsWith (s p : string) : bool :=
  (String.length p <=? String.length s)%nat
  && String.eqb (substring (String.length s - String.length p) (String.length p) s) p.

(** [s.includes(p)]: [p] occurs in [s]. *)
Fixpoint includes (s p : string) : bool :=
  startsWith s p
  || match s with
     | EmptyString => false
     | String _ s' => includes s' p
     end.

(** [s.indexOf(p)]: index of the first occurrence, [-1] when there is
    none. *)
Fixpoint indexOf_from (i : Z) (s p : string) : Z :=
  if startsWith s p then i
  else match s with
       | EmptyString => -1
       | String _ s' => indexOf_from (i + 1) s' p
       end.
Definition indexOf (s p : string) : Z := indexOf_from 0 s p.

(** [s.lastIndexOf(p)]: index of the last occurrence, [-1] when there is
    none. *)
Fixpoint lastIndexOf_from (i : Z) (s p : string) : Z :=
  match s with
  | EmptyString => if startsWith s p then i else -1
  | String _ s' =>
      let r := lastIndexOf_from (i + 1) s' p in
      if 0 <=? r then r else if startsWith s p then i else -1
  end.
Definition lastIndexOf (s p : string) : Z := lastIndexOf_from 0 s p.

Fixpoint drop (n : nat) (s : string) : string :=
  match n, s with
  | O, _ => s
  | S _, EmptyString => EmptyString
  | S n', String _ s' => drop n' s'
  end.

Fixpoint take (n : nat) (s : string) : string :=
  match n, s with
  | O, _ => EmptyString
  | S _, EmptyString => EmptyString
  | S n', String c s' => String c (take n' s')
  end.

(** A relative index of [slice]: negative values count from the end, and
    the result is clamped to [0 .. length]. *)
Definition clamp (s : string) (i : Z) : nat :=
  Z.to_nat (if i <? 0 then Z.max (len s + i) 0 else Z.min i (len s)).

(** [s.slice(start, end)] *)
Definition slice (s : string) (start stop : Z) : string :=
  let a := clamp s start in
  let b := clamp s stop in
  take (b - a)%nat (drop a s).

(** [s.slice(start)] *)
Definition slice_from (s : string) (start : Z) : string :=
  drop (clamp s start) s.

(** [s[0]], [undefined] on the empty string. *)
Definition first (s : string) : option ascii :=
  match s with
  | EmptyString => None
  | String c _ => Some c
  end.

(** [Array.prototype.sort(cmp)]: a stable sort by the comparator; [x]
    stays in front of [y] when [cmp x y <= 0]. *)
Fixpoint sort_insert {A} (cmp : A -> A -> Z) (x : A) (l : list A) : list A :=
  match l with
  | [] => [x]
  | y :: l' => if cmp x y <=? 0 then x :: y :: l' else y :: sort_insert cmp x l'
  end.

Fixpoint sort {A} (cmp : A -> A -> Z) (l : list A) : list A :=
  match l with
  | [] => []
  | x :: l' => sort_insert cmp x (sort cmp l')
  end.

(** The concatenation of the chunks of a stream. *)
Fixpoint join (chunks : list string) : string :=
  match chunks with
  | [] => ""
  | chunk :: rest => chunk +:+ join rest
  end.

(** [x] may stay in front of [y] in an array sorted by [cmp]. *)
Definition before {A} (cmp : A -> A -> Z) (x y : A) : Prop := cmp x y <= 0.

(** An object whose keys are enumerated in insertion order, as an
    association list: [o[k]], [k in o] and [o[k] = v].  Keys that are array
    indices, which JavaScript enumerates first and in numeric order, are
    not told apart; the enumeration is in any case a function of the
    sequence of insertions. *)
Fixpoint get {V} (o : list (string * V)) (k : string) : option V :=
  match o with
  | [] => None
  | (k', v) :: o' => if String.eqb k' k then Some v else get o' k
  end.

Fixpoint set {V} (o : list (string * V)) (k : string) (v : V) : list (string * V) :=
  match o with
  | [] => [(k, v)]
  | (k', v') :: o' =>
      if String.eqb k' k then (k', v) :: o' else (k', v') :: set o' k v
  end.

(** [Object.keys(o)] *)
Definition keys {V} (o : list (string * V)) : list string := map fst o.

(** [s.split(sep)] for a separator of one code unit: the piece before the
    first separator, and the pieces after it.  The array that [split]
    returns has at least one element. *)
Fixpoint split (sep : ascii) (s : string) : string * list string :=
  match s with
  | EmptyString => (EmptyString, [])
  | String c s' =>
      let '(piece, rest) := split sep s' in
      if Ascii.eqb c sep then (EmptyString, piece :: rest)
      else (String c piece, rest)
  end.

(** [a.join(sep)] *)
Fixpoint joinWith (sep : string) (a : list string) : string :=
  match a with
  | [] => ""
  | x :: rest =>
      match rest with
      | [] => x
      | _ :: _ => x +:+ sep +:+ joinWith sep rest
      end
  end.

End JS.

Notation "'do' x <- m ; k" := (JS.bind m (fun x => k))
  (at level 10, x name, m at level 100, k at level 200).
Notation "'do' ' pat <- m ; k" := (JS.bind m (fun x => match x with pat => k end))
  (at level 10, pat pattern, m at level 100, k at level 200).

(** Modelled from the spec: [sortAlpha] of [util/misc.js] is not part of the
    sources at hand; the spec says that patterns are processed "in
    lexicographic order".  The comparator below orders two strings by their
    first differing code unit, and a proper prefix before its extensions. *)
Fixpoint sortAlpha (a b : string) : Z :=
  match a, b with
  | String x a', String y b' =>
      if Z.eqb (JS.charCode x) (JS.charCode y) then sortAlpha a' b'
      else JS.charCode x - JS.charCode y
  | _, _ => JS.len a - JS.len b
  end.

(** Modelled from the spec: [normalizePattern] of
    [util/normalize-pattern.js] is not part of the sources at hand; the spec
    says that a name "is inferred by parsing the owning pattern's name
    segment" of a pattern [name@range].  The name segment below is the text
    before the first [@] that is not the leading scope marker.  The
    development is parametric in the inference function; this instance is
    used to evaluate it on concrete patterns. *)
Fixpoint upto_at (s : string) : string :=
  match s with
  | EmptyString => EmptyString
  | String c s' => if Ascii.eqb c "@" then EmptyString else String c (upto_at s')
  end.

Definition nameSegment (pattern : string) : string :=
  match pattern with
  | String c rest => if Ascii.eqb c "@" then String c (upto_at rest) else upto_at pattern
  | EmptyString => EmptyString
  end.

(** ** The lockfile module *)

(** Package records ([Manifest] of [types.js]) as far as [getLockfile] reads
    them.  [_remote] and [_reference] may be missing, which the code checks
    with [invariant]. *)
Module Pkg.

Record PackageRemote := mkRemote {
  type : string;
  registry : string;
  hash : option string;
  reference : option string;
  resolved : option string;
}.

Record PackageReference := mkReference {
  permissions : option (gmap string bool);
}.

Record Manifest := mkManifest {
  name : string;
  version : string;
  _uid : string;
  dependencies : option (gmap string string);
  peerDependencies : option (gmap string string);
  optionalDependencies : option (gmap string string);
  _remote : option PackageRemote;
  _reference : option PackageReference;
}.

End Pkg.

Module Lockfile.

(** [LockManifest] and [MinimalLockManifest]: one object shape, a field
    that is [undefined] is [None]. *)
Record Entry := mkEntry {
  name : option string;
  version : string;
  resolved : option string;
  registry : option string;
  uid : option string;
  permissions : option (gmap string bool);
  optionalDependencies : option (gmap string string);
  peerDependencies : option (gmap string string);
  dependencies : option (gmap string string);
}.

(** [blankObjectUndefined] *)
Definition blankObjectUndefined {V} (obj : option (gmap string V))
  : option (gmap string V) :=
  match obj with
  | Some m => if Nat.eqb (size m) 0 then None else Some m
  | None => None
  end.

(** [keyForRemote] *)
Definition keyForRemote (remote : Pkg.PackageRemote) : option string :=
  if JS.truthy (Pkg.resolved remote) then Pkg.resolved remote
  else
    match Pkg.reference remote, Pkg.hash remote with
    | Some r, Some h =>
        if JS.truthy (Some r) && JS.truthy (Some h)
        then Some (r +:+ "#" +:+ h)
        else None
    | _, _ => None
    end.

(** A value stored in the cache of a parsed lockfile: an entry, or the
    pattern that owns the entry.  The cache holds its entries by value: an
    entry object that a parsed lockfile shares between several keys is
    stored under each of them. *)
Inductive CacheValue :=
| Alias (pattern : string)
| Locked (e : Entry).

(** [removePattern]: nothing happens without a cache. *)
Definition removePattern (cache : option (gmap string CacheValue)) (pattern : string)
  : option (gmap string CacheValue) :=
  match cache with
  | None => None
  | Some c => Some (delete pattern c)
  end.

Section WithGetName.

(** [getName(pattern) = normalizePattern(pattern).name] *)
Variable getName : string -> string.

(** [implodeEntry] *)
Definition implodeEntry (pattern : string) (obj : Entry) : Entry :=
  let inferredName := getName pattern in
  {| name := if decide (name obj = Some inferredName) then None else name obj;
     version := version obj;
     uid := if decide (uid obj = Some (version obj)) then None else uid obj;
     resolved := resolved obj;
     registry := if decide (registry obj = Some "npm") then None else registry obj;
     dependencies := blankObjectUndefined (dependencies obj);
     optionalDependencies := blankObjectUndefined (optionalDependencies obj);
     peerDependencies := blankObjectUndefined (peerDependencies obj);
     permissions := blankObjectUndefined (permissions obj) |}.

(** [explodeEntry]; the source assigns the fields of [obj] in place and
    returns [obj], the caller below stores the result back. *)
Definition explodeEntry (pattern : string) (obj : Entry) : Entry :=
  {| optionalDependencies := JS.or_empty (optionalDependencies obj);
     dependencies := JS.or_empty (dependencies obj);
     uid := JS.or_else (uid obj) (Some (version obj));
     permissions := JS.or_empty (permissions obj);
     registry := JS.or_else (registry obj) (Some "npm");
     name := JS.or_else (name obj) (Some (getName pattern));
     version := version obj;
     resolved := resolved obj;
     peerDependencies := peerDependencies obj |}.

(** [getLocked]: one call of the method body.  The recursive call on an
    alias is the only way the method continues, so a run of the method
    is a sequence of such steps. *)
Inductive Step :=
| Continue (pattern : string)
| Return (cache : gmap string CacheValue) (r : option Entry).

Definition getLocked_body (cache : gmap string CacheValue) (pattern : string) : Step :=
  match cache !! pattern with
  | Some (Alias shrunk) => Continue shrunk
  | Some (Locked shrunk) =>
      let e := explodeEntry pattern shrunk in
      Return (<[pattern := Locked e]> cache) (Some e)
  | None => Return cache None
  end.

(** [getLocked] as a relation between the call and what it returns. *)
Inductive getLocked_returns (cache : gmap string CacheValue)
  : string -> gmap string CacheValue -> option Entry -> Prop :=
| getLocked_done pattern cache' r :
    getLocked_body cache pattern = Return cache' r ->
    getLocked_returns cache pattern cache' r
| getLocked_alias pattern shrunk cache' r :
    getLocked_body cache pattern = Continue shrunk ->
    getLocked_returns cache shrunk cache' r ->
    getLocked_returns cache pattern cache' r.

(** [getLocked] with a bound on the depth of the recursion; [None] when
    the bound is reached before the method returns. *)
Fixpoint getLocked_fuel (fuel : nat) (cache : gmap string CacheValue)
  (pattern : string) : option (gmap string CacheValue * option Entry) :=
  match fuel with
  | O => None
  | S fuel' =>
      match getLocked_body cache pattern with
      | Continue shrunk => getLocked_fuel fuel' cache shrunk
      | Return cache' r => Some (cache', r)
      end
  end.

(** [getLocked] on [this.cache], which may be missing. *)
Definition getLocked (fuel : nat) (cache : option (gmap string CacheValue))
  (pattern : string) : option (option (gmap string CacheValue) * option Entry) :=
  match cache with
  | None => Some (None, None)
  | Some c =>
      match getLocked_fuel fuel c pattern with
      | Some (c', r) => Some (Some c', r)
      | None => None
      end
  end.

(** The alias relation of a cache: [pattern] is stored as an alias of
    [shrunk]. *)
Definition aliases (cache : gmap string CacheValue) (shrunk pattern : string) : Prop :=
  cache !! pattern = Some (Alias shrunk).

(** [q] is on the chain of aliases that [getLocked] follows from
    [pattern]. *)
Definition reaches (cache : gmap string CacheValue) (pattern q : string) : Prop :=
  rtc (fun a b => aliases cache b a) pattern q.

(** The state of the loop of [getLockfile]: the object under
    construction (keys in insertion order, values are references to
    entry objects), the [seen] map, and the entry objects allocated so
    far. *)
Record Build := mkBuild {
  lockfile : list (string * nat);
  seen : gmap string nat;
  heap : list Entry;
}.

Definition set_name (n : string) (e : Entry) : Entry :=
  {| name := Some n; version := version e; resolved := resolved e;
     registry := registry e; uid := uid e; permissions := permissions e;
     optionalDependencies := optionalDependencies e;
     peerDependencies := peerDependencies e;
     dependencies := dependencies e |}.

(** The object literal that [getLockfile] passes to [implodeEntry]. *)
Definition fullEntryOf (pkg : Pkg.Manifest) (ref : Pkg.PackageReference)
  (remote : Pkg.PackageRemote) : Entry :=
  {| name := Some (Pkg.name pkg);
     version := Pkg.version pkg;
     uid := Some (Pkg._uid pkg);
     resolved := Pkg.resolved remote;
     registry := Some (Pkg.registry remote);
     dependencies := Pkg.dependencies pkg;
     peerDependencies := Pkg.peerDependencies pkg;
     optionalDependencies := Pkg.optionalDependencies pkg;
     permissions := Pkg.permissions ref |}.

(** The body of the [for] loop of [getLockfile]. *)
Definition getLockfile_body (patterns : list (string * Pkg.Manifest))
  (st : Build) (pattern : string) : JS.result Build :=
  do pkg <- match JS.get patterns pattern with
            | Some pkg => JS.ret pkg
            | None => JS.throw (JS.TypeError "Cannot destructure undefined")
            end;
  do ref <- match Pkg._reference pkg with
            | Some ref => JS.ret ref
            | None => JS.throw (JS.InvariantViolation "Package is missing a reference")
            end;
  do remote <- match Pkg._remote pkg with
               | Some remote => JS.ret remote
               | None => JS.throw (JS.InvariantViolation "Package is missing a remote")
               end;
  let remoteKey := keyForRemote remote in
  let seenPattern := match remoteKey with
                     | Some k => seen st !! k
                     | None => None
                     end in
  match seenPattern with
  | Some l =>
      let heap' :=
        match heap st !! l with
        | Some e =>
            if negb (JS.truthy (name e))
               && negb (String.eqb (getName pattern) (Pkg.name pkg))
            then <[l := set_name (Pkg.name pkg) e]> (heap st)
            else heap st
        | None => heap st
        end in
      JS.ret {| lockfile := JS.set (lockfile st) pattern l;
                seen := seen st;
                heap := heap' |}
  | None =>
      let obj := implodeEntry pattern (fullEntryOf pkg ref remote) in
      let l := length (heap st) in
      JS.ret {| lockfile := JS.set (lockfile st) pattern l;
                seen := match remoteKey with
                        | Some k => <[k := l]> (seen st)
                        | None => seen st
                        end;
                heap := heap st ++ [obj] |}
  end.

Fixpoint getLockfile_loop (patterns : list (string * Pkg.Manifest))
  (st : Build) (sortedPatternsKeys : list string) : JS.result Build :=
  match sortedPatternsKeys with
  | [] => JS.ret st
  | pattern :: rest =>
      do st' <- getLockfile_body patterns st pattern;
      getLockfile_loop patterns st' rest
  end.

(** [getLockfile]: the returned object, with the entry objects its
    values refer to. *)
Definition getLockfile (patterns : list (string * Pkg.Manifest))
  : JS.result (list (string * nat) * list Entry) :=
  let sortedPatternsKeys := JS.sort sortAlpha (JS.keys patterns) in
  do st <- getLockfile_loop patterns
             {| lockfile := []; seen := ∅; heap := [] |} sortedPatternsKeys;
  JS.ret (lockfile st, heap st).

(** [pattern] is bound, in [patterns], to a package record with the remote
    identity key [k]. *)
Definition keyOf (patterns : list (string * Pkg.Manifest)) (pattern k : string) : Prop :=
  exists pkg remote,
    JS.get patterns pattern = Some pkg
    /\ Pkg._remote pkg = Some remote
    /\ keyForRemote remote = Some k.

(** The remote identity key in the words of the specification: the
    [resolved] field if it is present, else [reference#hash]; a field is
    present when it is neither missing nor the empty string. *)
Inductive identifiedBy (remote : Pkg.PackageRemote) (k : string) : Prop :=
| by_resolved :
    Pkg.resolved remote = Some k -> k <> "" -> identifiedBy remote k
| by_reference_hash (r h : string) :
    Pkg.resolved remote = None \/ Pkg.resolved remote = Some "" ->
    Pkg.reference remote = Some r -> r <> "" ->
    Pkg.hash remote = Some h -> h <> "" ->
    k = r +:+ "#" +:+ h ->
    identifiedBy remote k.

(** [pattern] is bound, in [patterns], to a package record whose remote
    has the identity [k]. *)
Definition identified (patterns : list (string * Pkg.Manifest)) (pattern k : string)
  : Prop :=
  exists pkg remote,
    JS.get patterns pattern = Some pkg
    /\ Pkg._remote pkg = Some remote
    /\ identifiedBy remote k.

(** Every package record has its [_reference] and its [_remote]. *)
Definition complete (patterns : list (string * Pkg.Manifest)) : Prop :=
  forall pattern pkg,
    In (pattern, pkg) patterns ->
    is_Some (Pkg._reference pkg) /\ is_Some (Pkg._remote pkg).

(** Every package record with the remote identity key [k] has the name
    [n]. *)
Definition named (patterns : list (string * Pkg.Manifest)) (k n : string) : Prop :=
  forall pattern pkg remote,
    JS.get patterns pattern = Some pkg ->
    Pkg._remote pkg = Some remote ->
    keyForRemote remote = Some k ->
    Pkg.name pkg = n.

(** Every pattern with the remote identity key [k] is bound to the one
    package record [pkg]. *)
Definition uniform (patterns : list (string * Pkg.Manifest)) (k : string)
  (pkg : Pkg.Manifest) : Prop :=
  forall pattern pkg' remote,
    JS.get patterns pattern = Some pkg' ->
    Pkg._remote pkg' = Some remote ->
    keyForRemote remote = Some k ->
    pkg' = pkg.

(** [owner] is the first of the patterns with the remote identity key [k]
    in the order of [sortAlpha]. *)
Definition firstKeyed (patterns : list (string * Pkg.Manifest)) (k owner : string) : Prop :=
  keyOf patterns owner k
  /\ forall pattern, keyOf patterns pattern k -> sortAlpha owner pattern <= 0.

(** The invariant of the loop of [getLockfile] after the patterns [done]:
    the keys of the object are the patterns processed, in that order; its
    values and the values of [seen] refer to allocated entries; a key of
    [seen] refers to the entry made for the first pattern processed that has
    this key, and every pattern processed that has this key is bound to this
    entry; the name of this entry is missing as long as every such pattern
    gives the name of the package. *)
Record Inv (patterns : list (string * Pkg.Manifest)) (done : list string)
  (st : Build) : Prop := {
  inv_keys : JS.keys (lockfile st) = done;
  inv_bound : forall p l,
    JS.get (lockfile st) p = Some l -> (l < length (heap st))%nat;
  inv_seen : forall k l, seen st !! k = Some l -> (l < length (heap st))%nat;
  inv_inj : forall k k' l,
    seen st !! k = Some l -> seen st !! k' = Some l -> k = k';
  inv_shared : forall p k,
    In p done -> keyOf patterns p k ->
    exists l, seen st !! k = Some l /\ JS.get (lockfile st) p = Some l;
  inv_owner : forall k l,
    seen st !! k = Some l ->
    exists p0 pkg ref remote e d1 d2,
      done = d1 ++ p0 :: d2
      /\ (forall p, In p d1 -> ~ keyOf patterns p k)
      /\ JS.get patterns p0 = Some pkg
      /\ Pkg._reference pkg = Some ref
      /\ Pkg._remote pkg = Some remote
      /\ keyForRemote remote = Some k
      /\ heap st !! l = Some e
      /\ (e = implodeEntry p0 (fullEntryOf pkg ref remote)
          \/ exists n, e = set_name n (implodeEntry p0 (fullEntryOf pkg ref remote)));
  inv_name : forall k l n,
    seen st !! k = Some l -> named patterns k n ->
    exists e,
      heap st !! l = Some e
      /\ ((name e = None
           /\ forall p, In p done -> keyOf patterns p k -> getName p = n)
          \/ (name e = Some n
              /\ exists p, In p done /\ keyOf patterns p k /\ getName p <> n));
}.

(** What the loop of [getLockfile] keeps for the patterns without remote
    identity key: each of them is bound to the entry made for it, which is
    not registered in [seen] and to which no other pattern is bound. *)
Definition ownEntries (patterns : list (string * Pkg.Manifest)) (done : list string)
  (st : Build) : Prop :=
  forall p pkg ref remote,
    In p done ->
    JS.get patterns p = Some pkg ->
    Pkg._reference pkg = Some ref ->
    Pkg._remote pkg = Some remote ->
    keyForRemote remote = None ->
    exists l,
      JS.get (lockfile st) p = Some l
      /\ heap st !! l = Some (implodeEntry p (fullEntryOf pkg ref remote))
      /\ (forall k, seen st !! k <> Some l)
      /\ forall q, q <> p -> JS.get (lockfile st) q <> Some l.

(** The entry a pattern is bound to in a lockfile object. *)
Definition entryOf (out : list (string * nat) * list Entry) (pattern : string)
  : option Entry :=
  match JS.get (fst out) pattern with
  | Some l => snd out !! l
  | None => None
  end.

End WithGetName.

End Lockfile.

(** ** The opam resolver *)

(** The objects of the [semver] package: a parsed version.  [raw] is the
    string that was parsed. *)
Module SemVer.

Record t := mk {
  raw : string;
  major : Z;
  minor : Z;
  patch : Z;
  prerelease : list string;
  build : list string;
}.

Definition set_prerelease (v : t) (p : list string) : t :=
  {| raw := raw v; major := major v; minor := minor v; patch := patch v;
     prerelease := p; build := build v |}.

End SemVer.

Module OpamResolver.

(** [MinimalManifest], with the [opam.version] every manifest of a
    collection carries. *)
Record MinimalManifest := mkManifest {
  version : string;
  peerDependencies : option (gmap string string);
  opam_version : string;
}.

(** [Solution] *)
Inductive Solution :=
| found (version : string)
| no_version_found
| no_version_found_for_ocaml_constraint.

Record Constraint := mkConstraint {
  versionRange : string;
  ocamlVersion : option string;
}.

(** [OpamPackageReference] *)
Record OpamPackageReference := mkReference {
  fullName : string;
  name : string;
  scope : option string;
  ref_version : string;
  uid : string;
}.

(** An element of [versionsParsed]: the [SemVer] object with the two
    properties [findVersion] adds to it. *)
Record Parsed := mkParsed {
  semver : SemVer.t;
  _prereleaseHidden : option (list string);
  opamVersion : string;
}.

Definition quote : string := String (ascii_of_nat 34) EmptyString.

Definition malformed (resolution value : string) : string :=
  "Malformed opam package resolution: " +:+ resolution
    +:+ " (at " +:+ quote +:+ value +:+ quote +:+ ")".

(** The full name of a package: [@scope/name], or [name] without a scope. *)
Definition fullNameOf (scope : option string) (name : string) : string :=
  match scope with
  | Some s => "@" +:+ s +:+ "/" +:+ name
  | None => name
  end.

(** [parseReference] *)
Definition parseReference (resolution : string) : JS.result OpamPackageReference :=
  let value := resolution in
  do '(scope, value) <-
    (if decide (JS.first value = Some "@"%char) then
       let idx := JS.indexOf value "/" in
       do _ <- JS.invariant (-1 <? idx) (malformed resolution value);
       JS.ret (Some (JS.slice value 1 idx), JS.slice_from value (idx + 1))
     else JS.ret (None, value));
  let idx := JS.indexOf value "@" in
  do _ <- JS.invariant (-1 <? idx) (malformed resolution value);
  let name := JS.slice value 0 idx in
  let value := JS.slice_from value (idx + 1) in
  let idx := JS.lastIndexOf value "-" in
  do _ <- JS.invariant (-1 <? idx) (malformed resolution value);
  let version := JS.slice value 0 idx in
  let value := JS.slice_from value (idx + 1) in
  let idx := JS.indexOf value ".tgz" in
  do _ <- JS.invariant (-1 <? idx) (malformed resolution value);
  let uid := JS.slice value 0 idx in
  JS.ret {| name := name;
            fullName := fullNameOf scope name;
            scope := scope;
            ref_version := version;
            uid := uid |}.

(** [isValidReference] *)
Definition isValidReference (resolution : option string) : bool :=
  match resolution with
  | None => false
  | Some r =>
      match parseReference r with
      | inl _ => false
      | inr _ => true
      end
  end.

(** The [resolved] string that [resolve] builds from a manifest's [name],
    [version] and [_uid]. *)
Definition resolvedOf (name version _uid : string) : string :=
  name +:+ "@" +:+ version +:+ "-" +:+ _uid +:+ ".tgz".

(** The [_remote] that [resolve] attaches to the manifest. *)
Definition remoteOf (name version _uid : string) (checksum : option string)
  : Pkg.PackageRemote :=
  let resolved := resolvedOf name version _uid in
  {| Pkg.type := "opam";
     Pkg.registry := "npm";
     Pkg.hash := checksum;
     Pkg.reference := Some resolved;
     Pkg.resolved := Some resolved |}.

Section WithLibraries.

(** [OPAM_SCOPE] of [./config.js]. *)
Variable OPAM_SCOPE : string.

(** The functions of the [semver] package the resolver calls:
    [semver.parse] ([null] is [None]), [semver.prerelease] ([null] or a
    non-empty array), [semver.satisfies] on a [SemVer] object and on a
    version string.  Given a string, [semver.satisfies] makes a [SemVer]
    object of it first, and that throws a [TypeError] when the string is no
    version: the call returns or throws. *)
Variable semver_parse : string -> option SemVer.t.
Variable semver_prerelease : string -> option (list string).
Variable semver_satisfies : SemVer.t -> string -> bool.
Variable semver_satisfies_string : string -> string -> JS.result bool.

(** [EsyOpam.versionCompare] *)
Variable versionCompare : string -> string -> Z.

Section Solve.

Variable name : string.
Variable versions_of : list (string * MinimalManifest).

(** The callback of [versions.map] in [findVersion]. *)
Definition parseVersion (versionRange version : string) : JS.result Parsed :=
  do v <- match semver_parse version with
          | Some v => JS.ret v
          | None => JS.throw (JS.InvariantViolation
                      ("Invalid version: @" +:+ OPAM_SCOPE +:+ "/" +:+ name
                         +:+ "@" +:+ version))
          end;
  let '(hidden, v) :=
    match semver_prerelease versionRange with
    | None => (Some (SemVer.prerelease v), SemVer.set_prerelease v [])
    | Some _ => (None, v)
    end in
  do m <- match JS.get versions_of version with
          | Some m => JS.ret m
          | None => JS.throw (JS.TypeError "Cannot read property 'opam' of undefined")
          end;
  JS.ret {| semver := v; _prereleaseHidden := hidden;
            opamVersion := opam_version m |}.

Fixpoint mapM {A B} (f : A -> JS.result B) (l : list A) : JS.result (list B) :=
  match l with
  | [] => JS.ret []
  | x :: l' =>
      do y <- f x;
      do ys <- mapM f l';
      JS.ret (y :: ys)
  end.

(** The comparator given to [sort]. *)
Definition byOpamVersion (a b : Parsed) : Z :=
  -1 * versionCompare (opamVersion a) (opamVersion b).

(** The [for] loop of [findVersion]. *)
Fixpoint firstSatisfying (versionsParsed : list Parsed) (versionRange : string)
  : option Solution :=
  match versionsParsed with
  | [] => None
  | v :: rest =>
      if semver_satisfies (semver v) versionRange
      then Some (found (SemVer.raw (semver v)))
      else firstSatisfying rest versionRange
  end.

(** [findVersion] *)
Definition findVersion (versions : list string) (versionRange : string)
  : JS.result (option Solution) :=
  do versionsParsed <- mapM (parseVersion versionRange) versions;
  let versionsParsed := JS.sort byOpamVersion versionsParsed in
  JS.ret (firstSatisfying versionsParsed versionRange).

(** The test of the loop that restricts the versions to those
    available for the compiler. *)
Definition availableFor (ocamlVersion version : string) : JS.result bool :=
  do manifest <- match JS.get versions_of version with
                 | Some m => JS.ret m
                 | None => JS.throw (JS.TypeError
                             "Cannot read property 'peerDependencies' of undefined")
                 end;
  let peerDependencies :=
    match peerDependencies manifest with
    | Some pd => pd
    | None => ∅
    end in
  let ocamlDependency :=
    match JS.or_else (peerDependencies !! "ocaml") (Some "*") with
    | Some d => d
    | None => "*"
    end in
  semver_satisfies_string ocamlVersion ocamlDependency.

Fixpoint filterM {A} (f : A -> JS.result bool) (l : list A) : JS.result (list A) :=
  match l with
  | [] => JS.ret []
  | x :: l' =>
      do b <- f x;
      do ys <- filterM f l';
      JS.ret (if b then x :: ys else ys)
  end.

(** [solveVersionConstraint] *)
Definition solveVersionConstraint (constraint : Constraint) : JS.result Solution :=
  let versionRange := versionRange constraint in
  let ocamlVersion := ocamlVersion constraint in
  let allVersions := JS.keys versions_of in
  do versions <- match ocamlVersion with
                 | Some ov => filterM (availableFor ov) allVersions
                 | None => JS.ret allVersions
                 end;
  do solution <- findVersion versions versionRange;
  match solution with
  | Some s => JS.ret s
  | None =>
      match ocamlVersion with
      | Some _ =>
          do solutionWithoutOCamlconstraint <- findVersion allVersions versionRange;
          match solutionWithoutOCamlconstraint with
          | Some _ => JS.ret no_version_found_for_ocaml_constraint
          | None => JS.ret no_version_found
          end
      | None => JS.ret no_version_found
      end
  end.

(** The versions handed to [findVersion] are keys of the collection and
    are accepted by [semver.parse]: the [invariant] of [findVersion]
    holds. *)
Definition valid (versions : list string) : Prop :=
  forall version,
    In version versions ->
    In version (JS.keys versions_of) /\ is_Some (semver_parse version).

(** The version that is matched against the range: the parsed version,
    without its pre-release tag when the range is not itself a pre-release
    version. *)
Definition masked (versionRange : string) (v : SemVer.t) : SemVer.t :=
  match semver_prerelease versionRange with
  | None => SemVer.set_prerelease v []
  | Some _ => v
  end.

(** A candidate version satisfies the requested range. *)
Definition satisfiesRange (versionRange version : string) : bool :=
  match semver_parse version with
  | Some v => semver_satisfies (masked versionRange v) versionRange
  | None => false
  end.

(** The [ocaml] constraint a candidate declares among its peer
    dependencies, [*] when it declares none. *)
Definition ocamlConstraint (m : MinimalManifest) : string :=
  match peerDependencies m with
  | Some pd =>
      match pd !! "ocaml" with
      | Some range => range
      | None => "*"
      end
  | None => "*"
  end.

(** A call that returned [true]. *)
Definition isTrue (r : JS.result bool) : bool :=
  match r with
  | inr b => b
  | inl _ => false
  end.

(** A candidate version is eligible for the compiler version:
    [semver.satisfies] returns [true] for the compiler version and the
    candidate's [ocaml] constraint. *)
Definition eligible (ocamlVersion version : string) : bool :=
  match JS.get versions_of version with
  | Some m => isTrue (semver_satisfies_string ocamlVersion (ocamlConstraint m))
  | None => false
  end.

(** The compiler version is one that [semver.satisfies] takes: the call
    returns for it, whatever the range.  Without compiler version there is
    no such call. *)
Definition accepted (ocamlVersion : option string) : Prop :=
  forall ov range,
    ocamlVersion = Some ov -> exists b, semver_satisfies_string ov range = JS.ret b.

(** The order in which [findVersion] tries the candidates: greater opam
    versions first. *)
Definition descending (a b : Parsed) : Prop :=
  0 <= versionCompare (opamVersion a) (opamVersion b).

(** [p] is the first candidate of [l] that satisfies the range. *)
Definition firstMatch (l : list Parsed) (versionRange : string) (p : Parsed) : Prop :=
  exists l1 l2,
    l = l1 ++ p :: l2
    /\ semver_satisfies (semver p) versionRange = true
    /\ forall q, In q l1 -> semver_satisfies (semver q) versionRange = false.

(** What [parseVersion] makes of a version string that [semver.parse]
    accepts: the masked version, the tag that was hidden, and the opam
    version of its manifest. *)
Definition parsedAs (versionRange version : string) (p : Parsed) : Prop :=
  exists v m,
    semver_parse version = Some v
    /\ JS.get versions_of version = Some m
    /\ semver p = masked versionRange v
    /\ opamVersion p = opam_version m
    /\ _prereleaseHidden p
       = match semver_prerelease versionRange with
         | None => Some (SemVer.prerelease v)
         | Some _ => None
         end.

End Solve.

Definition isFound (s : Solution) : bool :=
  match s with
  | found _ => true
  | _ => false
  end.

(** [isLockfileEntryOutdated]; [resolver.ocamlVersion] is the first
    argument. *)
Definition isLockfileEntryOutdated (ocamlVersion : option string)
  (lockfileEntry : Lockfile.Entry) (versionRange : string) (hasVersion : bool)
  : JS.result bool :=
  let manifestCollection :=
    [(Lockfile.version lockfileEntry,
      {| version := Lockfile.version lockfileEntry;
         peerDependencies := Lockfile.peerDependencies lockfileEntry;
         opam_version := Lockfile.version lockfileEntry |})] in
  if negb (isValidReference (Lockfile.resolved lockfileEntry)) then JS.ret false
  else
    do s <- solveVersionConstraint
              (match Lockfile.name lockfileEntry with
               | Some n => n
               | None => "undefined"
               end)
              manifestCollection
              {| versionRange := versionRange; ocamlVersion := ocamlVersion |};
    JS.ret (negb (isFound s)).

(** The manifest that [isLockfileEntryOutdated] makes of a lock entry: the
    entry itself, with its version as opam version. *)
Definition lockedManifest (lockfileEntry : Lockfile.Entry) : MinimalManifest :=
  {| version := Lockfile.version lockfileEntry;
     peerDependencies := Lockfile.peerDependencies lockfileEntry;
     opam_version := Lockfile.version lockfileEntry |}.

(** The [ocaml] constraint of a manifest accepts the compiler version;
    without compiler version every manifest is accepted. *)
Definition compilerAccepts (ocamlVersion : option string) (m : MinimalManifest) : bool :=
  match ocamlVersion with
  | Some ov => isTrue (semver_satisfies_string ov (ocamlConstraint m))
  | None => true
  end.

(** [parseFragment]: the name and the version of a pattern
    [@OPAM_SCOPE/name@version]; the version is [*] when the array that
    [split] returns has no second element. *)
Record Fragment := mkFragment {
  fragmentName : string;
  fragmentVersion : string;
}.

Definition parseFragment (fragment : string) : Fragment :=
  let fragment := JS.slice_from fragment (JS.len ("@" +:+ OPAM_SCOPE +:+ "/")) in
  let '(name, rest) := JS.split "@" fragment in
  {| fragmentName := name;
     fragmentVersion := match rest with
                        | version :: _ => version
                        | [] => "*"
                        end |}.

(** [semver.validRange]: the range in its normal form, or [null]. *)
Variable semver_validRange : string -> option string.

(** [OpamResolver.isVersion] *)
Definition isVersion (pattern : string) : bool :=
  if negb (JS.startsWith pattern ("@" +:+ OPAM_SCOPE)) then false
  else
    let pattern :=
      if decide (JS.first pattern = Some "@"%char) then JS.slice_from pattern 1
      else pattern in
    let '(_name, rest) := JS.split "@" pattern in
    match rest with
    | [] => true
    | constraint :: _ => JS.truthy (semver_validRange constraint)
    end.

(** The fields of a [PackageRequest] that the error message reads. *)
Record PackageRequest := mkRequest {
  parentNames : list string;
  requestPattern : string;
}.

(** [dependencyNotFoundErrorMessage] *)
Definition dependencyNotFoundErrorMessage (reason : string) (req : PackageRequest)
  : string :=
  let path := JS.joinWith " > " (parentNames req ++ [requestPattern req]) in
  path +:+ ": " +:+ reason.

Definition newline : string := String (ascii_of_nat 10) EmptyString.

(** The text of the [outdent] template of [resolveManifest]: its lines
    without their indentation.  A missing compiler version is printed as
    [null]. *)
Definition noVersionForCompiler (ocamlVersion : option string) : string :=
  "no version found for the current OCaml version "
    +:+ match ocamlVersion with
        | Some v => v
        | None => "null"
        end
    +:+ "." +:+ newline
    +:+ "Consider updating OCaml version constraint of your package," +:+ newline
    +:+ "run 'npm info ocaml' to see available OCaml versions.".

(** The range that [resolveManifest] asks for: [*] when the resolver has
    no version or the version [latest]. *)
Definition requestedRange (this_version : option string) : string :=
  match this_version with
  | None => "*"
  | Some v => if String.eqb v "latest" then "*" else v
  end.

(** [resolveManifest], on the manifest collection that the opam repository
    has for [this.name]; the result is [undefined] when the collection has
    nothing under the version found. *)
Definition resolveManifest (this_name : string) (this_version : option string)
  (request : PackageRequest) (manifestCollection : list (string * MinimalManifest))
  (ocamlVersion : option string) : JS.result (option MinimalManifest) :=
  let versionRange := requestedRange this_version in
  do version <- solveVersionConstraint this_name manifestCollection
                  {| versionRange := versionRange; ocamlVersion := ocamlVersion |};
  match version with
  | found v => JS.ret (JS.get manifestCollection v)
  | no_version_found =>
      JS.throw (JS.MessageError
                  (dependencyNotFoundErrorMessage "no version found" request))
  | no_version_found_for_ocaml_constraint =>
      JS.throw (JS.MessageError
                  (dependencyNotFoundErrorMessage
                     (noVersionForCompiler ocamlVersion) request))
  end.

End WithLibraries.

End OpamResolver.

(** ** The opam fetcher *)

Module OpamFetcher.

(** [File] and [Patch] of the resolver: a name and a content. *)
Record File := mkFile {
  file_name : string;
  content : string;
}.

Record Opam := mkOpam {
  url : option string;
  version : string;
  checksum : option string;
  files : list File;
  patches : list File;
}.

(** [OpamManifest], as far as the fetcher reads it. *)
Record OpamManifest := mkManifest {
  name : string;
  opam : Opam;
}.

(** [FetchedOverride] *)
Record FetchedOverride := mkOverride {
  hash : string;
  resolved : option string;
}.

(** The fields of the fetcher object ([BaseFetcher]) that [_fetch] reads. *)
Record Fetcher := mkFetcher {
  dest : string;
  reference : string;
  this_hash : option string;
  registry : string;
}.

(** What a fetch does to the world outside, in the order it does it.
    [WriteStream filename content] stands for the end of the piping into
    the write stream of [filename]: [content] is what was piped. *)
Inductive Effect :=
| Request (url : option string)
| HashUpdate (chunk : string)
| HashDigest
| WriteStream (filename content : string)
| Exec (command : string) (cwd : option string)
| ExtractZip (filename dest : string)
| Mkdirp (dir : string)
| WriteFile (filename content : string)
| Unlink (filename : string).

(** How the piping of a response into the write stream ends: the write
    stream emits [finish], or [error], or neither. *)
Inductive Ending :=
| finish
| error (err : JS.exn)
| stalled.

(** What the request of a URL delivers: the [response] event with its
    status code, then the [data] events, then the end of the piping. *)
Record Response := mkResponse {
  statusCode : Z;
  chunks : list string;
  ending : Ending;
}.

(** The collaborators of a fetch. *)
Record Env := mkEnv {
  (** [OpamRepository.init] followed by
      [OpamRepository.getManifestCollection]: the manifests of a package,
      by version *)
  manifestCollection : string -> JS.result (list (string * OpamManifest));
  (** what [registry.request] receives for a URL *)
  download : option string -> Response;
  (** the failure of a file-system or subprocess operation, if any *)
  failure : Effect -> option JS.exn;
}.

(** A promise that is settled ([Some]) or stays pending ([None]). *)
Definition Promise (A : Type) : Type := option (JS.result A).

(** [resolve] and [reject] settle a promise once: a settled promise keeps
    its state. *)
Definition settle {A} (p : Promise A) (r : JS.result A) : Promise A :=
  match p with
  | Some _ => p
  | None => Some r
  end.

(** An asynchronous computation: it extends the trace of effects and
    yields a promise. *)
Definition Async (A : Type) : Type := list Effect -> list Effect * Promise A.

Definition aret {A} (a : A) : Async A := fun t => (t, Some (inr a)).

(** [await] *)
Definition abind {A B} (m : Async A) (k : A -> Async B) : Async B :=
  fun t =>
    match m t with
    | (t', Some (inr a)) => k a t'
    | (t', Some (inl e)) => (t', Some (inl e))
    | (t', None) => (t', None)
    end.

Definition lift {A} (r : JS.result A) : Async A := fun t => (t, Some r).

(** The binding of [parseResolution] that the fetcher imports from the
    resolver module (l.10-13).  [opam-resolver/index.js] exports its class,
    [lookupManifest], [parseReference] and [parseFragment], and nothing
    under the name [parseResolution]: the binding is [undefined]. *)
Definition parseResolution
  : option (string -> JS.result OpamResolver.OpamPackageReference) := None.

(** The call of an imported binding: calling [undefined] throws. *)
Definition call {A B} (name : string) (binding : option (A -> JS.result B)) (a : A)
  : JS.result B :=
  match binding with
  | Some f => f a
  | None => JS.throw (JS.TypeError (name +:+ " is not a function"))
  end.

(** [getTarballFormatFromFilename] *)
Inductive Format := gzip | bzip | zip | xz.

Definition getTarballFormatFromFilename (filename : string) : Format :=
  if JS.endsWith filename ".tgz" || JS.endsWith filename ".tar.gz" then gzip
  else if JS.endsWith filename ".tar.bz" || JS.endsWith filename ".tar.bz2"
          || JS.endsWith filename ".tbz" then bzip
  else if JS.endsWith filename ".zip" then zip
  else if JS.endsWith filename ".xz" then xz
  else gzip.

(** The effect by which [unpackTarball] unpacks. *)
Definition unpackEffect (filename dest : string) (format : Format) : Effect :=
  match format with
  | zip => ExtractZip filename dest
  | _ =>
      let unpackOptions :=
        match format with
        | gzip => "-xzf"
        | xz => "-xJf"
        | _ => "-xjf"
        end in
      Exec ("tar " +:+ unpackOptions +:+ " " +:+ filename
              +:+ " --strip-components 1 -C " +:+ dest) None
  end.

(** The effects that unpack an archive. *)
Definition unpacks (e : Effect) : bool :=
  match e with
  | ExtractZip _ _ => true
  | Exec command _ => JS.startsWith command "tar "
  | _ => false
  end.

(** The effects that feed the hasher. *)
Definition isHashUpdate (e : Effect) : bool :=
  match e with
  | HashUpdate _ => true
  | _ => false
  end.

Definition isRequest (e : Effect) : bool :=
  match e with
  | Request _ => true
  | _ => false
  end.

Section WithCollaborators.

(** [nodeCrypto.createHash("md5")]: the hex digest of the bytes given to
    [update] so far. *)
Variable md5_hex : string -> string.

(** [constants.TARBALL_FILENAME], [path.join], [path.dirname],
    [JSON.stringify(object, null, 2)], [http.STATUS_CODES] (a code without
    description gives [undefined]) and [reporter.lang]. *)
Variable TARBALL_FILENAME : string.
Variable path_join : string -> string -> string.
Variable path_dirname : string -> string.
Variable json : OpamManifest -> string.
Variable STATUS_CODES : Z -> option string.
Variable lang : string -> string -> string.

Variable env : Env.

(** An operation on the file system or a subprocess: it is recorded, and
    fails if the environment says so. *)
Definition perform (e : Effect) : Async unit :=
  fun t =>
    (t ++ [e],
     Some (match failure env e with
           | Some err => inl err
           | None => inr tt
           end)).

(** The state of [writeValidatedStream] while the stream flows: the
    bytes given to the hasher, and the bytes piped to the file. *)
Record Sink := mkSink {
  hasher : string;
  out : string;
}.

(** The [data] handler of [writeValidatedStream], and the pipe. *)
Definition onData (md5checksum : option string) (st : Sink * list Effect)
  (chunk : string) : Sink * list Effect :=
  let '(sink, t) := st in
  match md5checksum with
  | Some _ =>
      ({| hasher := hasher sink +:+ chunk; out := out sink +:+ chunk |},
       t ++ [HashUpdate chunk])
  | None =>
      ({| hasher := hasher sink; out := out sink +:+ chunk |}, t)
  end.

(** The [finish] handler of [writeValidatedStream]. *)
Definition onFinish (md5checksum : option string) (sink : Sink) : JS.result string :=
  let actualChecksum := md5_hex (hasher sink) in
  match md5checksum with
  | Some expected =>
      if negb (String.eqb actualChecksum expected)
      then JS.throw (JS.SecurityError
             ("Incorrect md5sum (expected " +:+ expected
                +:+ ", got " +:+ actualChecksum +:+ ")"))
      else JS.ret actualChecksum
  | None => JS.ret actualChecksum
  end.

(** [writeValidatedStream]: the file that is written and the promise
    that is returned. *)
Definition writeValidatedStream (stream : Response) (filename : string)
  (md5checksum : option string) : Async string :=
  fun t =>
    let '(sink, t) :=
      fold_left (onData md5checksum) (chunks stream)
        ({| hasher := ""; out := "" |}, t) in
    let t := t ++ [WriteStream filename (out sink)] in
    match ending stream with
    | error err => (t, Some (JS.throw err))
    | finish => (t ++ [HashDigest], Some (onFinish md5checksum sink))
    | stalled => (t, None)
    end.

(** Modelled from the spec: [registry.request] is not part of the
    sources at hand; the spec describes the collaborator as
    "streamDownload(url, headers) -> byte stream".  The registry is asked
    for the URL once, and [process] is called once, with the stream and
    with the [resolve] and [reject] of the promise that the request
    returns: [process] takes the stream and the state of the promise and
    gives the state in which it leaves the promise. *)
Definition request {A} (url : option string)
  (process : Response -> Promise A -> list Effect -> list Effect * Promise A)
  : Async A :=
  fun t => process (download env url) None (t ++ [Request url]).

(** The error that [handleRequestError] makes of a status code. *)
Definition requestFailed (statusCode : Z) : JS.exn :=
  let statusDescription :=
    match STATUS_CODES statusCode with
    | Some description => description
    | None => "undefined"
    end in
  JS.Error (lang "requestFailed" (pretty statusCode +:+ " " +:+ statusDescription)).

(** [handleRequestError], the handler of the [response] event: it rejects
    when the status code is 400 or more. *)
Definition handleRequestError {A} (res : Response) (promise : Promise A) : Promise A :=
  if 400 <=? statusCode res
  then settle promise (JS.throw (requestFailed (statusCode res)))
  else promise.

(** [_fetchTarball]: [process] lets [handleRequestError] answer the
    [response] event, and settles the promise by the promise of
    [writeValidatedStream]. *)
Definition _fetchTarball (manifest : OpamManifest) (filename : string) : Async string :=
  request (url (opam manifest)) (fun req promise t =>
    let promise := handleRequestError req promise in
    let '(t', written) :=
      writeValidatedStream req filename (checksum (opam manifest)) t in
    (t', match written with
         | Some r => settle promise r
         | None => promise
         end)).

(** [unpackTarball] *)
Definition unpackTarball (filename dest : string) (format : Format) : Async unit :=
  perform (unpackEffect filename dest format).

(** [writeJson] *)
Definition writeJson (filename : string) (object : OpamManifest) : Async unit :=
  perform (WriteFile filename (json object)).

(** The error of the first operation that fails. *)
Fixpoint firstFailure (operations : list Effect) : option JS.exn :=
  match operations with
  | [] => None
  | e :: rest =>
      match failure env e with
      | Some err => Some err
      | None => firstFailure rest
      end
  end.

(** [writeFiles].  [files.map] calls its callback on every file in turn,
    and each call runs up to its first [await]: the [mkdirp] of every file
    is started, in the order of the array, before any of them completes.
    The [writeFile] of a file is started when its [mkdirp] has succeeded,
    whatever became of the other files, and [Promise.all] is rejected by
    the first failure while the other operations go on.  The operations
    are taken to complete in the order in which they were started. *)
Definition writeFiles (dest : string) (files : list File) : Async unit :=
  match files with
  | [] => aret tt
  | _ =>
      fun t =>
        let mkdirp file := Mkdirp (path_dirname (path_join dest (file_name file))) in
        let made :=
          List.filter (fun file =>
                         match failure env (mkdirp file) with
                         | Some _ => false
                         | None => true
                         end) files in
        let writes :=
          map (fun file => WriteFile (path_join dest (file_name file)) (content file))
            made in
        let started := map mkdirp files ++ writes in
        (t ++ started,
         Some (match firstFailure started with
               | Some err => JS.throw err
               | None => JS.ret tt
               end))
  end.

(** [applyPatches] *)
Fixpoint applyPatches (dest : string) (patches : list File) : Async unit :=
  match patches with
  | [] => aret tt
  | patch :: rest =>
      let patchFilename := path_join dest (file_name patch) in
      abind (perform (WriteFile patchFilename (content patch))) (fun _ =>
      abind (perform (Exec "patch -p1 < _esy_patch" (Some dest))) (fun _ =>
      abind (perform (Unlink patchFilename)) (fun _ =>
      applyPatches dest rest)))
  end.

(** [lookupManifest] of the resolver module: what the collection of the
    package has under the version, [undefined] when it has nothing. *)
Definition lookupManifest (name version : string) : Async (option OpamManifest) :=
  abind (lift (manifestCollection env name)) (fun manifestCollection =>
  let manifest := JS.get manifestCollection version in
  aret manifest).

(** [this.hash || ""] *)
Definition presetHash (this : Fetcher) : string :=
  match JS.or_else (this_hash this) (Some "") with
  | Some h => h
  | None => ""
  end.

(** The steps of [_fetch] after the download: the manifest is written as
    [package.json], then the files, then the patches are applied, and the
    override is returned. *)
Definition finishFetch (this : Fetcher) (manifest : OpamManifest) (hash : string)
  : Async FetchedOverride :=
  let dest := dest this in
  abind (writeJson (path_join dest "package.json") manifest) (fun _ =>
  abind (writeFiles dest (files (opam manifest))) (fun _ =>
  abind (applyPatches dest (patches (opam manifest))) (fun _ =>
  let fetchOverride := {| hash := hash; resolved := None |} in
  aret fetchOverride))).

(** [OpamFetcher._fetch].  Its first statement calls [parseResolution];
    reading [manifest.opam] of a manifest that is [undefined] throws. *)
Definition _fetch (this : Fetcher) : Async FetchedOverride :=
  let dest := dest this in
  abind (lift (call "parseResolution" parseResolution (reference this)))
    (fun resolution =>
  abind (lookupManifest (OpamResolver.name resolution)
           (OpamResolver.ref_version resolution)) (fun manifest =>
  let hash := presetHash this in
  abind (lift (match manifest with
               | Some manifest => JS.ret manifest
               | None => JS.throw (JS.TypeError
                           "Cannot read property 'opam' of undefined")
               end)) (fun manifest =>
  abind
    (match url (opam manifest) with
     | Some u =>
         let tarballStorePath := path_join dest TARBALL_FILENAME in
         let tarballFormat := getTarballFormatFromFilename u in
         abind (_fetchTarball manifest tarballStorePath) (fun hash =>
         abind (unpackTarball tarballStorePath dest tarballFormat) (fun _ =>
         aret hash))
     | None => aret hash
     end) (fun hash =>
  finishFetch this manifest hash)))).

End WithCollaborators.

End OpamFetcher.

(** ** Sample collaborators

    Small executable stand-ins for the libraries the sources call, used to
    run the definitions above on concrete inputs.  They cover versions of
    the form [major.minor.patch] with an optional [-prerelease] tag and the
    ranges [*], [>=v], [^v] and [v]. *)

Module Sample.

(** The text before and after the first occurrence of a character. *)
Fixpoint cut (c : ascii) (s : string) : string * option string :=
  match s with
  | EmptyString => (EmptyString, None)
  | String x s' =>
      if Ascii.eqb x c then (EmptyString, Some s')
      else let '(a, b) := cut c s' in (String x a, b)
  end.

Definition digit (c : ascii) : option Z :=
  let n := JS.charCode c in
  if (48 <=? n) && (n <=? 57) then Some (n - 48) else None.

Fixpoint number_from (acc : Z) (s : string) : option Z :=
  match s with
  | EmptyString => Some acc
  | String c s' =>
      match digit c with
      | Some d => number_from (10 * acc + d) s'
      | None => None
      end
  end.

(** A numeric identifier: digits, without a leading zero. *)
Definition number (s : string) : option Z :=
  match s with
  | EmptyString => None
  | String "0" (String _ _) => None
  | _ => number_from 0 s
  end.

Definition parse (version : string) : option SemVer.t :=
  let '(core, tag) := cut "-" version in
  let '(a, rest) := cut "." core in
  match rest with
  | None => None
  | Some rest =>
      let '(b, c) := cut "." rest in
      match number a, number b, c with
      | Some x, Some y, Some c =>
          match number c with
          | Some z =>
              Some {| SemVer.raw := version;
                      SemVer.major := x; SemVer.minor := y; SemVer.patch := z;
                      SemVer.prerelease := match tag with
                                           | Some p => [p]
                                           | None => []
                                           end;
                      SemVer.build := [] |}
          | None => None
          end
      | _, _, _ => None
      end
  end.

Definition prerelease (version : string) : option (list string) :=
  match parse version with
  | Some v =>
      match SemVer.prerelease v with
      | [] => None
      | p => Some p
      end
  | None => None
  end.

Definition released (v : SemVer.t) : bool :=
  match SemVer.prerelease v with
  | [] => true
  | _ => false
  end.

(** [v >= w] on the numeric part. *)
Definition geq (v w : SemVer.t) : bool :=
  (SemVer.major w <? SemVer.major v)
  || ((SemVer.major w =? SemVer.major v)
      && ((SemVer.minor w <? SemVer.minor v)
          || ((SemVer.minor w =? SemVer.minor v)
              && (SemVer.patch w <=? SemVer.patch v)))).

Definition satisfies (v : SemVer.t) (range : string) : bool :=
  match range with
  | "" | "*" => released v
  | String ">" (String "=" w) =>
      match parse w with
      | Some w => released v && geq v w
      | None => false
      end
  | String "^" w =>
      match parse w with
      | Some w => released v && geq v w && (SemVer.major v =? SemVer.major w)
      | None => false
      end
  | w =>
      match parse w with
      | Some w =>
          geq v w && geq w v
          && bool_decide (SemVer.prerelease v = SemVer.prerelease w)
      | None => false
      end
  end.

(** [validRange] on the ranges above: the range itself, [*] for the empty
    range, [null] for anything else. *)
Definition validRange (range : string) : option string :=
  match range with
  | "" | "*" => Some "*"
  | String ">" (String "=" w) | String "^" w | w =>
      match parse w with
      | Some _ => Some range
      | None => None
      end
  end.

(** [satisfies] on a version string: [false] for what is no range and for
    the empty string; otherwise the string is made a version, which throws
    when it is none. *)
Definition satisfies_string (version range : string) : JS.result bool :=
  match validRange range with
  | None => JS.ret false
  | Some _ =>
      match version with
      | "" => JS.ret false
      | _ =>
          match parse version with
          | Some v => JS.ret (satisfies v range)
          | None => JS.throw (JS.TypeError ("Invalid Version: " +:+ version))
          end
      end
  end.

(** A total order on version strings: code unit by code unit. *)
Definition versionCompare (a b : string) : Z := sortAlpha a b.

(** An md5 stand-in: the digests of the empty input, of [abc] and of
    [abcdef] are the real ones, any other input is tagged. *)
Definition md5_hex (bytes : string) : string :=
  if String.eqb bytes "" then "d41d8cd98f00b204e9800998ecf8427e"
  else if String.eqb bytes "abc" then "900150983cd24fb0d6963f7d28e17f72"
  else if String.eqb bytes "abcdef" then "e80b5017098950fc58aad83c8c14978e"
  else "md5:" +:+ bytes.

Definition path_join (a b : string) : string := a +:+ "/" +:+ b.

Definition path_dirname (p : string) : string :=
  JS.slice p 0 (JS.lastIndexOf p "/").

Definition json (m : OpamFetcher.OpamManifest) : string :=
  "{" +:+ OpamFetcher.name m +:+ "}".

(** The descriptions of some status codes, and the messages of the
    reporter: the text of the key, then the argument between quotes. *)
Definition STATUS_CODES (status : Z) : option string :=
  if status =? 200 then Some "OK"
  else if status =? 404 then Some "Not Found"
  else if status =? 500 then Some "Internal Server Error"
  else None.

Definition lang (key argument : string) : string :=
  (if String.eqb key "requestFailed" then "Request failed" else key)
    +:+ " " +:+ OpamResolver.quote +:+ argument +:+ OpamResolver.quote.

(** A registry that answers every URL with a given status and two chunks,
    a repository that has the given manifest under its opam version, and a
    file system on which nothing fails. *)
Definition env (status : Z) (manifest : OpamFetcher.OpamManifest) : OpamFetcher.Env :=
  {| OpamFetcher.manifestCollection := fun _ =>
       JS.ret [(OpamFetcher.version (OpamFetcher.opam manifest), manifest)];
     OpamFetcher.download := fun _ =>
       {| OpamFetcher.statusCode := status;
          OpamFetcher.chunks := ["abc"; "def"];
          OpamFetcher.ending := OpamFetcher.finish |};
     OpamFetcher.failure := fun _ => None |}.

(** A registry that answers every URL with a given response, and a file
    system with given failures. *)
Definition envOf (response : OpamFetcher.Response)
  (failure : OpamFetcher.Effect -> option JS.exn)
  (manifest : OpamFetcher.OpamManifest) : OpamFetcher.Env :=
  {| OpamFetcher.manifestCollection := fun _ =>
       JS.ret [(OpamFetcher.version (OpamFetcher.opam manifest), manifest)];
     OpamFetcher.download := fun _ => response;
     OpamFetcher.failure := failure |}.

(** The download of the tarball, and the fetch, with these collaborators. *)
Definition fetchTarball (env : OpamFetcher.Env) :=
  OpamFetcher._fetchTarball md5_hex STATUS_CODES lang env.

Definition fetch (env : OpamFetcher.Env) :=
  OpamFetcher._fetch md5_hex ".yarn-tarball.tgz" path_join path_dirname json
    STATUS_CODES lang env.

(** A file system on which the [patch] command fails. *)
Definition patchFails (e : OpamFetcher.Effect) : option JS.exn :=
  match e with
  | OpamFetcher.Exec command _ =>
      if String.eqb command "patch -p1 < _esy_patch"
      then Some (JS.Error "Command failed")
      else None
  | _ => None
  end.

(** A response whose bytes cannot be written to the end. *)
Definition brokenResponse : OpamFetcher.Response :=
  {| OpamFetcher.statusCode := 200;
     OpamFetcher.chunks := ["abc"];
     OpamFetcher.ending := OpamFetcher.error (JS.Error "ENOSPC") |}.

Definition goodResponse : OpamFetcher.Response :=
  {| OpamFetcher.statusCode := 200;
     OpamFetcher.chunks := ["abc"; "def"];
     OpamFetcher.ending := OpamFetcher.finish |}.

Definition solve :=
  OpamResolver.solveVersionConstraint "opam" parse prerelease satisfies
    satisfies_string versionCompare.

Definition isVersion := OpamResolver.isVersion "opam" validRange.

Definition resolveManifest :=
  OpamResolver.resolveManifest "opam" parse prerelease satisfies satisfies_string
    versionCompare.

End Sample.

(** ** Sample inputs *)

Module Examples.

Import Lockfile.

(** A fully-populated entry for the pattern [foo@^1.0.0]: the name is the
    one the pattern gives, the uid is the version, the registry is [npm],
    and [peerDependencies] is an empty object. *)
Definition fullEntry : Entry :=
  {| name := Some "foo";
     version := "1.0.0";
     resolved := Some "foo@1.0.0-abc.tgz";
     registry := Some "npm";
     uid := Some "1.0.0";
     permissions := Some ∅;
     optionalDependencies := Some ∅;
     peerDependencies := Some ∅;
     dependencies := Some {[ "bar" := "^2.0.0" ]} |}.

Definition with_peerDependencies (pd : option (gmap string string)) (e : Entry) : Entry :=
  {| name := name e; version := version e; resolved := resolved e;
     registry := registry e; uid := uid e; permissions := permissions e;
     optionalDependencies := optionalDependencies e;
     peerDependencies := pd;
     dependencies := dependencies e |}.

(** A cache in which two patterns are aliases of each other. *)
Definition cyclicCache : gmap string CacheValue :=
  <[ "a@1" := Alias "b@1" ]> (<[ "b@1" := Alias "a@1" ]> ∅).

(** A cache with a chain of two aliases that ends in an entry. *)
Definition chainCache : gmap string CacheValue :=
  <[ "a@1" := Alias "b@1" ]>
    (<[ "b@1" := Alias "foo@^1.0.0" ]>
       (<[ "foo@^1.0.0" := Locked (implodeEntry nameSegment "foo@^1.0.0" fullEntry) ]> ∅)).

(** Two patterns resolved to the package [foo] from one tarball, a third
    pattern resolved to [bar]; the same bindings inserted in two orders. *)
Definition pkgFoo : Pkg.Manifest :=
  {| Pkg.name := "foo";
     Pkg.version := "1.0.0";
     Pkg._uid := "1.0.0";
     Pkg.dependencies := Some {[ "bar" := "^2.0.0" ]};
     Pkg.peerDependencies := None;
     Pkg.optionalDependencies := None;
     Pkg._remote := Some {| Pkg.type := "tarball";
                            Pkg.registry := "npm";
                            Pkg.hash := Some "abc";
                            Pkg.reference := Some "https://registry.example/foo-1.0.0.tgz";
                            Pkg.resolved := Some "https://registry.example/foo-1.0.0.tgz#abc" |};
     Pkg._reference := Some {| Pkg.permissions := None |} |}.

Definition pkgBar : Pkg.Manifest :=
  {| Pkg.name := "bar";
     Pkg.version := "2.1.0";
     Pkg._uid := "2.1.0";
     Pkg.dependencies := None;
     Pkg.peerDependencies := None;
     Pkg.optionalDependencies := None;
     Pkg._remote := Some {| Pkg.type := "tarball";
                            Pkg.registry := "npm";
                            Pkg.hash := Some "def";
                            Pkg.reference := Some "https://registry.example/bar-2.1.0.tgz";
                            Pkg.resolved := None |};
     Pkg._reference := Some {| Pkg.permissions := None |} |}.

Definition patternsA : list (string * Pkg.Manifest) :=
  [("zoo@file:../foo", pkgFoo); ("foo@^1.0.0", pkgFoo); ("bar@2", pkgBar)].

Definition patternsB : list (string * Pkg.Manifest) :=
  [("bar@2", pkgBar); ("foo@^1.0.0", pkgFoo); ("zoo@file:../foo", pkgFoo)].

(** Two patterns resolved to [bar], whose remote has no [resolved] and
    is identified by its reference and hash; both give the name [bar]. *)
Definition patternsHashed : list (string * Pkg.Manifest) :=
  [("bar@2", pkgBar); ("bar@^2.1.0", pkgBar); ("foo@^1.0.0", pkgFoo)].

(** The catalog of the spec: versions [1.0.0], [1.1.0] and [2.0.0-beta1]
    without compiler constraints, with the opam versions [o1], [o2] and
    [o3]. *)
Definition catalog (o1 o2 o3 : string) : list (string * OpamResolver.MinimalManifest) :=
  [("1.0.0", OpamResolver.mkManifest "1.0.0" None o1);
   ("1.1.0", OpamResolver.mkManifest "1.1.0" None o2);
   ("2.0.0-beta1", OpamResolver.mkManifest "2.0.0-beta1" None o3)].

(** A catalog whose two versions need a compiler of major version 1. *)
Definition narrowCatalog : list (string * OpamResolver.MinimalManifest) :=
  [("1.0.0", OpamResolver.mkManifest "1.0.0" (Some {[ "ocaml" := "^1.0.0" ]}) "1.0.0");
   ("1.1.0", OpamResolver.mkManifest "1.1.0" (Some {[ "ocaml" := "^1.0.0" ]}) "1.1.0")].

(** A fetcher, and manifests with a URL and a checksum that the download
    does not have, with a URL and no checksum, and without URL. *)
Definition fetcher : OpamFetcher.Fetcher :=
  {| OpamFetcher.dest := "/cache/foo";
     OpamFetcher.reference := "foo@1.0.0-abc.tgz";
     OpamFetcher.this_hash := None;
     OpamFetcher.registry := "npm" |}.

Definition manifestWith (url checksum : option string) : OpamFetcher.OpamManifest :=
  {| OpamFetcher.name := "@opam/foo";
     OpamFetcher.opam :=
       {| OpamFetcher.url := url;
          OpamFetcher.version := "1.0.0";
          OpamFetcher.checksum := checksum;
          OpamFetcher.files := [OpamFetcher.mkFile "foo.install" "bin: []"];
          OpamFetcher.patches := [] |} |}.


Definition uncheckedManifest : OpamFetcher.OpamManifest :=
  manifestWith (Some "https://example.org/foo-1.0.0.tar.gz") None.

(** A manifest whose checksum is the digest of the sample download. *)
Definition verifiedManifest : OpamFetcher.OpamManifest :=
  manifestWith (Some "https://example.org/foo-1.0.0.tar.gz")
    (Some "e80b5017098950fc58aad83c8c14978e").

Definition localManifest : OpamFetcher.OpamManifest := manifestWith None None.

(** A lock entry of version [1.0.0] whose [resolved] is not of the form
    [name@version-uid.tgz], the same entry without [resolved], and the same
    entry with a well-formed [resolved]. *)
Definition with_resolved (r : option string) (e : Entry) : Entry :=
  {| name := name e; version := version e; resolved := r;
     registry := registry e; uid := uid e; permissions := permissions e;
     optionalDependencies := optionalDependencies e;
     peerDependencies := peerDependencies e;
     dependencies := dependencies e |}.

Definition malformedEntry : Entry := with_resolved (Some "foo@1.0.0") fullEntry.

Definition unresolvedEntry : Entry := with_resolved None fullEntry.

Definition wellFormedEntry : Entry := with_resolved (Some "foo@1.0.0-abc.tgz") fullEntry.

Definition isLockfileEntryOutdated :=
  OpamResolver.isLockfileEntryOutdated "opam" Sample.parse Sample.prerelease
    Sample.satisfies Sample.satisfies_string Sample.versionCompare.

(** The record of [bar] before its remote is known, and patterns of which
    the first in the order of [sortAlpha] is bound to it. *)
Definition pkgUnfetched : Pkg.Manifest :=
  {| Pkg.name := "bar";
     Pkg.version := "2.1.0";
     Pkg._uid := "2.1.0";
     Pkg.dependencies := None;
     Pkg.peerDependencies := None;
     Pkg.optionalDependencies := None;
     Pkg._remote := None;
     Pkg._reference := Some {| Pkg.permissions := None |} |}.

Definition patternsIncomplete : list (string * Pkg.Manifest) :=
  [("zoo@file:../foo", pkgFoo); ("bar@2", pkgUnfetched)].


(** The lock entry of the version [1.1.0] of [narrowCatalog]. *)
Definition freshEntry : Entry :=
  {| name := Some "@opam/foo";
     version := "1.1.0";
     resolved := Some "@opam/foo@1.1.0-abc.tgz";
     registry := Some "npm";
     uid := Some "abc";
     permissions := None;
     optionalDependencies := None;
     peerDependencies := Some {[ "ocaml" := "^1.0.0" ]};
     dependencies := None |}.

(** The request of [@opam/foo@latest] by the package [app]. *)
Definition request : OpamResolver.PackageRequest :=
  {| OpamResolver.parentNames := ["app"];
     OpamResolver.requestPattern := "@opam/foo@latest" |}.

(** Two patches. *)
Definition twoPatches : list OpamFetcher.File :=
  [OpamFetcher.mkFile "first.patch" "--- a/Makefile";
   OpamFetcher.mkFile "second.patch" "--- a/configure"].

(** A package from a directory: its remote has neither [resolved] nor
    [hash], hence no identity key.  Two patterns are bound to it. *)
Definition pkgLocal : Pkg.Manifest :=
  {| Pkg.name := "baz";
     Pkg.version := "0.1.0";
     Pkg._uid := "0.1.0";
     Pkg.dependencies := None;
     Pkg.peerDependencies := None;
     Pkg.optionalDependencies := None;
     Pkg._remote := Some {| Pkg.type := "copy";
                            Pkg.registry := "npm";
                            Pkg.hash := None;
                            Pkg.reference := Some "../baz";
                            Pkg.resolved := None |};
     Pkg._reference := Some {| Pkg.permissions := None |} |}.

Definition patternsLocal : list (string * Pkg.Manifest) :=
  [("qux@file:../baz", pkgLocal); ("baz@file:../baz", pkgLocal)].

End Examples.

(** * Properties *)

(** ** Entries: [implodeEntry] and [explodeEntry] *)

Module EntryProps.

Import Lockfile.

Section WithGetName.

Variable getName : string -> string.

Lemma or_else_truthy (a b : option string) :
  JS.truthy a = true -> JS.or_else a b = a.
Proof. unfold JS.or_else. now intros ->. Qed.

Lemma or_else_None (b : option string) : JS.or_else None b = b.
Proof. reflexivity. Qed.

Lemma or_empty_blank {V} (o : option (gmap string V)) :
  is_Some o -> JS.or_empty (blankObjectUndefined o) = o.
Proof.
  intros [m ->]. simpl.
  destruct (Nat.eqb (size m) 0) eqn:E; [|reflexivity].
  apply Nat.eqb_eq, map_size_empty_iff in E. now subst.
Qed.

(** What [explodeEntry] restores of an entry that went through
    [implodeEntry]: every field but [peerDependencies], which comes back
    as [implodeEntry] left it. *)
Lemma explodeEntry_implodeEntry_fields (pattern : string) (e : Entry) :
  JS.truthy (name e) = true ->
  JS.truthy (uid e) = true ->
  JS.truthy (registry e) = true ->
  is_Some (dependencies e) ->
  is_Some (optionalDependencies e) ->
  is_Some (permissions e) ->
  explodeEntry getName pattern (implodeEntry getName pattern e)
  = Examples.with_peerDependencies (blankObjectUndefined (peerDependencies e)) e.
Proof.
  intros Hn Hu Hr Hd Ho Hp. destruct e as [n v rs rg u pm od pd d]; simpl in *.
  unfold explodeEntry, implodeEntry, Examples.with_peerDependencies; simpl.
  rewrite !or_empty_blank by assumption.
  f_equal.
  - destruct (decide (n = Some (getName pattern))) as [->|]; [reflexivity|].
    now apply or_else_truthy.
  - destruct (decide (rg = Some "npm")) as [->|]; [reflexivity|].
    now apply or_else_truthy.
  - destruct (decide (u = Some v)) as [->|]; [reflexivity|].
    now apply or_else_truthy.
Qed.

(** A non-empty [peerDependencies] object comes back. *)
Lemma blankObjectUndefined_nonempty {V} (m : gmap string V) :
  m <> ∅ -> blankObjectUndefined (Some m) = Some m.
Proof.
  intros Hm. simpl. destruct (Nat.eqb (size m) 0) eqn:E; [|reflexivity].
  apply Nat.eqb_eq, map_size_empty_iff in E. contradiction.
Qed.

(** An empty [peerDependencies] object does not. *)
Lemma explodeEntry_implodeEntry_empty_peerDependencies (pattern : string) (e : Entry) :
  peerDependencies e = Some ∅ ->
  peerDependencies (explodeEntry getName pattern (implodeEntry getName pattern e)) = None.
Proof. intros H. simpl. now rewrite H. Qed.

End WithGetName.

(** C1, at a fully-populated entry whose [peerDependencies] is the empty
    object: [explodeEntry] after [implodeEntry] gives back every field of
    the entry except [peerDependencies], which [implodeEntry] dropped and
    [explodeEntry] leaves [undefined]; the result is not the entry. *)
Theorem explodeEntry_implodeEntry_loses_peerDependencies :
  explodeEntry nameSegment "foo@^1.0.0"
    (implodeEntry nameSegment "foo@^1.0.0" Examples.fullEntry)
  = Examples.with_peerDependencies None Examples.fullEntry
  /\ peerDependencies Examples.fullEntry = Some ∅
  /\ explodeEntry nameSegment "foo@^1.0.0"
       (implodeEntry nameSegment "foo@^1.0.0" Examples.fullEntry)
     <> Examples.fullEntry.
Proof.
  assert (E : explodeEntry nameSegment "foo@^1.0.0"
                (implodeEntry nameSegment "foo@^1.0.0" Examples.fullEntry)
              = Examples.with_peerDependencies None Examples.fullEntry).
  { rewrite explodeEntry_implodeEntry_fields; simpl; eauto. }
  split; [exact E|]. split; [reflexivity|].
  rewrite E. intros H. apply (f_equal peerDependencies) in H. discriminate H.
Qed.

End EntryProps.

(** ** The cache: [getLocked] *)

Module GetLockedProps.

Import Lockfile.

Section WithGetName.

Variable getName : string -> string.

#[local] Abbreviation body := (getLocked_body getName).
#[local] Abbreviation returns := (getLocked_returns getName).
#[local] Abbreviation run := (getLocked_fuel getName).

Lemma body_Continue (cache : gmap string CacheValue) (pattern shrunk : string) :
  body cache pattern = Continue shrunk <-> aliases cache shrunk pattern.
Proof.
  unfold getLocked_body, aliases.
  destruct (cache !! pattern) as [[q|e]|]; split; intros H;
    try discriminate H; congruence.
Qed.

(** What the method returns is absence, or an entry of the cache brought
    to its full form. *)
Lemma body_Return (cache cache' : gmap string CacheValue) (pattern : string)
  (r : option Entry) :
  body cache pattern = Return cache' r ->
  (cache !! pattern = None /\ cache' = cache /\ r = None)
  \/ (exists e, cache !! pattern = Some (Locked e)
                /\ r = Some (explodeEntry getName pattern e)
                /\ cache' = <[pattern := Locked (explodeEntry getName pattern e)]> cache).
Proof.
  unfold getLocked_body.
  destruct (cache !! pattern) as [[q|e]|]; intros H; inversion H; subst; eauto.
Qed.

(** The bounded function and the relation describe the same runs. *)
Lemma run_returns (fuel : nat) (cache cache' : gmap string CacheValue)
  (pattern : string) (r : option Entry) :
  run fuel cache pattern = Some (cache', r) -> returns cache pattern cache' r.
Proof.
  revert pattern. induction fuel as [|fuel IH]; intros pattern; simpl; [discriminate|].
  destruct (body cache pattern) as [shrunk|c x] eqn:E.
  - intros H. eapply getLocked_alias; eauto.
  - intros H. inversion H; subst. now apply getLocked_done.
Qed.

Lemma returns_run (cache cache' : gmap string CacheValue) (pattern : string)
  (r : option Entry) :
  returns cache pattern cache' r ->
  exists fuel, run fuel cache pattern = Some (cache', r).
Proof.
  induction 1 as [pattern cache' r E | pattern shrunk cache' r E _ [fuel IH]].
  - exists 1%nat. simpl. now rewrite E.
  - exists (S fuel). simpl. now rewrite E.
Qed.

Lemma run_more (fuel : nat) (cache : gmap string CacheValue) (pattern : string) x :
  run fuel cache pattern = Some x -> run (S fuel) cache pattern = Some x.
Proof.
  revert pattern. induction fuel as [|fuel IH]; intros pattern; [discriminate|].
  intros H. simpl in H. change (run (S (S fuel)) cache pattern)
    with (match body cache pattern with
          | Continue shrunk => run (S fuel) cache shrunk
          | Return cache' r => Some (cache', r)
          end).
  destruct (body cache pattern); [now apply IH | exact H].
Qed.

(** A call returns only if the chain of aliases that starts at the
    pattern is well founded. *)
Lemma returns_Acc (cache cache' : gmap string CacheValue) (pattern : string)
  (r : option Entry) :
  returns cache pattern cache' r -> Acc (aliases cache) pattern.
Proof.
  induction 1 as [pattern cache' r E | pattern shrunk cache' r E _ IH].
  - constructor. intros q Hq. apply body_Continue in Hq. congruence.
  - constructor. intros q Hq. apply body_Continue in Hq.
    assert (q = shrunk) by congruence. now subst.
Qed.

(** C4, as the code has it: for every cache and every pattern from which
    the alias chain is well founded (it reaches, after finitely many
    aliases, an entry or a pattern that is not in the cache),
    [getLocked] returns, and it returns absence or an entry of the
    cache in its full form.  Nothing bounds or rejects a chain that
    runs into a cycle. *)
Theorem getLocked_returns_on_wellfounded_chain
  (cache : gmap string CacheValue) (pattern : string) :
  Acc (aliases cache) pattern ->
  exists fuel cache' r,
    getLocked getName fuel (Some cache) pattern = Some (Some cache', r)
    /\ returns cache pattern cache' r
    /\ (r = None
        \/ exists p e, cache !! p = Some (Locked e)
                       /\ r = Some (explodeEntry getName p e)).
Proof.
  induction 1 as [pattern _ IH].
  destruct (body cache pattern) as [shrunk|cache' r] eqn:E.
  - destruct (IH shrunk) as (fuel & cache' & r & Hrun & Hret & Hr).
    { now apply body_Continue. }
    exists (S fuel), cache', r. split; [|split].
    + unfold getLocked in *. simpl. rewrite E.
      destruct (run fuel cache shrunk) as [[c x]|]; [exact Hrun | discriminate].
    + eapply getLocked_alias; eauto.
    + exact Hr.
  - exists 1%nat, cache', r. split; [|split].
    + unfold getLocked. simpl. now rewrite E.
    + now apply getLocked_done.
    + apply body_Return in E as [(_ & _ & ->)|(e & He & -> & _)]; [now left|].
      right. eauto.
Qed.

(** On a chain that is not well founded no bound is enough. *)
Lemma getLocked_diverges (cache : gmap string CacheValue) (pattern : string) :
  ~ Acc (aliases cache) pattern ->
  forall fuel, getLocked getName fuel (Some cache) pattern = None.
Proof.
  intros HA fuel. unfold getLocked.
  destruct (run fuel cache pattern) as [[c r]|] eqn:E; [|reflexivity].
  exfalso. apply HA. eapply returns_Acc, run_returns, E.
Qed.

End WithGetName.

(** The two patterns of [cyclicCache] are not accessible. *)
Lemma cyclicCache_not_Acc (pattern : string) :
  Acc (aliases Examples.cyclicCache) pattern ->
  pattern <> "a@1" /\ pattern <> "b@1".
Proof.
  induction 1 as [pattern _ IH]. split; intros ->.
  - destruct (IH "b@1"); [reflexivity | congruence].
  - destruct (IH "a@1"); [reflexivity | congruence].
Qed.

(** C4, as stated, fails: on a cache in which [a@1] and [b@1] are aliases
    of each other the call [getLocked("a@1")] never returns, whatever the
    depth allowed to the recursion. *)
Lemma getLocked_cycle_does_not_return :
  (forall fuel,
     getLocked nameSegment fuel (Some Examples.cyclicCache) "a@1" = None)
  /\ ~ (exists cache' r,
          getLocked_returns nameSegment Examples.cyclicCache "a@1" cache' r).
Proof.
  split.
  - apply getLocked_diverges. intros H. now apply cyclicCache_not_Acc in H as [? _].
  - intros (cache' & r & H). apply returns_Acc, cyclicCache_not_Acc in H as [? _].
    congruence.
Qed.

(** The alias chain of [chainCache] from [a@1] ends in an entry. *)
Lemma getLocked_returns_on_chainCache :
  exists fuel cache' r,
    getLocked nameSegment fuel (Some Examples.chainCache) "a@1" = Some (Some cache', r)
    /\ getLocked_returns nameSegment Examples.chainCache "a@1" cache' r
    /\ (r = None
        \/ exists p e, Examples.chainCache !! p = Some (Locked e)
                       /\ r = Some (explodeEntry nameSegment p e)).
Proof.
  apply (getLocked_returns_on_wellfounded_chain nameSegment Examples.chainCache "a@1").
  constructor. intros q Hq. unfold aliases in Hq. vm_compute in Hq.
  injection Hq as <-.
  constructor. intros q Hq. unfold aliases in Hq. vm_compute in Hq.
  injection Hq as <-.
  constructor. intros q Hq. unfold aliases in Hq. vm_compute in Hq.
  discriminate Hq.
Defined.

End GetLockedProps.

(** ** Strings: [indexOf], [lastIndexOf] and [slice] *)

Module StringProps.

Import JS.

Lemma includes_eq (s p : string) :
  includes s p = startsWith s p || match s with
                                   | EmptyString => false
                                   | String _ s' => includes s' p
                                   end.
Proof. destruct s; reflexivity. Qed.

Lemma indexOf_from_eq (i : Z) (s p : string) :
  indexOf_from i s p =
    if startsWith s p then i
    else match s with
         | EmptyString => -1
         | String _ s' => indexOf_from (i + 1) s' p
         end.
Proof. destruct s; reflexivity. Qed.

Lemma append_nil_l (b : string) : "" +:+ b = b.
Proof. reflexivity. Qed.

Lemma append_String (c : ascii) (a b : string) :
  String c a +:+ b = String c (a +:+ b).
Proof. reflexivity. Qed.

Lemma append_assoc (a b c : string) : (a +:+ b) +:+ c = a +:+ (b +:+ c).
Proof.
induction a as [|x a IH]; [reflexivity|].
now rewrite !append_String, IH.
Qed.

Lemma len_nonneg (s : string) : 0 <= len s.
Proof. unfold len. lia. Qed.

Lemma len_String (c : ascii) (s : string) : len (String c s) = 1 + len s.
Proof. unfold len. simpl. lia. Qed.

Lemma len_app (a b : string) : len (a +:+ b) = len a + len b.
Proof.
induction a as [|c a IH].
- rewrite append_nil_l. unfold len. simpl. lia.
- rewrite append_String, !len_String, IH. lia.
Qed.

(** [indexOf] and [lastIndexOf] return [-1] exactly when the pattern does
    not occur, and an index from the start position on otherwise. *)
Lemma indexOf_from_range (i : Z) (s p : string) :
  0 <= i ->
  (indexOf_from i s p = -1 /\ includes s p = false)
  \/ (i <= indexOf_from i s p /\ includes s p = true).
Proof.
revert i. induction s as [|c s IH]; intros i Hi;
  rewrite indexOf_from_eq, includes_eq.
- destruct (startsWith "" p); [right|left]; split; auto; lia.
- destruct (startsWith (String c s) p).
  + right. split; auto; lia.
  + assert (Hi' : 0 <= i + 1) by lia.
    destruct (IH (i + 1) Hi') as [[-> ->]|[H ->]]; [left|right]; split; auto; lia.
Qed.

Lemma indexOf_absent (s p : string) : indexOf s p = -1 <-> includes s p = false.
Proof.
unfold indexOf.
destruct (indexOf_from_range 0 s p) as [[H1 H2]|[H1 H2]]; [lia | tauto |].
split; intros H; [lia | congruence].
Qed.

Lemma lastIndexOf_from_range (i : Z) (s p : string) :
  0 <= i ->
  (lastIndexOf_from i s p = -1 /\ includes s p = false)
  \/ (i <= lastIndexOf_from i s p /\ includes s p = true).
Proof.
revert i. induction s as [|c s IH]; intros i Hi; rewrite includes_eq;
  cbn [lastIndexOf_from].
- destruct (startsWith "" p); [right|left]; split; auto; lia.
- assert (Hi' : 0 <= i + 1) by lia.
  destruct (IH (i + 1) Hi') as [[-> ->]|[H ->]].
  + rewrite orb_false_r. change (0 <=? -1) with false. cbv iota.
    destruct (startsWith (String c s) p); [right|left]; split; auto; lia.
  + rewrite orb_true_r.
    destruct (0 <=? lastIndexOf_from (i + 1) s p) eqn:E.
    * right. split; auto; lia.
    * apply Z.leb_gt in E. lia.
Qed.

(** A one-character pattern. *)
Lemma startsWith_char (s : string) (c : ascii) :
  startsWith s (String c "") = match s with
                               | String x _ => Ascii.eqb c x
                               | EmptyString => false
                               end.
Proof.
destruct s as [|x s]; simpl; [reflexivity|].
now destruct s; rewrite andb_true_r.
Qed.

Lemma includes_char_String (x c : ascii) (s : string) :
  includes (String x s) (String c "") = Ascii.eqb c x || includes s (String c "").
Proof. rewrite includes_eq, startsWith_char. reflexivity. Qed.

Lemma includes_char_nil (c : ascii) : includes "" (String c "") = false.
Proof. reflexivity. Qed.

Lemma includes_app_char (a b : string) (c : ascii) :
  includes (a +:+ b) (String c "")
  = includes a (String c "") || includes b (String c "").
Proof.
induction a as [|x a IH].
- now rewrite append_nil_l, includes_char_nil.
- rewrite append_String, !includes_char_String, IH. now rewrite orb_assoc.
Qed.

(** The first occurrence of a character that does not occur before it. *)
Lemma indexOf_from_char (i : Z) (a b : string) (c : ascii) :
  includes a (String c "") = false ->
  indexOf_from i (a +:+ String c b) (String c "") = i + len a.
Proof.
revert i. induction a as [|x a IH]; intros i Ha.
- rewrite append_nil_l, indexOf_from_eq, startsWith_char, Ascii.eqb_refl.
  unfold len. simpl. lia.
- rewrite includes_char_String in Ha. apply orb_false_elim in Ha as [Hx Ha].
  rewrite append_String, indexOf_from_eq, startsWith_char, Hx, IH by assumption.
  rewrite len_String. lia.
Qed.

Lemma indexOf_char (a b : string) (c : ascii) :
  includes a (String c "") = false ->
  indexOf (a +:+ String c b) (String c "") = len a.
Proof. intros H. unfold indexOf. now rewrite indexOf_from_char. Qed.

(** The last occurrence of a character that does not occur after it. *)
Lemma lastIndexOf_from_char (i : Z) (a b : string) (c : ascii) :
  0 <= i ->
  includes b (String c "") = false ->
  lastIndexOf_from i (a +:+ String c b) (String c "") = i + len a.
Proof.
intros Hi Hb. revert i Hi. induction a as [|x a IH]; intros i Hi.
- rewrite append_nil_l. cbn [lastIndexOf_from].
  assert (Hi' : 0 <= i + 1) by lia.
  destruct (lastIndexOf_from_range (i + 1) b (String c "") Hi') as [[-> _]|[_ H]];
    [|congruence].
  change (0 <=? -1) with false. cbv iota.
  rewrite startsWith_char, Ascii.eqb_refl. unfold len. simpl. lia.
- rewrite append_String. cbn [lastIndexOf_from]. rewrite IH by lia.
  pose proof (len_nonneg a). rewrite len_String.
  destruct (0 <=? i + 1 + len a) eqn:E; [lia|]. apply Z.leb_gt in E. lia.
Qed.

Lemma lastIndexOf_char (a b : string) (c : ascii) :
  includes b (String c "") = false ->
  lastIndexOf (a +:+ String c b) (String c "") = len a.
Proof. intros H. unfold lastIndexOf. rewrite lastIndexOf_from_char; auto; lia. Qed.

(** [slice] and [slice_from] on a string split at a known position. *)
Lemma drop_app (a b : string) : drop (String.length a) (a +:+ b) = b.
Proof.
induction a as [|x a IH]; [now destruct b|].
rewrite append_String. exact IH.
Qed.

Lemma take_app (a b : string) : take (String.length a) (a +:+ b) = a.
Proof.
induction a as [|x a IH]; [reflexivity|].
rewrite append_String. simpl. now rewrite IH.
Qed.

Lemma clamp_in_range (s : string) (i : Z) :
  0 <= i <= len s -> clamp s i = Z.to_nat i.
Proof.
intros H. unfold clamp. destruct (i <? 0) eqn:E; [apply Z.ltb_lt in E; lia|].
f_equal. lia.
Qed.

Lemma slice_prefix (a b : string) : slice (a +:+ b) 0 (len a) = a.
Proof.
unfold slice. pose proof (len_nonneg a). pose proof (len_nonneg b).
rewrite !clamp_in_range by (rewrite len_app; lia).
change (Z.to_nat 0) with 0%nat. cbn [drop].
unfold len. rewrite Nat2Z.id, Nat.sub_0_r. apply take_app.
Qed.

Lemma slice_from_suffix (a b : string) (c : ascii) :
  slice_from (a +:+ String c b) (len a + 1) = b.
Proof.
unfold slice_from. pose proof (len_nonneg a). pose proof (len_nonneg b).
rewrite clamp_in_range by (rewrite len_app, len_String; lia).
replace (Z.to_nat (len a + 1)) with (String.length (a +:+ String c "")).
- replace (a +:+ String c b) with ((a +:+ String c "") +:+ b)
    by (now rewrite append_assoc, append_String, append_nil_l).
  apply drop_app.
- apply Nat2Z.inj. fold (len (a +:+ String c "")).
  rewrite len_app, len_String. unfold len at 2. simpl. lia.
Qed.

Lemma slice_after_first (x : ascii) (a b : string) :
  slice (String x (a +:+ b)) 1 (1 + len a) = a.
Proof.
unfold slice. pose proof (len_nonneg a). pose proof (len_nonneg b).
rewrite !clamp_in_range by (rewrite len_String, len_app; lia).
replace (Z.to_nat (1 + len a) - Z.to_nat 1)%nat with (String.length a)
  by (unfold len; lia).
change (Z.to_nat 1) with 1%nat. cbn [drop]. apply take_app.
Qed.

Lemma slice_from_after_first (x c : ascii) (a b : string) :
  slice_from (String x (a +:+ String c b)) (1 + len a + 1) = b.
Proof.
rewrite <- append_String, <- (len_String x). apply slice_from_suffix.
Qed.

Lemma startsWith_nil (s : string) : startsWith s "" = true.
Proof. now destruct s. Qed.

(** An occurrence of [.tgz] in [u.tgz] that starts inside a non-empty [u]
    lies inside [u]: no proper suffix of [u] followed by a dot is a prefix
    of [.tgz]. *)
Lemma startsWith_tgz_inside (u : string) :
  u <> "" ->
  startsWith u ".tgz" = false ->
  startsWith (u +:+ ".tgz") ".tgz" = false.
Proof.
intros Hu H.
destruct u as [|c1 [|c2 [|c3 [|c4 u]]]]; [congruence| | | |];
  rewrite ?append_String, ?append_nil_l.
- cbn [startsWith]. destruct (Ascii.eqb "." c1); reflexivity.
- cbn [startsWith]. destruct (Ascii.eqb "." c1), (Ascii.eqb "t" c2); reflexivity.
- cbn [startsWith].
  destruct (Ascii.eqb "." c1), (Ascii.eqb "t" c2), (Ascii.eqb "g" c3); reflexivity.
- cbn [startsWith] in H |- *. rewrite startsWith_nil in *. exact H.
Qed.

Lemma indexOf_from_tgz (i : Z) (uid : string) :
  includes uid ".tgz" = false ->
  indexOf_from i (uid +:+ ".tgz") ".tgz" = i + len uid.
Proof.
revert i. induction uid as [|x u IH]; intros i H.
- rewrite append_nil_l. unfold len. simpl. lia.
- rewrite includes_eq in H. apply orb_false_elim in H as [H1 H2].
  rewrite indexOf_from_eq, startsWith_tgz_inside by (assumption || discriminate).
  rewrite append_String, IH by assumption. rewrite len_String. lia.
Qed.

Lemma indexOf_tgz (uid : string) :
  includes uid ".tgz" = false ->
  indexOf (uid +:+ ".tgz") ".tgz" = len uid.
Proof. intros H. unfold indexOf. now rewrite indexOf_from_tgz. Qed.

End StringProps.

(** ** Resolved references: [parseReference] *)

Module ReferenceProps.

Import JS StringProps OpamResolver.

Lemma invariant_len (s msg : string) : invariant (-1 <? len s) msg = ret tt.
Proof.
unfold invariant. pose proof (len_nonneg s).
destruct (-1 <? len s) eqn:E; [reflexivity|]. apply Z.ltb_ge in E. lia.
Qed.

(** The part of [parseReference] after the scope, on [name@version-uid.tgz]. *)
Lemma parse_unscoped (name version uid : string) :
  includes name "@" = false ->
  includes uid "-" = false ->
  includes uid ".tgz" = false ->
  let value := name +:+ String "@" (version +:+ String "-" (uid +:+ ".tgz")) in
  indexOf value "@" = len name
  /\ slice value 0 (len name) = name
  /\ let value := slice_from value (len name + 1) in
     lastIndexOf value "-" = len version
     /\ slice value 0 (len version) = version
     /\ let value := slice_from value (len version + 1) in
        indexOf value ".tgz" = len uid
        /\ slice value 0 (len uid) = uid.
Proof.
intros Hn Hu Ht. cbv zeta.
rewrite indexOf_char, slice_prefix, slice_from_suffix by assumption.
rewrite lastIndexOf_char, slice_prefix, slice_from_suffix
  by (rewrite includes_app_char, Hu; reflexivity).
rewrite indexOf_tgz, slice_prefix by assumption.
repeat split.
Qed.

Lemma resolvedOf_eq (name version uid : string) :
  resolvedOf name version uid
  = name +:+ String "@" (version +:+ String "-" (uid +:+ ".tgz")).
Proof. reflexivity. Qed.

(** C9, as the code has it: the string built by [resolve] from a scope
    without [/], a name without [@] (not empty when there is no scope), any
    version, and a uid that contains neither [-] nor [.tgz], is parsed back
    by [parseReference] into exactly these components.  The version may
    contain [-]. *)
Theorem parseReference_resolvedOf (scope : option string) (name version uid : string) :
  (forall s, scope = Some s -> indexOf s "/" = -1) ->
  (scope = None -> name <> "") ->
  indexOf name "@" = -1 ->
  indexOf uid "-" = -1 ->
  indexOf uid ".tgz" = -1 ->
  parseReference (resolvedOf (fullNameOf scope name) version uid)
  = ret {| name := name;
           fullName := fullNameOf scope name;
           scope := scope;
           ref_version := version;
           uid := uid |}.
Proof.
intros Hs Hne Hn Hu Ht.
apply indexOf_absent in Hn, Hu, Ht.
destruct (parse_unscoped name version uid Hn Hu Ht) as (E1 & E2 & E3 & E4 & E5 & E6).
cbv zeta in *.
destruct scope as [s|]; unfold parseReference, fullNameOf.
- specialize (Hs s eq_refl). apply indexOf_absent in Hs.
  rewrite resolvedOf_eq.
  set (rest := version +:+ String "-" (uid +:+ ".tgz")) in *.
  replace (("@" +:+ s +:+ "/" +:+ name) +:+ String "@" rest)
    with (String "@" (s +:+ String "/" (name +:+ String "@" rest)))
    by (rewrite append_String, append_nil_l, append_String, !append_assoc;
        reflexivity).
  cbn [first]. destruct (decide (Some "@"%char = Some "@"%char)); [|congruence].
  assert (Hi : indexOf (String "@" (s +:+ String "/" (name +:+ String "@" rest))) "/"
               = 1 + len s).
  { rewrite <- append_String, indexOf_char, len_String; [reflexivity|].
    rewrite includes_char_String, Hs. reflexivity. }
  rewrite Hi, slice_after_first, slice_from_after_first.
  replace (-1 <? 1 + len s) with true
    by (symmetry; apply Z.ltb_lt; pose proof (len_nonneg s); lia).
  cbn [invariant bind ret].
  rewrite E1, invariant_len. cbn [bind ret].
  rewrite E2, E3, invariant_len. cbn [bind ret].
  rewrite E4, E5, invariant_len. cbn [bind ret].
  rewrite E6. reflexivity.
- rewrite resolvedOf_eq.
  set (rest := version +:+ String "-" (uid +:+ ".tgz")) in *.
  destruct name as [|x name]; [now specialize (Hne eq_refl)|].
  rewrite includes_char_String in Hn. apply orb_false_elim in Hn as [Hx _].
  rewrite append_String. cbn [first]. rewrite <- append_String.
  destruct (decide (Some x = Some "@"%char)) as [Heq|_].
  { injection Heq as ->. now rewrite Ascii.eqb_refl in Hx. }
  cbn [bind ret].
  rewrite E1, invariant_len. cbn [bind ret].
  rewrite E2, E3, invariant_len. cbn [bind ret].
  rewrite E4, E5, invariant_len. cbn [bind ret].
  rewrite E6. reflexivity.
Qed.

(** The scoped reference of the spec, [@scope/foo@1.2.3-abc.tgz]. *)
Lemma parseReference_scoped_example :
  parseReference (resolvedOf (fullNameOf (Some "scope") "foo") "1.2.3" "abc")
  = ret {| name := "foo";
           fullName := fullNameOf (Some "scope") "foo";
           scope := Some "scope";
           ref_version := "1.2.3";
           uid := "abc" |}.
Proof.
apply (parseReference_resolvedOf (Some "scope") "foo" "1.2.3" "abc").
- intros s H. injection H as <-. reflexivity.
- intros H. discriminate H.
- reflexivity.
- reflexivity.
- reflexivity.
Defined.

(** C9, as stated, fails: a uid that contains [-] is split, the part before
    its last [-] goes to the version. *)
Lemma parseReference_uid_with_dash :
  resolvedOf (fullNameOf None "foo") "1.2.3" "a-b" = "foo@1.2.3-a-b.tgz"
  /\ parseReference (resolvedOf (fullNameOf None "foo") "1.2.3" "a-b")
     = ret {| name := "foo"; fullName := "foo"; scope := None;
              ref_version := "1.2.3-a"; uid := "b" |}
  /\ parseReference (resolvedOf (fullNameOf None "foo") "1.2.3" "a-b")
     <> ret {| name := "foo"; fullName := "foo"; scope := None;
               ref_version := "1.2.3"; uid := "a-b" |}.
Proof.
split; [reflexivity|]. split; [reflexivity|]. intros H. vm_compute in H. discriminate H.
Qed.

End ReferenceProps.

(** ** Outdated lock entries: [isLockfileEntryOutdated] *)

Module OutdatedProps.

Import OpamResolver.

(** C7, as the code has it: for every lock entry whose [resolved] is absent
    or is not parsed by [parseReference], [isLockfileEntryOutdated] returns
    [false], whatever the requested range and the compiler version: the
    entry is not reported as outdated, and the constraint is not looked
    at. *)
Theorem isLockfileEntryOutdated_invalid_reference
  (OPAM_SCOPE : string)
  (semver_parse : string -> option SemVer.t)
  (semver_prerelease : string -> option (list string))
  (semver_satisfies : SemVer.t -> string -> bool)
  (semver_satisfies_string : string -> string -> JS.result bool)
  (versionCompare : string -> string -> Z)
  (ocamlVersion : option string) (lockfileEntry : Lockfile.Entry)
  (versionRange : string) (hasVersion : bool) :
  isValidReference (Lockfile.resolved lockfileEntry) = false ->
  isLockfileEntryOutdated OPAM_SCOPE semver_parse semver_prerelease
    semver_satisfies semver_satisfies_string versionCompare
    ocamlVersion lockfileEntry versionRange hasVersion
  = JS.ret false.
Proof. intros H. unfold isLockfileEntryOutdated. now rewrite H. Qed.

Lemma isLockfileEntryOutdated_malformedEntry :
  isValidReference (Lockfile.resolved Examples.malformedEntry) = false
  /\ Examples.isLockfileEntryOutdated (Some "4.6.0") Examples.malformedEntry ">=2.0.0" true
     = JS.ret false.
Proof.
split; [reflexivity|].
apply (isLockfileEntryOutdated_invalid_reference "opam" Sample.parse
         Sample.prerelease Sample.satisfies Sample.satisfies_string
         Sample.versionCompare (Some "4.6.0") Examples.malformedEntry ">=2.0.0" true).
reflexivity.
Defined.

(** With a well-formed [resolved] the same entry is reported as outdated
    for a range its version does not satisfy. *)
Example isLockfileEntryOutdated_wellFormedEntry :
  Examples.isLockfileEntryOutdated (Some "4.6.0") Examples.wellFormedEntry ">=2.0.0" true
  = JS.ret true.
Proof. reflexivity. Qed.

(** C7, as stated, fails: an entry without [resolved], and an entry whose
    [resolved] lacks the [-uid.tgz] part, are not reported as outdated. *)
Lemma isLockfileEntryOutdated_not_true :
  (isValidReference (Lockfile.resolved Examples.unresolvedEntry) = false
   /\ Examples.isLockfileEntryOutdated (Some "4.6.0") Examples.unresolvedEntry ">=2.0.0" true
      <> JS.ret true)
  /\ (isValidReference (Lockfile.resolved Examples.malformedEntry) = false
      /\ Examples.isLockfileEntryOutdated (Some "4.6.0") Examples.malformedEntry ">=2.0.0" true
         <> JS.ret true).
Proof. repeat split; intros H; vm_compute in H; discriminate H. Qed.

End OutdatedProps.

(** ** Sorting: [Array.prototype.sort] and [sortAlpha] *)

Module SortProps.

Section Sort.

Context {A : Type} (cmp : A -> A -> Z).

#[local] Abbreviation before := (JS.before cmp).

Lemma sort_insert_Permutation (x : A) (l : list A) :
  JS.sort_insert cmp x l ≡ₚ x :: l.
Proof.
induction l as [|y l IH]; simpl; [reflexivity|].
destruct (cmp x y <=? 0); [reflexivity|].
rewrite IH. apply perm_swap.
Qed.

Lemma sort_Permutation (l : list A) : JS.sort cmp l ≡ₚ l.
Proof.
induction l as [|x l IH]; simpl; [reflexivity|].
now rewrite sort_insert_Permutation, IH.
Qed.

Hypothesis cmp_total : forall x y, cmp x y <= 0 \/ cmp y x <= 0.

Lemma sort_insert_HdRel (z x : A) (l : list A) :
  before z x -> HdRel before z l -> HdRel before z (JS.sort_insert cmp x l).
Proof.
intros Hzx Hl. destruct l as [|y l]; simpl.
- now constructor.
- destruct (cmp x y <=? 0); constructor; [assumption|]. now inversion Hl.
Qed.

Lemma sort_insert_Sorted (x : A) (l : list A) :
  Sorted before l -> Sorted before (JS.sort_insert cmp x l).
Proof.
induction 1 as [|y l Hl IH Hy]; simpl.
- repeat constructor.
- destruct (cmp x y <=? 0) eqn:E.
  + apply Z.leb_le in E. repeat constructor; assumption.
  + apply Z.leb_gt in E. constructor; [exact IH|].
    apply sort_insert_HdRel; [|exact Hy].
    unfold JS.before. destruct (cmp_total x y); lia.
Qed.

Lemma sort_Sorted (l : list A) : Sorted before (JS.sort cmp l).
Proof.
induction l as [|x l IH]; simpl; [constructor|].
now apply sort_insert_Sorted.
Qed.

Hypothesis cmp_trans : forall x y z, cmp x y <= 0 -> cmp y z <= 0 -> cmp x z <= 0.

(** In a sorted array every element may stay in front of the ones behind
    it. *)
Lemma sort_StronglySorted (l : list A) : StronglySorted before (JS.sort cmp l).
Proof.
apply Sorted.Sorted_StronglySorted; [|apply sort_Sorted].
intros x y z. apply cmp_trans.
Qed.

Hypothesis cmp_antisym : forall x y, cmp x y <= 0 -> cmp y x <= 0 -> x = y.

(** Under a total order the sorted array does not depend on the order of
    the input. *)
Lemma sort_unique (l1 l2 : list A) :
  l1 ≡ₚ l2 -> JS.sort cmp l1 = JS.sort cmp l2.
Proof.
intros Hp.
apply (StronglySorted_unique_strong (JS.before cmp)).
- intros x y _ _. apply cmp_antisym.
- apply sort_StronglySorted.
- apply sort_StronglySorted.
- now rewrite !sort_Permutation.
Qed.

End Sort.

(** [sortAlpha] is a total order on strings. *)
Lemma charCode_inj (x y : ascii) : JS.charCode x = JS.charCode y -> x = y.
Proof.
unfold JS.charCode. intros H. apply N2Z.inj in H.
rewrite <- (ascii_N_embedding x), <- (ascii_N_embedding y). now rewrite H.
Qed.

Lemma len_nil : JS.len "" = 0.
Proof. reflexivity. Qed.

Ltac sortAlpha_lengths :=
  cbn [sortAlpha]; rewrite ?StringProps.len_String, ?len_nil;
  repeat match goal with
         | |- context [JS.len ?s] =>
             lazymatch goal with
             | _ : 0 <= JS.len s |- _ => fail
             | _ => pose proof (StringProps.len_nonneg s)
             end
         end.

Lemma sortAlpha_skew (a b : string) : sortAlpha b a = - sortAlpha a b.
Proof.
revert b. induction a as [|x a IH]; intros [|y b]; sortAlpha_lengths; try lia.
rewrite (Z.eqb_sym (JS.charCode y)).
destruct (Z.eqb_spec (JS.charCode x) (JS.charCode y)); [apply IH | lia].
Qed.

Lemma sortAlpha_total (a b : string) : sortAlpha a b <= 0 \/ sortAlpha b a <= 0.
Proof. rewrite (sortAlpha_skew a b). lia. Qed.

Lemma sortAlpha_zero (a b : string) : sortAlpha a b = 0 -> a = b.
Proof.
revert b. induction a as [|x a IH]; intros [|y b]; sortAlpha_lengths;
  try reflexivity; try lia.
destruct (Z.eqb_spec (JS.charCode x) (JS.charCode y)) as [E|E]; [|lia].
intros H. apply charCode_inj in E. apply IH in H. now subst.
Qed.

Lemma sortAlpha_antisym (a b : string) :
  sortAlpha a b <= 0 -> sortAlpha b a <= 0 -> a = b.
Proof. rewrite (sortAlpha_skew a b). intros H1 H2. apply sortAlpha_zero. lia. Qed.

Lemma sortAlpha_trans (a b c : string) :
  sortAlpha a b <= 0 -> sortAlpha b c <= 0 -> sortAlpha a c <= 0.
Proof.
revert b c. induction a as [|x a IH]; intros [|y b] [|z c]; sortAlpha_lengths;
  try lia.
destruct (Z.eqb_spec (JS.charCode x) (JS.charCode y)) as [Exy|Exy],
         (Z.eqb_spec (JS.charCode y) (JS.charCode z)) as [Eyz|Eyz],
         (Z.eqb_spec (JS.charCode x) (JS.charCode z)) as [Exz|Exz];
  try lia.
apply IH.
Qed.

(** The sorted keys of an object do not depend on the order in which the
    keys were inserted. *)
Lemma sort_sortAlpha_unique (l1 l2 : list string) :
  l1 ≡ₚ l2 -> JS.sort sortAlpha l1 = JS.sort sortAlpha l2.
Proof.
apply sort_unique.
- apply sortAlpha_total.
- apply sortAlpha_trans.
- apply sortAlpha_antisym.
Qed.

End SortProps.

(** ** Objects as association lists *)

Module ObjectProps.

Section Object.

Context {V : Type}.
Implicit Types (o : list (string * V)) (k : string) (v : V).

Lemma get_In o k v : JS.get o k = Some v -> In (k, v) o.
Proof.
induction o as [|[k' v'] o IH]; simpl; [discriminate|].
destruct (String.eqb_spec k' k) as [->|_].
- intros H. injection H as ->. now left.
- intros H. right. now apply IH.
Qed.

Lemma get_None o k : JS.get o k = None <-> ~ In k (JS.keys o).
Proof.
induction o as [|[k' v'] o IH]; simpl; [tauto|].
destruct (String.eqb_spec k' k) as [->|Hne].
- split; [discriminate | tauto].
- rewrite IH. tauto.
Qed.

Lemma In_keys o k v : In (k, v) o -> In k (JS.keys o).
Proof. intros H. apply (in_map fst) in H. exact H. Qed.

Lemma get_of_In o k v : NoDup (JS.keys o) -> In (k, v) o -> JS.get o k = Some v.
Proof.
induction o as [|[k' v'] o IH]; simpl; [tauto|].
intros Hnd [H|H]; apply NoDup_cons in Hnd as [Hk Hnd].
- injection H as -> ->. now rewrite String.eqb_refl.
- destruct (String.eqb_spec k' k) as [->|_]; [|now apply IH].
  exfalso. apply Hk. apply list_elem_of_In. eapply In_keys, H.
Qed.

Lemma keys_Permutation o1 o2 : o1 ≡ₚ o2 -> JS.keys o1 ≡ₚ JS.keys o2.
Proof. intros H. unfold JS.keys. now rewrite H. Qed.

(** Reading an object does not depend on the order in which its keys were
    inserted. *)
Lemma get_Permutation o1 o2 k :
  NoDup (JS.keys o1) -> o1 ≡ₚ o2 -> JS.get o1 k = JS.get o2 k.
Proof.
intros Hnd Hp.
assert (Hnd2 : NoDup (JS.keys o2)) by now rewrite <- (keys_Permutation _ _ Hp).
destruct (JS.get o1 k) as [v|] eqn:E1.
- symmetry. apply get_of_In; [assumption|].
  eapply Permutation_in; [exact Hp|]. now apply get_In.
- destruct (JS.get o2 k) as [v|] eqn:E2; [|reflexivity].
  apply get_In in E2. apply Permutation_sym in Hp.
  apply (Permutation_in _ Hp), (get_of_In _ _ _ Hnd) in E2. congruence.
Qed.

Lemma get_set o k v k' :
  JS.get (JS.set o k v) k' = if String.eqb k k' then Some v else JS.get o k'.
Proof.
induction o as [|[k0 v0] o IH]; simpl.
- reflexivity.
- destruct (String.eqb_spec k0 k) as [->|Hne]; simpl.
  + destruct (String.eqb_spec k k'); reflexivity.
  + rewrite IH. destruct (String.eqb_spec k0 k') as [->|_]; [|reflexivity].
    destruct (String.eqb_spec k k'); [congruence | reflexivity].
Qed.

(** Setting a property that the object does not have appends its key. *)
Lemma keys_set_fresh o k v :
  ~ In k (JS.keys o) -> JS.keys (JS.set o k v) = JS.keys o ++ [k].
Proof.
induction o as [|[k0 v0] o IH]; simpl; [reflexivity|].
intros H. destruct (String.eqb_spec k0 k) as [->|_]; [tauto|].
simpl. f_equal. apply IH. tauto.
Qed.

End Object.

End ObjectProps.

(** ** Building the lockfile: [getLockfile] *)

Module GetLockfileProps.

Import Lockfile ObjectProps SortProps.

Lemma set_name_set_name (n n' : string) (e : Entry) :
  set_name n (set_name n' e) = set_name n e.
Proof. reflexivity. Qed.

(** The loop reads the map of package records through its bindings only. *)
Lemma loop_ext (getName : string -> string)
  (patterns1 patterns2 : list (string * Pkg.Manifest)) :
  (forall k, JS.get patterns1 k = JS.get patterns2 k) ->
  forall l st,
    getLockfile_loop getName patterns1 st l = getLockfile_loop getName patterns2 st l.
Proof.
intros Hg l. induction l as [|p l IH]; intros st; cbn [getLockfile_loop]; [reflexivity|].
assert (E : getLockfile_body getName patterns1 st p
            = getLockfile_body getName patterns2 st p).
{ unfold getLockfile_body. now rewrite Hg. }
rewrite E. destruct (getLockfile_body getName patterns2 st p); cbn [JS.bind]; auto.
Qed.

Section WithPatterns.

Variable getName : string -> string.
Variable patterns : list (string * Pkg.Manifest).

#[local] Abbreviation keyed := (keyOf patterns).
#[local] Abbreviation inv := (Inv getName patterns).

Lemma keyed_functional (p k k' : string) : keyed p k -> keyed p k' -> k = k'.
Proof. intros (pkg & r & H1 & H2 & H3) (pkg' & r' & H1' & H2' & H3'). congruence. Qed.

Lemma Inv_init : inv [] {| lockfile := []; seen := ∅; heap := [] |}.
Proof.
constructor; simpl; try (intros; simplify_map_eq; fail); try easy.
Qed.

(** A pattern whose remote identity key was seen becomes another key of the
    entry of that key, and may give the entry its name. *)
Lemma body_alias (done : list string) (st : Build) (p : string)
  (pkg : Pkg.Manifest) (ref : Pkg.PackageReference) (remote : Pkg.PackageRemote)
  (k : string) (l : nat) :
  inv done st -> ~ In p done ->
  JS.get patterns p = Some pkg ->
  Pkg._reference pkg = Some ref ->
  Pkg._remote pkg = Some remote ->
  keyForRemote remote = Some k ->
  seen st !! k = Some l ->
  exists st',
    getLockfile_body getName patterns st p = JS.ret st' /\ inv (done ++ [p]) st'.
Proof.
intros HI Hp Hg Href Hrem Hk Hs.
assert (Hl : (l < length (heap st))%nat) by (eapply inv_seen; eauto).
destruct (lookup_lt_is_Some_2 _ _ Hl) as [e He].
assert (Hkey : keyed p k) by (exists pkg, remote; auto).
set (cond := negb (JS.truthy (name e))
             && negb (String.eqb (getName p) (Pkg.name pkg))).
set (e' := if cond then set_name (Pkg.name pkg) e else e).
set (heap' := if cond then <[l := set_name (Pkg.name pkg) e]> (heap st) else heap st).
assert (Hlen : length heap' = length (heap st)).
{ unfold heap'. destruct cond; [apply length_insert | reflexivity]. }
assert (Hsame : heap' !! l = Some e').
{ unfold heap', e'. destruct cond; [now apply list_lookup_insert_eq | exact He]. }
assert (Hother : forall l', l' <> l -> heap' !! l' = heap st !! l').
{ intros l' Hne. unfold heap'. destruct cond; [|reflexivity].
  apply list_lookup_insert_ne. congruence. }
exists {| lockfile := JS.set (lockfile st) p l; seen := seen st; heap := heap' |}.
split.
{ unfold getLockfile_body. rewrite Hg. cbn [JS.bind JS.ret]. rewrite Href, Hrem.
  cbn [JS.bind JS.ret]. rewrite Hk, Hs, He. reflexivity. }
constructor; cbn [lockfile seen heap].
- rewrite keys_set_fresh by (rewrite (inv_keys _ _ _ _ HI); exact Hp).
  now rewrite (inv_keys _ _ _ _ HI).
- intros p' l'. rewrite get_set, Hlen. destruct (String.eqb_spec p p') as [_|_].
  + intros H. injection H as <-. exact Hl.
  + apply (inv_bound _ _ _ _ HI).
- intros k' l'. rewrite Hlen. apply (inv_seen _ _ _ _ HI).
- apply (inv_inj _ _ _ _ HI).
- intros p' k' Hin Hkey'. rewrite get_set.
  apply in_app_or in Hin as [Hin|[<-|[]]].
  + destruct (String.eqb_spec p p') as [->|_]; [contradiction|].
    now apply (inv_shared _ _ _ _ HI).
  + rewrite String.eqb_refl. rewrite (keyed_functional _ _ _ Hkey' Hkey). eauto.
- intros k' l' Hs'.
  destruct (inv_owner _ _ _ _ HI _ _ Hs')
    as (p0 & pkg0 & ref0 & r0 & e0 & d1 & d2 & Hd & Hd1 & G1 & G2 & G3 & G4 & G5 & G6).
  destruct (decide (l' = l)) as [->|Hne].
  + exists p0, pkg0, ref0, r0, e', d1, (d2 ++ [p]).
    repeat split; auto.
    * rewrite Hd, <- app_assoc. reflexivity.
    * assert (e0 = e) by congruence. subst e0. unfold e'.
      destruct cond; [|exact G6]. right.
      destruct G6 as [->|[n ->]]; eauto.
  + exists p0, pkg0, ref0, r0, e0, d1, (d2 ++ [p]).
    repeat split; auto.
    * rewrite Hd, <- app_assoc. reflexivity.
    * now rewrite Hother.
- intros k' l' n Hs' Hn.
  destruct (inv_name _ _ _ _ HI _ _ _ Hs' Hn) as (e0 & He0 & Hname).
  destruct (decide (l' = l)) as [->|Hne].
  + assert (k' = k) by (eapply inv_inj; eauto). subst k'.
    assert (e0 = e) by congruence. subst e0.
    assert (Hpn : Pkg.name pkg = n) by (eapply Hn; eauto).
    exists e'. split; [exact Hsame|]. unfold e', cond. rewrite Hpn.
    destruct Hname as [[Hnone Hall]|[Hsome (q & Hq1 & Hq2 & Hq3)]].
    * rewrite Hnone. cbn [JS.truthy negb andb].
      destruct (String.eqb_spec (getName p) n) as [Heq|Hneq]; cbn [negb].
      -- left. split; [exact Hnone|]. intros q Hq Hqk.
         apply in_app_or in Hq as [Hq|[<-|[]]]; auto.
      -- right. split; [reflexivity|]. exists p. split; [|auto].
         apply in_or_app. right. now left.
    * right. split.
      -- destruct (negb (JS.truthy (name e)) && negb (String.eqb (getName p) n));
           [reflexivity | exact Hsome].
      -- exists q. split; [|auto]. apply in_or_app. now left.
  + exists e0. split; [now rewrite Hother|].
    destruct Hname as [[Hnone Hall]|[Hsome (q & Hq1 & Hq2 & Hq3)]].
    * left. split; [exact Hnone|]. intros q Hq Hqk.
      apply in_app_or in Hq as [Hq|[<-|[]]]; auto.
      exfalso. apply Hne. rewrite (keyed_functional _ _ _ Hqk Hkey) in Hs'. congruence.
    * right. split; [exact Hsome|]. exists q. split; [|auto].
      apply in_or_app. now left.
Qed.

(** A pattern whose remote identity key was not seen, or that has none,
    gets an entry of its own. *)
Lemma body_new (done : list string) (st : Build) (p : string)
  (pkg : Pkg.Manifest) (ref : Pkg.PackageReference) (remote : Pkg.PackageRemote) :
  inv done st -> ~ In p done ->
  JS.get patterns p = Some pkg ->
  Pkg._reference pkg = Some ref ->
  Pkg._remote pkg = Some remote ->
  (forall k, keyForRemote remote = Some k -> seen st !! k = None) ->
  exists st',
    getLockfile_body getName patterns st p = JS.ret st' /\ inv (done ++ [p]) st'.
Proof.
intros HI Hp Hg Href Hrem Hfresh.
set (l := length (heap st)).
set (obj := implodeEntry getName p (fullEntryOf pkg ref remote)).
set (seen' := match keyForRemote remote with
              | Some k => <[k := l]> (seen st)
              | None => seen st
              end).
assert (Hold : forall k' l', seen st !! k' = Some l' -> seen' !! k' = Some l').
{ intros k' l' H. unfold seen'. destruct (keyForRemote remote) as [k|] eqn:Ek; [|exact H].
  rewrite lookup_insert_ne; [exact H|]. intros ->. rewrite (Hfresh _ eq_refl) in H.
  discriminate H. }
assert (Hnew : forall k' l', seen' !! k' = Some l' ->
          seen st !! k' = Some l' \/ (keyForRemote remote = Some k' /\ l' = l)).
{ intros k' l'. unfold seen'. destruct (keyForRemote remote) as [k|] eqn:Ek; [|auto].
  destruct (decide (k = k')) as [->|Hne].
  - rewrite lookup_insert_eq. intros H. injection H as <-. auto.
  - rewrite lookup_insert_ne by exact Hne. auto. }
assert (Hkeyed : forall k', keyed p k' <-> keyForRemote remote = Some k').
{ intros k'. split.
  - intros (pkg' & r' & H1 & H2 & H3). congruence.
  - intros H. exists pkg, remote. auto. }
assert (Hnone : forall q k', In q done -> keyed q k' -> keyForRemote remote <> Some k').
{ intros q k' Hq Hqk Hk'.
  destruct (inv_shared _ _ _ _ HI _ _ Hq Hqk) as (l' & Hl' & _).
  rewrite (Hfresh _ Hk') in Hl'. discriminate Hl'. }
assert (Hheap : forall l' e, heap st !! l' = Some e -> (heap st ++ [obj]) !! l' = Some e).
{ intros l' e H. rewrite lookup_app_l; [exact H|]. eapply lookup_lt_Some, H. }
assert (Hobj : (heap st ++ [obj]) !! l = Some obj) by now apply list_lookup_middle.
exists {| lockfile := JS.set (lockfile st) p l; seen := seen'; heap := heap st ++ [obj] |}.
split.
{ unfold getLockfile_body. rewrite Hg. cbn [JS.bind JS.ret]. rewrite Href, Hrem.
  cbn [JS.bind JS.ret]. fold obj l.
  destruct (keyForRemote remote) as [k|] eqn:Ek; [|reflexivity].
  now rewrite (Hfresh _ eq_refl). }
constructor; cbn [lockfile seen heap].
- rewrite keys_set_fresh by (rewrite (inv_keys _ _ _ _ HI); exact Hp).
  now rewrite (inv_keys _ _ _ _ HI).
- intros p' l'. rewrite get_set, length_app. cbn [length].
  destruct (String.eqb_spec p p') as [_|_].
  + intros H. injection H as <-. unfold l. lia.
  + intros H. apply (inv_bound _ _ _ _ HI) in H. lia.
- intros k' l' H. rewrite length_app. cbn [length].
  apply Hnew in H as [H|[_ ->]]; [|unfold l; lia].
  apply (inv_seen _ _ _ _ HI) in H. lia.
- intros k1 k2 l' H1 H2.
  apply Hnew in H1 as [H1|[H1 E1]], H2 as [H2|[H2 E2]].
  + eapply inv_inj; eauto.
  + apply (inv_seen _ _ _ _ HI) in H1. unfold l in E2. lia.
  + apply (inv_seen _ _ _ _ HI) in H2. unfold l in E1. lia.
  + congruence.
- intros p' k' Hin Hkey'. rewrite get_set.
  apply in_app_or in Hin as [Hin|[<-|[]]].
  + destruct (String.eqb_spec p p') as [->|_]; [contradiction|].
    destruct (inv_shared _ _ _ _ HI _ _ Hin Hkey') as (l' & H1 & H2). eauto.
  + rewrite String.eqb_refl. exists l. split; [|reflexivity].
    apply Hkeyed in Hkey'. unfold seen'. rewrite Hkey'. apply lookup_insert_eq.
- intros k' l' H. apply Hnew in H as [H|[H ->]].
  + destruct (inv_owner _ _ _ _ HI _ _ H)
      as (p0 & pkg0 & ref0 & r0 & e0 & d1 & d2 & Hd & Hd1 & G1 & G2 & G3 & G4 & G5 & G6).
    exists p0, pkg0, ref0, r0, e0, d1, (d2 ++ [p]).
    repeat split; auto. rewrite Hd, <- app_assoc. reflexivity.
  + exists p, pkg, ref, remote, obj, done, [].
    repeat split; auto. intros q Hq Hqk. eapply Hnone; eauto.
- intros k' l' n H Hn. apply Hnew in H as [H|[H ->]].
  + destruct (inv_name _ _ _ _ HI _ _ _ H Hn) as (e0 & He0 & Hname).
    exists e0. split; [auto|].
    destruct Hname as [[Hnm Hall]|[Hsome (q & Hq1 & Hq2 & Hq3)]].
    * left. split; [exact Hnm|]. intros q Hq Hqk.
      apply in_app_or in Hq as [Hq|[<-|[]]]; auto.
      apply Hkeyed in Hqk. rewrite (Hfresh _ Hqk) in H. discriminate H.
    * right. split; [exact Hsome|]. exists q. split; [|auto].
      apply in_or_app. now left.
  + exists obj. split; [exact Hobj|].
    assert (Hpn : Pkg.name pkg = n) by (eapply Hn; eauto).
    unfold obj, implodeEntry. cbn [name fullEntryOf]. rewrite Hpn.
    destruct (decide (Some n = Some (getName p))) as [Heq|Hneq].
    * left. split; [reflexivity|]. intros q Hq Hqk.
      apply in_app_or in Hq as [Hq|[<-|[]]]; [|congruence].
      exfalso. eapply Hnone; eauto.
    * right. split; [reflexivity|]. exists p. split; [|split].
      -- apply in_or_app. right. now left.
      -- now apply Hkeyed.
      -- congruence.
Qed.

(** One turn of the loop, for a pattern that has a complete package
    record. *)
Lemma body_Inv (done : list string) (st : Build) (p : string)
  (pkg : Pkg.Manifest) (ref : Pkg.PackageReference) (remote : Pkg.PackageRemote) :
  inv done st -> ~ In p done ->
  JS.get patterns p = Some pkg ->
  Pkg._reference pkg = Some ref ->
  Pkg._remote pkg = Some remote ->
  exists st',
    getLockfile_body getName patterns st p = JS.ret st' /\ inv (done ++ [p]) st'.
Proof.
intros HI Hp Hg Href Hrem.
destruct (keyForRemote remote) as [k|] eqn:Ek.
- destruct (seen st !! k) as [l|] eqn:Es.
  + eapply body_alias; eauto.
  + eapply body_new; eauto. intros k' Hk'. congruence.
- eapply body_new; eauto. intros k' Hk'. congruence.
Qed.

(** The loop, for patterns that have complete package records. *)
Lemma loop_Inv (rest done : list string) (st : Build) :
  inv done st ->
  NoDup (done ++ rest) ->
  (forall p, In p rest ->
     exists pkg, JS.get patterns p = Some pkg
                 /\ is_Some (Pkg._reference pkg) /\ is_Some (Pkg._remote pkg)) ->
  exists st',
    getLockfile_loop getName patterns st rest = JS.ret st' /\ inv (done ++ rest) st'.
Proof.
revert done st. induction rest as [|p rest IH]; intros done st HI Hnd Hall.
- exists st. rewrite app_nil_r. now split.
- destruct (Hall p) as (pkg & Hg & [ref Href] & [remote Hrem]); [now left|].
  assert (Hp : ~ In p done).
  { intros Hin. apply NoDup_app in Hnd as (_ & Hd & _).
    apply (Hd p); [now apply list_elem_of_In | left]. }
  destruct (body_Inv done st p pkg ref remote HI Hp Hg Href Hrem) as (st1 & E1 & HI1).
  destruct (IH (done ++ [p]) st1 HI1) as (st' & E' & HI').
  + now rewrite <- app_assoc.
  + intros q Hq. apply Hall. now right.
  + exists st'. cbn [getLockfile_loop]. rewrite E1. cbn [JS.bind].
    rewrite <- app_assoc in HI'. now split.
Qed.

Lemma keyed_In_keys (p k : string) : keyed p k -> In p (JS.keys patterns).
Proof. intros (pkg & r & H & _). eapply In_keys, get_In, H. Qed.

(** [getLockfile] on complete package records: it returns, and the loop
    invariant holds of what it returns for the sorted patterns. *)
Lemma getLockfile_Inv :
  NoDup (JS.keys patterns) ->
  complete patterns ->
  exists st,
    getLockfile getName patterns = JS.ret (lockfile st, heap st)
    /\ inv (JS.sort sortAlpha (JS.keys patterns)) st.
Proof.
intros Hnd Hc.
destruct (loop_Inv (JS.sort sortAlpha (JS.keys patterns)) []
            {| lockfile := []; seen := ∅; heap := [] |} Inv_init)
  as (st & E & HI).
- cbn [app]. now rewrite sort_Permutation.
- intros p Hp. apply list_elem_of_In in Hp. rewrite sort_Permutation in Hp.
  apply list_elem_of_In in Hp. destruct (JS.get patterns p) as [pkg|] eqn:Eg.
  + exists pkg. split; [reflexivity|]. eapply Hc, get_In, Eg.
  + apply get_None in Eg. contradiction.
- exists st. split; [|exact HI]. unfold getLockfile. now rewrite E.
Qed.

(** The loop returns only if every pattern has a complete package
    record. *)
Lemma body_returns (st st' : Build) (p : string) :
  getLockfile_body getName patterns st p = JS.ret st' ->
  exists pkg, JS.get patterns p = Some pkg
              /\ is_Some (Pkg._reference pkg) /\ is_Some (Pkg._remote pkg).
Proof.
unfold getLockfile_body. destruct (JS.get patterns p) as [pkg|]; [|discriminate].
cbn [JS.bind JS.ret].
destruct (Pkg._reference pkg) as [ref|] eqn:Eref; [|discriminate]. cbn [JS.bind JS.ret].
destruct (Pkg._remote pkg) as [remote|] eqn:Erem; [|discriminate].
intros _. exists pkg. split; [reflexivity|]. rewrite Eref, Erem. split; eexists; reflexivity.
Qed.

Lemma loop_returns (l : list string) (st st' : Build) :
  getLockfile_loop getName patterns st l = JS.ret st' ->
  forall p, In p l ->
    exists pkg, JS.get patterns p = Some pkg
                /\ is_Some (Pkg._reference pkg) /\ is_Some (Pkg._remote pkg).
Proof.
revert st. induction l as [|q l IH]; intros st H p Hp; [destruct Hp|].
cbn [getLockfile_loop] in H.
destruct (getLockfile_body getName patterns st q) as [err|st1] eqn:E; [discriminate H|].
cbn [JS.bind] in H. destruct Hp as [<-|Hp].
- eapply body_returns, E.
- eapply IH; eauto.
Qed.

Lemma getLockfile_returns_complete (out : list (string * nat) * list Entry) :
  NoDup (JS.keys patterns) ->
  getLockfile getName patterns = JS.ret out ->
  complete patterns.
Proof.
intros Hnd H p pkg Hin. unfold getLockfile in H.
destruct (getLockfile_loop getName patterns {| lockfile := []; seen := ∅; heap := [] |}
            (JS.sort sortAlpha (JS.keys patterns))) as [err|st] eqn:E; [discriminate H|].
destruct (loop_returns _ _ _ E p) as (pkg' & Hg & Href & Hrem).
- apply list_elem_of_In. rewrite sort_Permutation. apply list_elem_of_In.
  eapply In_keys, Hin.
- rewrite (get_of_In _ _ _ Hnd Hin) in Hg. injection Hg as <-. auto.
Qed.

End WithPatterns.

(** Sharing, in terms of the key that [keyForRemote] computes. *)
Lemma getLockfile_shares_keyed (getName : string -> string)
  (patterns : list (string * Pkg.Manifest)) :
  NoDup (JS.keys patterns) ->
  (complete patterns -> exists out, getLockfile getName patterns = JS.ret out)
  /\ forall out,
       getLockfile getName patterns = JS.ret out ->
       forall p1 p2 k,
         keyOf patterns p1 k -> keyOf patterns p2 k ->
         exists l e,
           JS.get (fst out) p1 = Some l
           /\ JS.get (fst out) p2 = Some l
           /\ snd out !! l = Some e
           /\ forall n,
                named patterns k n ->
                ((exists p, keyOf patterns p k /\ getName p <> n) -> name e = Some n)
                /\ ((forall p, keyOf patterns p k -> getName p = n) -> name e = None).
Proof.
intros Hnd. split.
{ intros Hc. destruct (getLockfile_Inv getName patterns Hnd Hc) as (st & E & _). eauto. }
intros out Hout.
pose proof (getLockfile_returns_complete getName patterns out Hnd Hout) as Hc.
destruct (getLockfile_Inv getName patterns Hnd Hc) as (st & E & HI).
rewrite E in Hout. injection Hout as <-. cbn [fst snd].
assert (Hsorted : forall p k, keyOf patterns p k ->
          In p (JS.sort sortAlpha (JS.keys patterns))).
{ intros p k Hp. apply list_elem_of_In. rewrite sort_Permutation.
  apply list_elem_of_In. eapply keyed_In_keys, Hp. }
intros p1 p2 k H1 H2.
destruct (inv_shared _ _ _ _ HI p1 k (Hsorted _ _ H1) H1) as (l & Hs & G1).
destruct (inv_shared _ _ _ _ HI p2 k (Hsorted _ _ H2) H2) as (l2 & Hs2 & G2).
assert (l2 = l) by congruence. subst l2.
destruct (lookup_lt_is_Some_2 (heap st) l) as [e He]; [eapply inv_seen; eauto|].
exists l, e. repeat split; auto.
- intros (p & Hp & Hne).
  destruct (inv_name _ _ _ _ HI k l n Hs H) as (e' & He' & [[_ Hall]|[Hn _]]).
  + exfalso. apply Hne. apply Hall; [eapply Hsorted|]; eauto.
  + congruence.
- intros Hall.
  destruct (inv_name _ _ _ _ HI k l n Hs H) as (e' & He' & [[Hn _]|[_ (p & _ & Hp & Hne)]]).
  + congruence.
  + exfalso. apply Hne. now apply Hall.
Qed.

(** The key that [keyForRemote] computes is the identity of the remote. *)
Lemma keyForRemote_identifiedBy (remote : Pkg.PackageRemote) (k : string) :
  keyForRemote remote = Some k <-> identifiedBy remote k.
Proof.
unfold keyForRemote. split.
- destruct (Pkg.resolved remote) as [r|] eqn:Er; cbn [JS.truthy].
  + destruct (String.eqb_spec r "") as [->|Hr]; cbn [negb].
    * destruct (Pkg.reference remote) as [ref|] eqn:Eref; [|discriminate].
      destruct (Pkg.hash remote) as [h|] eqn:Eh; [|discriminate].
      destruct (String.eqb_spec ref "") as [->|Href]; cbn [negb andb]; [discriminate|].
      destruct (String.eqb_spec h "") as [->|Hh]; cbn [negb]; [discriminate|].
      intros E. injection E as <-. eapply by_reference_hash; eauto.
    * intros E. injection E as <-. now apply by_resolved.
  + destruct (Pkg.reference remote) as [ref|] eqn:Eref; [|discriminate].
    destruct (Pkg.hash remote) as [h|] eqn:Eh; [|discriminate].
    destruct (String.eqb_spec ref "") as [->|Href]; cbn [negb andb]; [discriminate|].
    destruct (String.eqb_spec h "") as [->|Hh]; cbn [negb]; [discriminate|].
    intros E. injection E as <-. eapply by_reference_hash; eauto.
- intros [Er Hk|r h Er Eref Hr Eh Hh ->].
  + rewrite Er. cbn [JS.truthy].
    destruct (String.eqb_spec k "") as [E|_]; [contradiction | reflexivity].
  + assert (T : JS.truthy (Pkg.resolved remote) = false)
      by (destruct Er as [-> | ->]; reflexivity).
    rewrite T, Eref, Eh. cbn [JS.truthy].
    destruct (String.eqb_spec r "") as [E|_]; [contradiction|].
    destruct (String.eqb_spec h "") as [E|_]; [contradiction | reflexivity].
Qed.

Lemma identified_keyOf (patterns : list (string * Pkg.Manifest)) (p k : string) :
  identified patterns p k <-> keyOf patterns p k.
Proof.
split; intros (pkg & remote & Hg & Hr & Hk); exists pkg, remote;
  (split; [exact Hg | split; [exact Hr | now apply keyForRemote_identifiedBy]]).
Qed.

(** C2: in the lockfile object that [getLockfile] returns, two patterns
    whose remotes have the same identity (the [resolved] field if it is
    present, else [reference#hash]) are bound to one and the same entry
    object; and when the package records with this identity carry one
    name, the entry has this name as soon as some pattern with this
    identity gives another name (whether the entry was made with it or
    received it from a later pattern), and has no name when every such
    pattern gives it.  [getLockfile] returns when every package record has
    its reference and its remote. *)
Theorem getLockfile_shares_entries (getName : string -> string)
  (patterns : list (string * Pkg.Manifest)) :
  NoDup (JS.keys patterns) ->
  (complete patterns -> exists out, getLockfile getName patterns = JS.ret out)
  /\ forall out,
       getLockfile getName patterns = JS.ret out ->
       forall p1 p2 k,
         identified patterns p1 k -> identified patterns p2 k ->
         exists l e,
           JS.get (fst out) p1 = Some l
           /\ JS.get (fst out) p2 = Some l
           /\ snd out !! l = Some e
           /\ forall n,
                (forall p pkg,
                   JS.get patterns p = Some pkg -> identified patterns p k ->
                   Pkg.name pkg = n) ->
                ((exists p, identified patterns p k /\ getName p <> n) -> name e = Some n)
                /\ ((forall p, identified patterns p k -> getName p = n) -> name e = None).
Proof.
intros Hnd. destruct (getLockfile_shares_keyed getName patterns Hnd) as [Hret Hshare].
split; [exact Hret|]. intros out Hout p1 p2 k H1 H2.
destruct (Hshare out Hout p1 p2 k) as (l & e & G1 & G2 & G3 & Hname);
  [now apply identified_keyOf | now apply identified_keyOf |].
exists l, e. repeat split; auto.
- intros (p & Hp & Hne). apply (Hname n).
  + intros q pkg remote Hg Hr Hk. apply (H q pkg Hg).
    apply identified_keyOf. exists pkg, remote. auto.
  + exists p. split; [now apply identified_keyOf | exact Hne].
- intros Hall. apply (Hname n).
  + intros q pkg remote Hg Hr Hk. apply (H q pkg Hg).
    apply identified_keyOf. exists pkg, remote. auto.
  + intros p Hp. apply Hall. now apply identified_keyOf.
Qed.

(** C3: two maps with the same bindings, inserted in different orders, give
    the same result, down to the order of the keys of the object and to an
    exception if there is one.  On complete package records the keys of the
    object are the sorted patterns, and the entry of a pattern with a remote
    identity key is the one made from the first pattern with this key in
    the order of [sortAlpha], with or without a name given later. *)
Theorem getLockfile_order_independent (getName : string -> string)
  (patterns1 patterns2 : list (string * Pkg.Manifest)) :
  NoDup (JS.keys patterns1) ->
  patterns1 ≡ₚ patterns2 ->
  getLockfile getName patterns1 = getLockfile getName patterns2
  /\ (complete patterns1 ->
      exists out,
        getLockfile getName patterns1 = JS.ret out
        /\ getLockfile getName patterns2 = JS.ret out
        /\ JS.keys (fst out) = JS.sort sortAlpha (JS.keys patterns1)
        /\ StronglySorted (JS.before sortAlpha) (JS.keys (fst out))
        /\ forall p k,
             keyOf patterns1 p k ->
             exists owner pkg ref remote e,
               firstKeyed patterns1 k owner
               /\ JS.get patterns1 owner = Some pkg
               /\ Pkg._reference pkg = Some ref
               /\ Pkg._remote pkg = Some remote
               /\ entryOf out p = Some e
               /\ (e = implodeEntry getName owner (fullEntryOf pkg ref remote)
                   \/ exists n,
                        e = set_name n
                              (implodeEntry getName owner (fullEntryOf pkg ref remote)))).
Proof.
intros Hnd Hp.
assert (Heq : getLockfile getName patterns1 = getLockfile getName patterns2).
{ unfold getLockfile.
  rewrite (sort_sortAlpha_unique (JS.keys patterns1) (JS.keys patterns2))
    by now apply keys_Permutation.
  now rewrite (loop_ext getName patterns1 patterns2)
    by (intros k; now apply get_Permutation). }
split; [exact Heq|]. intros Hc.
destruct (getLockfile_Inv getName patterns1 Hnd Hc) as (st & E & HI).
exists (lockfile st, heap st). cbn [fst snd].
assert (Hss : StronglySorted (JS.before sortAlpha) (JS.sort sortAlpha (JS.keys patterns1))).
{ apply sort_StronglySorted; [apply sortAlpha_total | apply sortAlpha_trans]. }
split; [exact E|]. split; [now rewrite <- Heq|].
split; [apply (inv_keys _ _ _ _ HI)|].
split; [rewrite (inv_keys _ _ _ _ HI); exact Hss|].
assert (Hsorted : forall p k, keyOf patterns1 p k ->
          In p (JS.sort sortAlpha (JS.keys patterns1))).
{ intros p k Hk. apply list_elem_of_In. rewrite sort_Permutation.
  apply list_elem_of_In. eapply keyed_In_keys, Hk. }
intros p k Hk.
destruct (inv_shared _ _ _ _ HI p k (Hsorted _ _ Hk) Hk) as (l & Hs & G).
destruct (inv_owner _ _ _ _ HI k l Hs)
  as (p0 & pkg & ref & remote & e & d1 & d2 & Hd & Hd1 & G1 & G2 & G3 & G4 & G5 & G6).
exists p0, pkg, ref, remote, e. repeat split; auto.
- exists pkg, remote. auto.
- intros q Hq. specialize (Hsorted _ _ Hq). rewrite Hd in Hsorted, Hss.
  apply in_app_or in Hsorted as [Hin|[<-|Hin]].
  + exfalso. eapply Hd1; eauto.
  + pose proof (sortAlpha_skew p0 p0). lia.
  + apply StronglySorted_app_1_r, StronglySorted_inv in Hss as [_ Hall].
    rewrite Forall_forall in Hall. apply Hall. now apply list_elem_of_In.
- unfold entryOf. cbn [fst snd]. now rewrite G.
Qed.

(** The two patterns of [patternsA] that resolve to the tarball of [foo]
    are identified by [resolved]: they share an entry, and the entry is
    named [foo] because [zoo@file:../foo] gives another name.  The two
    patterns of [patternsHashed] that resolve to [bar] are identified by
    [reference#hash]: they share an entry, which has no name because both
    patterns give the name [bar]. *)
Lemma getLockfile_shares_entries_patternsA :
  (exists out l e,
     getLockfile nameSegment Examples.patternsA = JS.ret out
     /\ JS.get (fst out) "foo@^1.0.0" = Some l
     /\ JS.get (fst out) "zoo@file:../foo" = Some l
     /\ snd out !! l = Some e
     /\ name e = Some "foo")
  /\ (exists out l e,
        getLockfile nameSegment Examples.patternsHashed = JS.ret out
        /\ JS.get (fst out) "bar@2" = Some l
        /\ JS.get (fst out) "bar@^2.1.0" = Some l
        /\ snd out !! l = Some e
        /\ name e = None).
Proof.
split.
- assert (Hnd : NoDup (JS.keys Examples.patternsA)).
  { apply (bool_decide_unpack (NoDup (JS.keys Examples.patternsA))). vm_compute. exact I. }
  destruct (getLockfile_shares_entries nameSegment Examples.patternsA Hnd)
    as [Hret Hshare].
  destruct Hret as [out Hout].
  { intros pattern pkg [H|[H|[H|[]]]]; injection H as <- <-; split; eexists; reflexivity. }
  assert (Hfoo : forall p, p = "foo@^1.0.0" \/ p = "zoo@file:../foo" ->
            identified Examples.patternsA p "https://registry.example/foo-1.0.0.tgz#abc").
  { intros p [-> | ->]; exists Examples.pkgFoo; eexists;
      (split; [reflexivity | split; [reflexivity|]]);
      (apply by_resolved; [reflexivity | discriminate]). }
  destruct (Hshare out Hout "foo@^1.0.0" "zoo@file:../foo"
              "https://registry.example/foo-1.0.0.tgz#abc")
    as (l & e & G1 & G2 & G3 & Hname); [apply Hfoo; tauto | apply Hfoo; tauto |].
  exists out, l, e. repeat split; auto.
  apply (Hname "foo").
  + intros p pkg Hg Hk. apply ObjectProps.get_In in Hg.
    destruct Hg as [H|[H|[H|[]]]]; injection H as <- <-; [reflexivity | reflexivity |].
    apply identified_keyOf in Hk. destruct Hk as (pkg & remote & Hg & Hr & Hk).
    vm_compute in Hg. injection Hg as <-. vm_compute in Hr. injection Hr as <-.
    vm_compute in Hk. discriminate Hk.
  + exists "zoo@file:../foo". split; [apply Hfoo; tauto|].
    vm_compute. discriminate.
- assert (Hnd : NoDup (JS.keys Examples.patternsHashed)).
  { apply (bool_decide_unpack (NoDup (JS.keys Examples.patternsHashed))).
    vm_compute. exact I. }
  destruct (getLockfile_shares_entries nameSegment Examples.patternsHashed Hnd)
    as [Hret Hshare].
  destruct Hret as [out Hout].
  { intros pattern pkg [H|[H|[H|[]]]]; injection H as <- <-; split; eexists; reflexivity. }
  assert (Hbar : forall p, p = "bar@2" \/ p = "bar@^2.1.0" ->
            identified Examples.patternsHashed p
              "https://registry.example/bar-2.1.0.tgz#def").
  { intros p [-> | ->]; exists Examples.pkgBar; eexists;
      (split; [reflexivity | split; [reflexivity|]]);
      (eapply by_reference_hash;
       [left; reflexivity | reflexivity | discriminate | reflexivity | discriminate
        | reflexivity]). }
  destruct (Hshare out Hout "bar@2" "bar@^2.1.0"
              "https://registry.example/bar-2.1.0.tgz#def")
    as (l & e & G1 & G2 & G3 & Hname); [apply Hbar; tauto | apply Hbar; tauto |].
  exists out, l, e. repeat split; auto.
  assert (Hcases : forall p,
            identified Examples.patternsHashed p
              "https://registry.example/bar-2.1.0.tgz#def" ->
            p = "bar@2" \/ p = "bar@^2.1.0").
  { intros p Hk. apply identified_keyOf in Hk. destruct Hk as (pkg & remote & Hg & Hr & Hk).
    apply ObjectProps.get_In in Hg.
    destruct Hg as [H|[H|[H|[]]]]; injection H as <- <-; [tauto | tauto |].
    vm_compute in Hr. injection Hr as <-. vm_compute in Hk. discriminate Hk. }
  apply (Hname "bar").
  + intros p pkg Hg Hk. destruct (Hcases p Hk) as [-> | ->];
      vm_compute in Hg; injection Hg as <-; reflexivity.
  + intros p Hk. destruct (Hcases p Hk) as [-> | ->]; reflexivity.
Defined.

Example getLockfile_patternsA :
  exists fooEntry barEntry,
    getLockfile nameSegment Examples.patternsA
    = JS.ret ([("bar@2", 0%nat); ("foo@^1.0.0", 1%nat); ("zoo@file:../foo", 1%nat)],
              [barEntry; fooEntry])
    /\ name fooEntry = Some "foo" /\ name barEntry = None.
Proof. do 2 eexists. split; [vm_compute; reflexivity|]. split; reflexivity. Qed.

(** [patternsA] and [patternsB] give the same lockfile object. *)
Lemma getLockfile_order_independent_patternsA_patternsB :
  getLockfile nameSegment Examples.patternsA = getLockfile nameSegment Examples.patternsB.
Proof.
apply (getLockfile_order_independent nameSegment Examples.patternsA Examples.patternsB).
- apply (bool_decide_unpack (NoDup (JS.keys Examples.patternsA))). vm_compute. exact I.
- apply (Permutation_rev Examples.patternsA).
Defined.

End GetLockfileProps.

(** ** The constraint solver: [solveVersionConstraint] *)

Module SolverProps.

Import OpamResolver ObjectProps SortProps.

Lemma mapM_Forall2 {A B} (f : A -> JS.result B) (P : A -> B -> Prop) (l : list A) :
  (forall x, In x l -> exists y, f x = JS.ret y /\ P x y) ->
  exists ys, mapM f l = JS.ret ys /\ Forall2 P l ys.
Proof.
induction l as [|x l IH]; intros H.
- exists []. split; [reflexivity | constructor].
- destruct (H x) as (y & Ey & Py); [now left|].
  destruct IH as (ys & Eys & Pys); [intros z Hz; apply H; now right|].
  exists (y :: ys). cbn [mapM]. rewrite Ey. cbn [JS.bind JS.ret]. rewrite Eys.
  split; [reflexivity | now constructor].
Qed.

Lemma filterM_filter {A} (f : A -> JS.result bool) (g : A -> bool) (l : list A) :
  (forall x, In x l -> f x = JS.ret (g x)) ->
  filterM f l = JS.ret (List.filter g l).
Proof.
induction l as [|x l IH]; intros H; cbn [filterM List.filter]; [reflexivity|].
rewrite (H x) by now left. cbn [JS.bind JS.ret].
rewrite IH by (intros z Hz; apply H; now right). reflexivity.
Qed.

(** A filter that returns has got an answer for every element. *)
Lemma filterM_returns {A} (f : A -> JS.result bool) (l ys : list A) :
  filterM f l = JS.ret ys -> forall x, In x l -> exists b, f x = JS.ret b.
Proof.
revert ys. induction l as [|y l IH]; intros ys H x Hx; [destruct Hx|].
cbn [filterM] in H. destruct (f y) as [err|b] eqn:Ey; [discriminate H|].
cbn [JS.bind] in H. destruct (filterM f l) as [err|zs] eqn:El; [discriminate H|].
destruct Hx as [<-|Hx]; [eauto | eapply IH; eauto].
Qed.

Lemma isTrue_ret (r : JS.result bool) (b : bool) : r = JS.ret b -> isTrue r = b.
Proof. now intros ->. Qed.

Lemma isTrue_true (r : JS.result bool) : isTrue r = true -> r = JS.ret true.
Proof. destruct r as [err|[]]; cbn; intros H; try discriminate H; reflexivity. Qed.

Lemma StronglySorted_weaken {A} (R S : A -> A -> Prop) (l : list A) :
  (forall x y, R x y -> S x y) -> StronglySorted R l -> StronglySorted S l.
Proof.
intros HRS. induction 1 as [|x l _ IH Hx]; constructor; [exact IH|].
eapply Forall_impl; [exact Hx|]. intros y. apply HRS.
Qed.

Section WithLibraries.

Variable OPAM_SCOPE : string.
Variable semver_parse : string -> option SemVer.t.
Variable semver_prerelease : string -> option (list string).
Variable semver_satisfies : SemVer.t -> string -> bool.
Variable semver_satisfies_string : string -> string -> JS.result bool.
Variable versionCompare : string -> string -> Z.

Variable name : string.
Variable versions_of : list (string * MinimalManifest).

#[local] Abbreviation parseVersion :=
  (parseVersion OPAM_SCOPE semver_parse semver_prerelease name versions_of).
#[local] Abbreviation findVersion :=
  (findVersion OPAM_SCOPE semver_parse semver_prerelease semver_satisfies
     versionCompare name versions_of).
#[local] Abbreviation solve :=
  (solveVersionConstraint OPAM_SCOPE semver_parse semver_prerelease semver_satisfies
     semver_satisfies_string versionCompare name versions_of).
#[local] Abbreviation parsedAs := (parsedAs semver_parse semver_prerelease versions_of).
#[local] Abbreviation satisfiesRange :=
  (satisfiesRange semver_parse semver_prerelease semver_satisfies).
#[local] Abbreviation eligible := (eligible semver_satisfies_string versions_of).
#[local] Abbreviation firstSatisfying := (firstSatisfying semver_satisfies).
#[local] Abbreviation firstMatch := (firstMatch semver_satisfies).
#[local] Abbreviation byOpamVersion := (byOpamVersion versionCompare).
#[local] Abbreviation descending := (descending versionCompare).
#[local] Abbreviation masked := (masked semver_prerelease).
#[local] Abbreviation valid := (valid semver_parse versions_of).
#[local] Abbreviation accepted := (accepted semver_satisfies_string).
#[local] Abbreviation availableFor := (availableFor semver_satisfies_string versions_of).

Lemma get_key (version : string) :
  In version (JS.keys versions_of) -> is_Some (JS.get versions_of version).
Proof.
intros H. destruct (JS.get versions_of version) eqn:E; [eauto|].
apply get_None in E. contradiction.
Qed.

Lemma parseVersion_parsedAs (versionRange version : string) :
  In version (JS.keys versions_of) ->
  is_Some (semver_parse version) ->
  exists p, parseVersion versionRange version = JS.ret p
            /\ parsedAs versionRange version p.
Proof.
intros Hk [v Hv]. destruct (get_key _ Hk) as [m Hm].
unfold OpamResolver.parseVersion, OpamResolver.parsedAs, OpamResolver.masked.
rewrite Hv, Hm. cbn [JS.bind JS.ret].
destruct (semver_prerelease versionRange); cbn [JS.bind JS.ret];
  eexists; (split; [reflexivity|]); exists v, m; cbn; auto.
Qed.

Lemma parsedAs_satisfies (versionRange version : string) (p : Parsed) :
  parsedAs versionRange version p ->
  semver_satisfies (semver p) versionRange = satisfiesRange versionRange version.
Proof.
intros (v & m & Hv & _ & Hp & _). unfold OpamResolver.satisfiesRange.
now rewrite Hv, Hp.
Qed.

(** The loop of [findVersion] returns the first candidate that satisfies
    the range, if there is one. *)
Lemma firstSatisfying_None (l : list Parsed) (versionRange : string) :
  firstSatisfying l versionRange = None
  <-> forall q, In q l -> semver_satisfies (semver q) versionRange = false.
Proof.
induction l as [|p l IH]; cbn [OpamResolver.firstSatisfying].
- split; [intros _ q [] | reflexivity].
- destruct (semver_satisfies (semver p) versionRange) eqn:E.
  + split; [discriminate|]. intros H. rewrite (H p) in E by now left. discriminate E.
  + rewrite IH. split.
    * intros H q [<-|Hq]; auto.
    * intros H q Hq. apply H. now right.
Qed.

Lemma firstSatisfying_Some (l : list Parsed) (versionRange : string) (s : Solution) :
  firstSatisfying l versionRange = Some s
  <-> exists p, firstMatch l versionRange p /\ s = found (SemVer.raw (semver p)).
Proof.
revert s. induction l as [|p l IH]; intros s; cbn [OpamResolver.firstSatisfying].
- split; [discriminate|]. intros (p & (l1 & l2 & H & _) & _). now destruct l1.
- destruct (semver_satisfies (semver p) versionRange) eqn:E.
  + split.
    * intros H. injection H as <-. exists p. split; [|reflexivity].
      exists [], l. repeat split; auto. intros q [].
    * intros (q & (l1 & l2 & H & Hq & Hl1) & ->). destruct l1 as [|x l1].
      -- cbn in H. now injection H as <- _.
      -- cbn in H. injection H as <- _. rewrite (Hl1 p) in E by now left.
         discriminate E.
  + rewrite IH. split.
    * intros (q & (l1 & l2 & H & Hq & Hl1) & ->). exists q. split; [|reflexivity].
      exists (p :: l1), l2. rewrite H. repeat split; auto.
      intros x [<-|Hx]; auto.
    * intros (q & (l1 & l2 & H & Hq & Hl1) & ->). exists q. split; [|reflexivity].
      destruct l1 as [|x l1]; cbn in H; injection H as -> ->.
      -- congruence.
      -- exists l1, l2. repeat split; auto. intros y Hy. apply Hl1. now right.
Qed.

(** [findVersion] on valid versions: it parses them all, sorts them, and
    returns the first that satisfies the range. *)
Lemma findVersion_parsed (versions : list string) (versionRange : string) :
  valid versions ->
  exists parsed,
    mapM (parseVersion versionRange) versions = JS.ret parsed
    /\ Forall2 (parsedAs versionRange) versions parsed
    /\ findVersion versions versionRange
       = JS.ret (firstSatisfying (JS.sort byOpamVersion parsed) versionRange).
Proof.
intros Hv.
destruct (mapM_Forall2 (parseVersion versionRange) (parsedAs versionRange) versions)
  as (parsed & E & F).
{ intros version Hin. destruct (Hv version Hin). now apply parseVersion_parsedAs. }
exists parsed. repeat split; auto.
unfold OpamResolver.findVersion. now rewrite E.
Qed.

Lemma Forall2_satisfies (versions : list string) (parsed : list Parsed)
  (versionRange : string) :
  Forall2 (parsedAs versionRange) versions parsed ->
  (exists q, In q parsed /\ semver_satisfies (semver q) versionRange = true)
  <-> (exists version, In version versions /\ satisfiesRange versionRange version = true).
Proof.
induction 1 as [|version p versions parsed Hp _ IH].
- split; intros (x & [] & _).
- apply parsedAs_satisfies in Hp. split.
  + intros (q & [<-|Hq] & Hs).
    * exists version. split; [now left | congruence].
    * destruct (proj1 IH) as (x & Hx & Hxs); [eauto|]. exists x. split; [now right | auto].
  + intros (x & [<-|Hx] & Hs).
    * exists p. split; [now left | congruence].
    * destruct (proj2 IH) as (q & Hq & Hqs); [eauto|]. exists q. split; [now right | auto].
Qed.

(** [findVersion] finds a version exactly when some version satisfies the
    range. *)
Lemma findVersion_outcome (versions : list string) (versionRange : string) :
  valid versions ->
  (findVersion versions versionRange = JS.ret None
   /\ ~ exists version, In version versions
                         /\ satisfiesRange versionRange version = true)
  \/ (exists x,
        findVersion versions versionRange = JS.ret (Some (found x))
        /\ exists version, In version versions
                           /\ satisfiesRange versionRange version = true).
Proof.
intros Hv. destruct (findVersion_parsed versions versionRange Hv) as (parsed & _ & F & E).
rewrite E. pose proof (Forall2_satisfies _ _ _ F) as HF.
assert (Hperm : forall q, In q (JS.sort byOpamVersion parsed) <-> In q parsed).
{ intros q. rewrite <- !list_elem_of_In. now rewrite sort_Permutation. }
destruct (firstSatisfying (JS.sort byOpamVersion parsed) versionRange) as [s|] eqn:Ef.
- apply firstSatisfying_Some in Ef as (p & (l1 & l2 & Hl & Hp & _) & ->).
  assert (Hin : In p parsed) by (apply Hperm; rewrite Hl; apply in_elt).
  right. exists (SemVer.raw (semver p)). split; [reflexivity|]. apply HF. eauto.
- pose proof (proj1 (firstSatisfying_None _ _) Ef) as Hn.
  left. split; [reflexivity|].
  intros H. apply HF in H as (q & Hq & Hs). apply Hperm in Hq. rewrite (Hn q Hq) in Hs. discriminate Hs.
Qed.

(** The test of the filter asks [semver.satisfies] about the compiler
    version and the [ocaml] constraint of the version, given that the empty
    range and [*] are answered alike. *)
Lemma availableFor_ocamlConstraint (ocamlVersion version : string) (m : MinimalManifest) :
  (forall v, semver_satisfies_string v "" = semver_satisfies_string v "*") ->
  JS.get versions_of version = Some m ->
  availableFor ocamlVersion version
  = semver_satisfies_string ocamlVersion (ocamlConstraint m).
Proof.
intros Hempty Hm.
unfold OpamResolver.availableFor, ocamlConstraint. rewrite Hm.
cbn [JS.bind JS.ret].
destruct (peerDependencies m) as [pd|]; [|now rewrite lookup_empty].
destruct (pd !! "ocaml") as [range|]; [|reflexivity].
unfold JS.or_else, JS.truthy. destruct (String.eqb_spec range "") as [->|_]; cbn [negb].
- symmetry. apply Hempty.
- reflexivity.
Qed.

(** When the test of the filter returns, it returns the eligibility of the
    version. *)
Lemma availableFor_eligible (ocamlVersion version : string) :
  (forall v, semver_satisfies_string v "" = semver_satisfies_string v "*") ->
  In version (JS.keys versions_of) ->
  (exists b, availableFor ocamlVersion version = JS.ret b) ->
  availableFor ocamlVersion version = JS.ret (eligible ocamlVersion version).
Proof.
intros Hempty Hk [b Hb]. destruct (get_key _ Hk) as [m Hm].
rewrite Hb. f_equal. unfold OpamResolver.eligible. rewrite Hm.
rewrite <- (availableFor_ocamlConstraint _ _ _ Hempty Hm). symmetry.
now apply isTrue_ret.
Qed.

(** The test of the filter returns for a compiler version that
    [semver.satisfies] takes. *)
Lemma availableFor_accepted (ocamlVersion version : string) :
  (forall v, semver_satisfies_string v "" = semver_satisfies_string v "*") ->
  accepted (Some ocamlVersion) ->
  In version (JS.keys versions_of) ->
  exists b, availableFor ocamlVersion version = JS.ret b.
Proof.
intros Hempty Hacc Hk. destruct (get_key _ Hk) as [m Hm].
rewrite (availableFor_ocamlConstraint _ _ _ Hempty Hm). now apply Hacc.
Qed.

(** [findVersion] returns only on versions that [semver.parse] accepts. *)
Lemma findVersion_returns_valid (versions : list string) (versionRange : string)
  (r : option Solution) :
  (forall version, In version versions -> In version (JS.keys versions_of)) ->
  findVersion versions versionRange = JS.ret r ->
  valid versions.
Proof.
intros Hk H version Hin. split; [now apply Hk|].
unfold OpamResolver.findVersion in H.
destruct (mapM (parseVersion versionRange) versions) as [err|parsed] eqn:E;
  [discriminate H|]. clear H.
revert parsed E. induction versions as [|x versions IH]; intros parsed E; [destruct Hin|].
cbn [mapM] in E.
destruct (parseVersion versionRange x) as [err|px] eqn:Ex; [discriminate E|].
cbn [JS.bind] in E.
destruct (mapM (parseVersion versionRange) versions) as [err|ps] eqn:Es; [discriminate E|].
destruct Hin as [<-|Hin].
- unfold OpamResolver.parseVersion in Ex.
  destruct (semver_parse x); [eauto | discriminate Ex].
- eapply IH; eauto. intros y Hy. apply Hk. now right.
Qed.

(** The outcome of [solveVersionConstraint] with a compiler version, when
    the versions that [findVersion] is given are valid. *)
Lemma solve_classified (versionRange ocamlVersion : string) :
  (forall v, semver_satisfies_string v "" = semver_satisfies_string v "*") ->
  let versions := List.filter (eligible ocamlVersion) (JS.keys versions_of) in
  let eligibleMatch :=
    exists version, In version (JS.keys versions_of)
                    /\ eligible ocamlVersion version = true
                    /\ satisfiesRange versionRange version = true in
  let anyMatch :=
    exists version, In version (JS.keys versions_of)
                    /\ satisfiesRange versionRange version = true in
  (forall version, In version (JS.keys versions_of) ->
                  exists b, availableFor ocamlVersion version = JS.ret b) ->
  valid versions ->
  (findVersion versions versionRange = JS.ret None -> valid (JS.keys versions_of)) ->
  exists s,
    solve {| versionRange := versionRange; ocamlVersion := Some ocamlVersion |}
    = JS.ret s
    /\ ((exists x, s = found x) <-> eligibleMatch)
    /\ (s = no_version_found_for_ocaml_constraint <-> ~ eligibleMatch /\ anyMatch)
    /\ (s = no_version_found <-> ~ anyMatch).
Proof.
intros Hempty versions eligibleMatch anyMatch Hret Hvf Hv.
assert (Hel : (exists version, In version versions
                               /\ satisfiesRange versionRange version = true)
              <-> eligibleMatch).
{ unfold eligibleMatch, versions. split.
  - intros (version & Hin & Hs). apply filter_In in Hin as [Hin He]. eauto.
  - intros (version & Hin & He & Hs). exists version. split; [|exact Hs].
    apply filter_In. auto. }
assert (Hany : eligibleMatch -> anyMatch).
{ intros (version & Hin & _ & Hs). exists version. auto. }
unfold solveVersionConstraint. cbn [OpamResolver.versionRange OpamResolver.ocamlVersion].
rewrite (filterM_filter _ (eligible ocamlVersion))
  by (intros version Hin; apply availableFor_eligible; auto).
cbn [JS.bind JS.ret]. fold versions.
destruct (findVersion_outcome versions versionRange Hvf) as [[E Hno]|(x & E & Hyes)].
- specialize (Hv E). rewrite E; cbn [JS.bind JS.ret]. rewrite Hel in Hno.
  destruct (findVersion_outcome (JS.keys versions_of) versionRange Hv)
    as [[E' Hno']|(x' & E' & Hyes')]; rewrite E'; cbn [JS.bind JS.ret].
  + exists no_version_found. split; [reflexivity|]. repeat split; try tauto;
      try discriminate; try (intros (y & Hy); discriminate Hy).
  + exists no_version_found_for_ocaml_constraint. split; [reflexivity|].
    repeat split; try tauto; try discriminate;
      try (intros (y & Hy); discriminate Hy).
- rewrite E; cbn [JS.bind JS.ret]. rewrite Hel in Hyes. exists (found x).
  split; [reflexivity|]. repeat split; try tauto; try discriminate; eauto.
Qed.

(** C5, as the code has it: on a collection whose versions [semver.parse]
    accepts, and with a compiler version that [semver.satisfies] takes,
    [solveVersionConstraint] returns one of the three outcomes: [found]
    exactly when some eligible candidate (its [ocaml] peer constraint, [*]
    when it declares none, accepts the compiler version) satisfies the
    requested range; [no-version-found-for-ocaml-constraint] exactly when
    no eligible candidate satisfies the range and some candidate of the
    collection does; [no-version-found] exactly when no candidate of the
    collection satisfies the range. *)
Theorem solveVersionConstraint_outcome (versionRange ocamlVersion : string) :
  (forall v, semver_satisfies_string v "" = semver_satisfies_string v "*") ->
  valid (JS.keys versions_of) ->
  accepted (Some ocamlVersion) ->
  let constraint :=
    {| versionRange := versionRange; ocamlVersion := Some ocamlVersion |} in
  let eligibleMatch :=
    exists version, In version (JS.keys versions_of)
                    /\ eligible ocamlVersion version = true
                    /\ satisfiesRange versionRange version = true in
  let anyMatch :=
    exists version, In version (JS.keys versions_of)
                    /\ satisfiesRange versionRange version = true in
  exists s,
    solve constraint = JS.ret s
    /\ ((exists x, s = found x) <-> eligibleMatch)
    /\ (s = no_version_found_for_ocaml_constraint <-> ~ eligibleMatch /\ anyMatch)
    /\ (s = no_version_found <-> ~ anyMatch).
Proof.
intros Hempty Hv Hacc constraint eligibleMatch anyMatch.
apply (solve_classified versionRange ocamlVersion Hempty).
- intros version Hin. now apply availableFor_accepted.
- intros version Hin. apply Hv. now apply filter_In in Hin as [Hin _].
- intros _. exact Hv.
Qed.

(** The candidates as [findVersion] tries them. *)
Lemma findVersion_selection (versions : list string) (versionRange : string) :
  (forall s v, semver_parse s = Some v -> SemVer.raw v = s) ->
  (forall a b, 0 <= versionCompare a b \/ 0 <= versionCompare b a) ->
  (forall a b c,
     0 <= versionCompare a b -> 0 <= versionCompare b c -> 0 <= versionCompare a c) ->
  valid versions ->
  exists parsed,
    mapM (parseVersion versionRange) versions = JS.ret parsed
    /\ Forall2 (fun version p =>
                  parsedAs versionRange version p
                  /\ SemVer.raw (semver p) = version
                  /\ (semver_prerelease versionRange = None ->
                      SemVer.prerelease (semver p) = []))
         versions parsed
    /\ JS.sort byOpamVersion parsed ≡ₚ parsed
    /\ StronglySorted descending (JS.sort byOpamVersion parsed)
    /\ ((findVersion versions versionRange = JS.ret None
         /\ forall q, In q parsed -> semver_satisfies (semver q) versionRange = false)
        \/ (exists p,
              firstMatch (JS.sort byOpamVersion parsed) versionRange p
              /\ findVersion versions versionRange
                 = JS.ret (Some (found (SemVer.raw (semver p))))
              /\ In (SemVer.raw (semver p)) versions)).
Proof.
intros Hraw Htotal Htrans Hv.
destruct (findVersion_parsed versions versionRange Hv) as (parsed & Em & F & E).
assert (F' : Forall2 (fun version p =>
                  parsedAs versionRange version p
                  /\ SemVer.raw (semver p) = version
                  /\ (semver_prerelease versionRange = None ->
                      SemVer.prerelease (semver p) = []))
               versions parsed).
{ eapply Forall2_impl; [exact F|]. intros version p Hp. split; [exact Hp|].
  destruct Hp as (v & m & Hpv & _ & Hsv & _). rewrite Hsv. unfold OpamResolver.masked.
  destruct (semver_prerelease versionRange); cbn; split; auto; discriminate. }
assert (Hperm : forall q, In q (JS.sort byOpamVersion parsed) <-> In q parsed).
{ intros q. rewrite <- !list_elem_of_In. now rewrite sort_Permutation. }
exists parsed. split; [exact Em|]. split; [exact F'|].
split; [apply sort_Permutation|]. split.
{ assert (Hs : StronglySorted (JS.before byOpamVersion) (JS.sort byOpamVersion parsed)).
  { apply sort_StronglySorted; unfold OpamResolver.byOpamVersion.
    - intros x y. destruct (Htotal (opamVersion x) (opamVersion y)); [left|right]; lia.
    - intros x y z H1 H2.
      assert (0 <= versionCompare (opamVersion x) (opamVersion z)); [|lia].
      eapply Htrans with (b := opamVersion y); lia. }
  eapply StronglySorted_weaken; [|exact Hs].
  intros x y. unfold JS.before, OpamResolver.byOpamVersion, OpamResolver.descending. lia. }
rewrite E.
destruct (firstSatisfying (JS.sort byOpamVersion parsed) versionRange) as [s|] eqn:Ef.
- apply firstSatisfying_Some in Ef as (p & Hfirst & ->).
  right. exists p. repeat split; auto.
  destruct Hfirst as (l1 & l2 & Hl & _).
  assert (Hin : In p parsed) by (apply Hperm; rewrite Hl; apply in_elt).
  clear -F' Hin. induction F' as [|version q versions parsed (_ & Hq & _) _ IH].
  + destruct Hin.
  + destruct Hin as [<-|Hin]; [left; now symmetry | right; now apply IH].
- left. split; [reflexivity|]. intros q Hq.
  apply (proj1 (firstSatisfying_None _ _) Ef). now apply Hperm.
Qed.

End WithLibraries.

(** The sample collaborators meet what the theorems below ask of the
    libraries. *)
Lemma sample_parse_raw (s : string) (v : SemVer.t) :
  Sample.parse s = Some v -> SemVer.raw v = s.
Proof.
unfold Sample.parse.
destruct (Sample.cut "-" s) as [core tag].
destruct (Sample.cut "." core) as [a [rest|]]; [|discriminate].
destruct (Sample.cut "." rest) as [b c].
destruct (Sample.number a), (Sample.number b), c as [c|]; try discriminate.
destruct (Sample.number c); [|discriminate].
intros H. injection H as <-. reflexivity.
Qed.

Lemma sample_versionCompare_total (a b : string) :
  0 <= Sample.versionCompare a b \/ 0 <= Sample.versionCompare b a.
Proof. unfold Sample.versionCompare. rewrite (sortAlpha_skew a b). lia. Qed.

Lemma sample_versionCompare_trans (a b c : string) :
  0 <= Sample.versionCompare a b ->
  0 <= Sample.versionCompare b c ->
  0 <= Sample.versionCompare a c.
Proof.
unfold Sample.versionCompare. intros H1 H2.
pose proof (sortAlpha_skew a b). pose proof (sortAlpha_skew b c).
pose proof (sortAlpha_skew a c).
assert (sortAlpha c a <= 0); [|lia].
apply sortAlpha_trans with (b := b); lia.
Qed.

Lemma sample_empty_range (v : string) :
  Sample.satisfies_string v "" = Sample.satisfies_string v "*".
Proof.
unfold Sample.satisfies_string.
change (Sample.validRange "") with (Some "*").
change (Sample.validRange "*") with (Some "*").
destruct v as [|c v]; [reflexivity|]. now destruct (Sample.parse (String c v)).
Qed.

Lemma sample_accepted (ov : string) :
  is_Some (Sample.parse ov) -> accepted Sample.satisfies_string (Some ov).
Proof.
intros [v Hv] ov' range E. injection E as <-. unfold Sample.satisfies_string.
destruct (Sample.validRange range); [|eauto].
destruct ov; [eauto|]. rewrite Hv. eauto.
Qed.

(** C6: [findVersion] parses every candidate, keeps the string it parsed
    as [raw], and, when the requested range is not itself a pre-release
    version, empties the pre-release tag of the parsed version (the tag is
    kept aside) before the range is tested; it sorts the candidates so that
    greater opam versions come first and returns the first of them that
    satisfies the range.  For the catalog [1.0.0], [1.1.0], [2.0.0-beta1]
    without compiler constraint and the range [*] the result is
    [found 2.0.0-beta1], whenever [2.0.0-beta1] has the greatest opam
    version. *)
Theorem findVersion_masks_sorts_and_takes_first
  (OPAM_SCOPE : string)
  (semver_parse : string -> option SemVer.t)
  (semver_prerelease : string -> option (list string))
  (semver_satisfies : SemVer.t -> string -> bool)
  (semver_satisfies_string : string -> string -> JS.result bool)
  (versionCompare : string -> string -> Z) :
  (forall s v, semver_parse s = Some v -> SemVer.raw v = s) ->
  (forall a b, 0 <= versionCompare a b \/ 0 <= versionCompare b a) ->
  (forall a b c,
     0 <= versionCompare a b -> 0 <= versionCompare b c -> 0 <= versionCompare a c) ->
  (forall name versions_of versions versionRange,
     valid semver_parse versions_of versions ->
     exists parsed,
       mapM (parseVersion OPAM_SCOPE semver_parse semver_prerelease name versions_of
               versionRange) versions
       = JS.ret parsed
       /\ Forall2 (fun version p =>
                     parsedAs semver_parse semver_prerelease versions_of
                       versionRange version p
                     /\ SemVer.raw (semver p) = version
                     /\ (semver_prerelease versionRange = None ->
                         SemVer.prerelease (semver p) = []))
            versions parsed
       /\ JS.sort (byOpamVersion versionCompare) parsed ≡ₚ parsed
       /\ StronglySorted (descending versionCompare)
            (JS.sort (byOpamVersion versionCompare) parsed)
       /\ ((findVersion OPAM_SCOPE semver_parse semver_prerelease semver_satisfies
              versionCompare name versions_of versions versionRange
            = JS.ret None
            /\ forall q, In q parsed -> semver_satisfies (semver q) versionRange = false)
           \/ (exists p,
                 firstMatch semver_satisfies
                   (JS.sort (byOpamVersion versionCompare) parsed) versionRange p
                 /\ findVersion OPAM_SCOPE semver_parse semver_prerelease
                      semver_satisfies versionCompare name versions_of versions
                      versionRange
                    = JS.ret (Some (found (SemVer.raw (semver p))))
                 /\ In (SemVer.raw (semver p)) versions)))
  /\ (forall name o1 o2 o3,
        is_Some (semver_parse "1.0.0") ->
        is_Some (semver_parse "1.1.0") ->
        is_Some (semver_parse "2.0.0-beta1") ->
        semver_prerelease "*" = None ->
        (forall v, SemVer.prerelease v = [] -> semver_satisfies v "*" = true) ->
        versionCompare o1 o3 < 0 ->
        versionCompare o2 o3 < 0 ->
        solveVersionConstraint OPAM_SCOPE semver_parse semver_prerelease
          semver_satisfies semver_satisfies_string versionCompare name
          (Examples.catalog o1 o2 o3)
          {| versionRange := "*"; ocamlVersion := None |}
        = JS.ret (found "2.0.0-beta1")).
Proof.
intros Hraw Htotal Htrans. split.
{ intros name versions_of versions versionRange Hv.
  now apply findVersion_selection. }
intros name o1 o2 o3 P1 P2 P3 Hstar Hsat C1 C2.
set (keys := ["1.0.0"; "1.1.0"; "2.0.0-beta1"]).
assert (Hv : valid semver_parse (Examples.catalog o1 o2 o3) keys).
{ intros version [<-|[<-|[<-|[]]]]; (split; [cbn; tauto | assumption]). }
destruct (findVersion_selection OPAM_SCOPE semver_parse semver_prerelease
            semver_satisfies versionCompare name (Examples.catalog o1 o2 o3)
            keys "*" Hraw Htotal Htrans Hv)
  as (parsed & _ & F & Hperm & Hsorted & Hres).
unfold keys in F.
apply Forall2_cons_inv_l in F as (p1 & ps1 & (A1 & R1 & M1) & F & ->).
apply Forall2_cons_inv_l in F as (p2 & ps2 & (A2 & R2 & M2) & F & ->).
apply Forall2_cons_inv_l in F as (p3 & ps3 & (A3 & R3 & M3) & F & ->).
apply Forall2_nil_inv_l in F as ->.
assert (O1 : opamVersion p1 = o1).
{ destruct A1 as (v & m & _ & Hm & _ & Ho & _). cbn in Hm. injection Hm as <-. exact Ho. }
assert (O2 : opamVersion p2 = o2).
{ destruct A2 as (v & m & _ & Hm & _ & Ho & _). cbn in Hm. injection Hm as <-. exact Ho. }
assert (O3 : opamVersion p3 = o3).
{ destruct A3 as (v & m & _ & Hm & _ & Ho & _). cbn in Hm. injection Hm as <-. exact Ho. }
assert (Hall : forall q, In q [p1; p2; p3] -> semver_satisfies (semver q) "*" = true).
{ intros q [<-|[<-|[<-|[]]]]; apply Hsat; auto. }
assert (Hfound : findVersion OPAM_SCOPE semver_parse semver_prerelease semver_satisfies
                   versionCompare name (Examples.catalog o1 o2 o3) keys "*"
                 = JS.ret (Some (found "2.0.0-beta1"))).
{ destruct Hres as [[_ Hnone]|(p & (l1 & l2 & Hl & Hp & Hl1) & E & _)].
  { specialize (Hnone p1 (or_introl eq_refl)).
    rewrite (Hall p1) in Hnone by (now left). discriminate Hnone. }
  assert (Hin : forall q, In q (JS.sort (byOpamVersion versionCompare) [p1; p2; p3])
                          <-> In q [p1; p2; p3]).
  { intros q. rewrite <- !list_elem_of_In. now rewrite Hperm. }
  destruct l1 as [|q l1].
  2:{ assert (Hq : In q [p1; p2; p3]) by (apply Hin; rewrite Hl; now left).
      specialize (Hall q Hq). rewrite (Hl1 q) in Hall by now left. discriminate Hall. }
  cbn [app] in Hl. rewrite Hl in Hsorted, Hin.
  apply StronglySorted_inv in Hsorted as [_ Hdesc]. rewrite Forall_forall in Hdesc.
  assert (H3 : In p3 (p :: l2)) by (apply Hin; cbn; tauto).
  assert (Hp3 : p = p3).
  { destruct H3 as [H3|H3]; [exact H3|].
    apply list_elem_of_In, Hdesc in H3. unfold descending in H3. rewrite O3 in H3.
    assert (Hpin : In p [p1; p2; p3]) by (apply Hin; now left).
    destruct Hpin as [<-|[<-|[<-|[]]]]; [rewrite O1 in H3; lia | rewrite O2 in H3; lia
                                         | reflexivity]. }
  rewrite E, Hp3, R3. reflexivity. }
unfold solveVersionConstraint. cbn [versionRange ocamlVersion JS.bind JS.ret].
change (JS.keys (Examples.catalog o1 o2 o3)) with keys.
now rewrite Hfound.
Qed.

(** Both versions of [narrowCatalog] need a compiler [^1.0.0]: with the
    compiler [2.0.0] and the range [*] no eligible candidate satisfies the
    range, and some candidate does. *)
Lemma solve_narrowCatalog :
  let eligibleMatch :=
    exists version, In version (JS.keys Examples.narrowCatalog)
                    /\ eligible Sample.satisfies_string Examples.narrowCatalog
                         "2.0.0" version = true
                    /\ satisfiesRange Sample.parse Sample.prerelease Sample.satisfies
                         "*" version = true in
  let anyMatch :=
    exists version, In version (JS.keys Examples.narrowCatalog)
                    /\ satisfiesRange Sample.parse Sample.prerelease Sample.satisfies
                         "*" version = true in
  exists s,
    Sample.solve "foo" Examples.narrowCatalog
      {| versionRange := "*"; ocamlVersion := Some "2.0.0" |} = JS.ret s
    /\ ((exists x, s = found x) <-> eligibleMatch)
    /\ (s = no_version_found_for_ocaml_constraint <-> ~ eligibleMatch /\ anyMatch)
    /\ (s = no_version_found <-> ~ anyMatch).
Proof.
apply (solveVersionConstraint_outcome "opam" Sample.parse Sample.prerelease
         Sample.satisfies Sample.satisfies_string Sample.versionCompare "foo"
         Examples.narrowCatalog "*" "2.0.0").
- exact sample_empty_range.
- intros version [<-|[<-|[]]]; (split; [cbn; tauto | eexists; reflexivity]).
- apply sample_accepted. eexists. reflexivity.
Defined.

Example solve_narrowCatalog_value :
  Sample.solve "foo" Examples.narrowCatalog
    {| versionRange := "*"; ocamlVersion := Some "2.0.0" |}
  = JS.ret no_version_found_for_ocaml_constraint
  /\ Sample.solve "foo" Examples.narrowCatalog
       {| versionRange := ">=5.0.0"; ocamlVersion := Some "1.2.0" |}
     = JS.ret no_version_found
  /\ Sample.solve "foo" Examples.narrowCatalog
       {| versionRange := "*"; ocamlVersion := Some "1.2.0" |}
     = JS.ret (found "1.1.0").
Proof. repeat split. Qed.

(** C5, as stated, fails: a collection with a version that [semver.parse]
    rejects makes the [invariant] of [findVersion] fail, and
    [solveVersionConstraint] returns none of the three outcomes. *)
Lemma solve_invalid_version :
  Sample.parse "nightly" = None
  /\ Sample.solve "foo"
       (("nightly", mkManifest "nightly" None "nightly") :: Examples.narrowCatalog)
       {| versionRange := "*"; ocamlVersion := Some "2.0.0" |}
     = JS.throw (JS.InvariantViolation "Invalid version: @opam/foo@nightly")
  /\ ~ exists s,
        Sample.solve "foo"
          (("nightly", mkManifest "nightly" None "nightly") :: Examples.narrowCatalog)
          {| versionRange := "*"; ocamlVersion := Some "2.0.0" |}
        = JS.ret s.
Proof.
split; [reflexivity|]. split; [reflexivity|].
intros [s H]. vm_compute in H. discriminate H.
Qed.

(** A compiler version with a leading zero is no semantic version: the
    filter of the versions throws before any version is looked at. *)
Example solve_invalid_compiler_version :
  Sample.solve "foo" Examples.narrowCatalog
    {| versionRange := "*"; ocamlVersion := Some "4.02.3" |}
  = JS.throw (JS.TypeError "Invalid Version: 4.02.3").
Proof. reflexivity. Qed.

(** The catalog of the spec with the sample collaborators. *)
Lemma solve_catalog_star :
  Sample.solve "foo" (Examples.catalog "1.0.0" "1.1.0" "2.0.0~beta1")
    {| versionRange := "*"; ocamlVersion := None |}
  = JS.ret (found "2.0.0-beta1").
Proof.
apply (proj2 (findVersion_masks_sorts_and_takes_first "opam" Sample.parse
                Sample.prerelease Sample.satisfies Sample.satisfies_string
                Sample.versionCompare sample_parse_raw sample_versionCompare_total
                sample_versionCompare_trans)
         "foo" "1.0.0" "1.1.0" "2.0.0~beta1").
- eexists. reflexivity.
- eexists. reflexivity.
- eexists. reflexivity.
- reflexivity.
- intros v Hv. unfold Sample.satisfies, Sample.released. now rewrite Hv.
- vm_compute. reflexivity.
- vm_compute. reflexivity.
Defined.

End SolverProps.

(** ** The fetcher: [writeValidatedStream] and [_fetch] *)

Module FetcherProps.

Import OpamFetcher StringProps.

Lemma append_nil_r (s : string) : s +:+ "" = s.
Proof. induction s as [|c s IH]; [reflexivity|]. now rewrite append_String, IH. Qed.

(** With a checksum every chunk is given to the hasher and to the file. *)
Lemma fold_onData_Some (expected : string) (chunks : list string) (sink : Sink)
  (t : list Effect) :
  fold_left (onData (Some expected)) chunks (sink, t)
  = ({| hasher := hasher sink +:+ JS.join chunks;
        out := out sink +:+ JS.join chunks |},
     t ++ map HashUpdate chunks).
Proof.
revert sink t. induction chunks as [|chunk chunks IH]; intros sink t; cbn.
- rewrite !append_nil_r, app_nil_r. now destruct sink.
- rewrite IH. cbn. rewrite !append_assoc, <- app_assoc. reflexivity.
Qed.

(** Without a checksum the chunks go to the file only. *)
Lemma fold_onData_None (chunks : list string) (sink : Sink) (t : list Effect) :
  fold_left (onData None) chunks (sink, t)
  = ({| hasher := hasher sink; out := out sink +:+ JS.join chunks |}, t).
Proof.
revert sink t. induction chunks as [|chunk chunks IH]; intros sink t; cbn.
- rewrite append_nil_r. now destruct sink.
- rewrite IH. cbn. now rewrite append_assoc.
Qed.

Lemma filter_isRequest_HashUpdate (chunks : list string) :
  List.filter isRequest (map HashUpdate chunks) = [].
Proof. induction chunks as [|c chunks IH]; [reflexivity | exact IH]. Qed.

(** Nothing that awaits a rejected promise is run. *)
Lemma abind_rejected {A B} (m : Async A) (k : A -> Async B) (t t' : list Effect)
  (err : JS.exn) :
  m t = (t', Some (JS.throw err)) -> abind m k t = (t', Some (JS.throw err)).
Proof. intros H. unfold abind. now rewrite H. Qed.

Section WithCollaborators.

Variable md5_hex : string -> string.
Variable TARBALL_FILENAME : string.
Variable path_join : string -> string -> string.
Variable path_dirname : string -> string.
Variable json : OpamManifest -> string.
Variable STATUS_CODES : Z -> option string.
Variable lang : string -> string -> string.
Variable env : Env.

#[local] Abbreviation fetch :=
  (_fetch md5_hex TARBALL_FILENAME path_join path_dirname json STATUS_CODES lang env).
#[local] Abbreviation fetchTarball := (_fetchTarball md5_hex STATUS_CODES lang env).
#[local] Abbreviation requestFailed := (requestFailed STATUS_CODES lang).

(** What the registry delivers for the URL of a manifest. *)
#[local] Abbreviation response manifest := (download env (url (opam manifest))).

(** [_fetchTarball] with a checksum, on a response that is piped to its
    end. *)
Lemma fetchTarball_checked (manifest : OpamManifest) (expected filename : string)
  (t : list Effect) :
  checksum (opam manifest) = Some expected ->
  ending (response manifest) = finish ->
  fetchTarball manifest filename t
  = (t ++ [Request (url (opam manifest))]
       ++ map HashUpdate (chunks (response manifest))
       ++ [WriteStream filename (JS.join (chunks (response manifest))); HashDigest],
     Some (if 400 <=? statusCode (response manifest)
           then JS.throw (requestFailed (statusCode (response manifest)))
           else onFinish md5_hex (Some expected)
                  {| hasher := JS.join (chunks (response manifest));
                     out := JS.join (chunks (response manifest)) |})).
Proof.
intros Hsum Hend. unfold _fetchTarball, request, handleRequestError, writeValidatedStream.
rewrite Hsum, fold_onData_Some, Hend. cbn [hasher out].
rewrite !append_nil_l, <- !app_assoc. cbn [app].
now destruct (400 <=? statusCode (response manifest)).
Qed.

(** What [_fetchTarball] has done when the piping is over, whatever the
    checksum of the manifest is: the registry was asked, some chunks were
    given to the hasher, and the bytes received were piped to the file. *)
Lemma fetchTarball_piped (manifest : OpamManifest) (t : list Effect) :
  exists sink updates,
    fold_left (onData (checksum (opam manifest))) (chunks (response manifest))
      ({| hasher := ""; out := "" |}, t ++ [Request (url (opam manifest))])
    = (sink, t ++ [Request (url (opam manifest))] ++ map HashUpdate updates)
    /\ out sink = JS.join (chunks (response manifest)).
Proof.
destruct (checksum (opam manifest)) as [c|].
- eexists. exists (chunks (response manifest)). rewrite fold_onData_Some.
  rewrite <- app_assoc. split; [reflexivity|]. cbn [out]. apply append_nil_l.
- eexists. exists []. rewrite fold_onData_None. cbn [map]. rewrite app_nil_r.
  split; [reflexivity|]. cbn [out]. apply append_nil_l.
Qed.


(** [_fetch] with any fetcher: its first statement calls
    [parseResolution], which the resolver module does not export; the
    promise is rejected before the manifest is looked up, and nothing is
    downloaded or written. *)
Lemma fetch_rejects_before_lookup (this : Fetcher) (t : list Effect) :
  fetch this t
  = (t, Some (JS.throw (JS.TypeError "parseResolution is not a function"))).
Proof. reflexivity. Qed.

End WithCollaborators.



(** C10, at the fetcher [fetcher]: the repository has a manifest without
    URL for its reference, and one with a URL and no checksum, and in both
    cases [_fetch] is rejected by the [TypeError] of its first statement,
    without any effect: no hash is returned, neither the preset hash or
    the empty string nor the digest of no bytes. *)
Theorem fetch_returns_no_hash :
  (url (opam Examples.localManifest) = None
   /\ lookupManifest (Sample.env 200 Examples.localManifest) "foo" "1.0.0" []
      = ([], Some (JS.ret (Some Examples.localManifest)))
   /\ Sample.fetch (Sample.env 200 Examples.localManifest) Examples.fetcher []
      = ([], Some (JS.throw (JS.TypeError "parseResolution is not a function"))))
  /\ (is_Some (url (opam Examples.uncheckedManifest))
      /\ checksum (opam Examples.uncheckedManifest) = None
      /\ lookupManifest (Sample.env 200 Examples.uncheckedManifest) "foo" "1.0.0" []
         = ([], Some (JS.ret (Some Examples.uncheckedManifest)))
      /\ Sample.fetch (Sample.env 200 Examples.uncheckedManifest) Examples.fetcher []
         = ([], Some (JS.throw (JS.TypeError "parseResolution is not a function")))).
Proof.
split.
- split; [reflexivity|]. split; [reflexivity|]. apply fetch_rejects_before_lookup.
- split; [eexists; reflexivity|]. split; [reflexivity|]. split; [reflexivity|].
  apply fetch_rejects_before_lookup.
Qed.

End FetcherProps.

(** ** Entries that are written again, and lookups that are repeated *)

Module EntryStability.

Import Lockfile.

Section WithGetName.

Variable getName : string -> string.

Lemma blankObjectUndefined_or_empty {V} (o : option (gmap string V)) :
  blankObjectUndefined (JS.or_empty (blankObjectUndefined o)) = blankObjectUndefined o.
Proof.
destruct o as [m|]; [|reflexivity]. cbn [blankObjectUndefined].
destruct (Nat.eqb (size m) 0) eqn:E; cbn [JS.or_empty blankObjectUndefined].
- now rewrite map_size_empty.
- now rewrite E.
Qed.

Lemma blankObjectUndefined_idempotent {V} (o : option (gmap string V)) :
  blankObjectUndefined (blankObjectUndefined o) = blankObjectUndefined o.
Proof.
destruct o as [m|]; [|reflexivity]. cbn [blankObjectUndefined].
destruct (Nat.eqb (size m) 0) eqn:E; cbn [blankObjectUndefined]; [reflexivity|].
now rewrite E.
Qed.

(** A field that [implodeEntry] drops when it has the value [d] and that
    [explodeEntry] fills with [d]. *)
Lemma drop_fill_drop (x : option string) (d : string) :
  x <> Some "" ->
  let dropped := if decide (x = Some d) then None else x in
  (if decide (JS.or_else dropped (Some d) = Some d) then None
   else JS.or_else dropped (Some d))
  = dropped.
Proof.
intros Hx dropped. unfold dropped.
destruct (decide (x = Some d)) as [->|Hd].
- cbn. destruct (String.eqb d ""); cbn; now destruct (decide (Some d = Some d)).
- destruct x as [s|]; cbn.
  + unfold JS.or_else, JS.truthy.
    destruct (String.eqb_spec s "") as [->|_]; [contradiction|]. cbn [negb].
    now destruct (decide (Some s = Some d)).
  + now destruct (decide (Some d = Some d)).
Qed.

Lemma or_else_idempotent (x d : option string) :
  JS.or_else (JS.or_else x d) d = JS.or_else x d.
Proof.
unfold JS.or_else. destruct (JS.truthy x) eqn:E; [now rewrite E|].
now destruct (JS.truthy d).
Qed.

Lemma or_empty_idempotent {V} (o : option (gmap string V)) :
  JS.or_empty (JS.or_empty o) = JS.or_empty o.
Proof. now destruct o. Qed.

Lemma explodeEntry_idempotent (pattern : string) (e : Entry) :
  explodeEntry getName pattern (explodeEntry getName pattern e)
  = explodeEntry getName pattern e.
Proof.
unfold explodeEntry. cbn [name version resolved registry uid permissions
  optionalDependencies peerDependencies dependencies].
now rewrite !or_else_idempotent, !or_empty_idempotent.
Qed.

(** X1: an entry that was written by [implodeEntry], read by [explodeEntry]
    and written again is the entry that was written first, when its name,
    its uid and its registry are not the empty string: a lockfile that is
    read and written back does not change. *)
Theorem implodeEntry_explodeEntry_implodeEntry (pattern : string) (e : Entry) :
  name e <> Some "" ->
  uid e <> Some "" ->
  registry e <> Some "" ->
  implodeEntry getName pattern
    (explodeEntry getName pattern (implodeEntry getName pattern e))
  = implodeEntry getName pattern e.
Proof.
intros Hn Hu Hr. destruct e as [n v rs rg u pm od pd d].
cbn [name uid registry] in Hn, Hu, Hr.
unfold implodeEntry, explodeEntry.
cbn [name version resolved registry uid permissions optionalDependencies
     peerDependencies dependencies].
rewrite !blankObjectUndefined_or_empty, blankObjectUndefined_idempotent.
pose proof (drop_fill_drop n (getName pattern) Hn) as En.
pose proof (drop_fill_drop u v Hu) as Eu.
pose proof (drop_fill_drop rg "npm" Hr) as Er.
cbv zeta in En, Eu, Er. now rewrite En, Eu, Er.
Qed.

End WithGetName.

(** The entry of [foo@^1.0.0] is written the same the second time. *)
Lemma implodeEntry_explodeEntry_implodeEntry_fullEntry :
  implodeEntry nameSegment "foo@^1.0.0"
    (explodeEntry nameSegment "foo@^1.0.0"
       (implodeEntry nameSegment "foo@^1.0.0" Examples.fullEntry))
  = implodeEntry nameSegment "foo@^1.0.0" Examples.fullEntry.
Proof.
apply (implodeEntry_explodeEntry_implodeEntry nameSegment "foo@^1.0.0" Examples.fullEntry);
  discriminate.
Defined.

End EntryStability.

(** ** The cache after a lookup, and after [removePattern] *)

Module CacheProps.

Import Lockfile.

Section WithGetName.

Variable getName : string -> string.

#[local] Abbreviation lookedUp := (getLocked_returns getName).

Lemma body_alias_iff (cache : gmap string CacheValue) (pattern shrunk : string) :
  getLocked_body getName cache pattern = Continue shrunk
  <-> cache !! pattern = Some (Alias shrunk).
Proof.
unfold getLocked_body.
destruct (cache !! pattern) as [[q|e]|]; split; intros H; try discriminate H; congruence.
Qed.

(** What a lookup returns and what it leaves in the cache, in terms of the
    pattern at the end of the chain of aliases. *)
Lemma lookedUp_owner (cache cache' : gmap string CacheValue) (pattern : string)
  (r : option Entry) :
  lookedUp cache pattern cache' r ->
  exists q,
    reaches cache pattern q
    /\ ((cache !! q = None /\ r = None /\ cache' = cache)
        \/ exists shrunk,
             cache !! q = Some (Locked shrunk)
             /\ r = Some (explodeEntry getName q shrunk)
             /\ cache' = <[q := Locked (explodeEntry getName q shrunk)]> cache).
Proof.
induction 1 as [pattern cache' r E | pattern shrunk cache' r E _ (q & Hq & IH)].
- exists pattern. split; [apply rtc_refl|].
  unfold getLocked_body in E.
  destruct (cache !! pattern) as [[a|e]|]; [discriminate E | |].
  + injection E as <- <-. right. eauto.
  + injection E as <- <-. left. auto.
- exists q. split; [|exact IH].
  eapply rtc_l; [|exact Hq]. now apply body_alias_iff.
Qed.

(** A lookup changes no alias. *)
Lemma lookedUp_aliases (cache cache' : gmap string CacheValue) (pattern : string)
  (r : option Entry) (a b : string) :
  lookedUp cache pattern cache' r ->
  cache !! a = Some (Alias b) -> cache' !! a = Some (Alias b).
Proof.
intros H Ha. apply lookedUp_owner in H as (q & _ & [(_ & _ & ->)|(s & Hq & _ & ->)]);
  [exact Ha|].
rewrite lookup_insert_ne; [exact Ha|]. intros <-. congruence.
Qed.

(** X2: the entry that [getLocked] returns belongs to the pattern at the end
    of the chain of aliases: it is the entry stored under this pattern in
    its full form, its missing name is the one this pattern gives,
    whatever pattern was asked for, and the full entry is stored back
    under this pattern.  When the chain ends at a pattern that the cache
    does not have, nothing is returned and the cache is left as it was. *)
Theorem getLocked_owner_entry (cache cache' : gmap string CacheValue)
  (pattern : string) (r : option Entry) :
  lookedUp cache pattern cache' r ->
  exists owner,
    reaches cache pattern owner
    /\ match r with
       | None => cache !! owner = None /\ cache' = cache
       | Some e =>
           exists shrunk,
             cache !! owner = Some (Locked shrunk)
             /\ e = explodeEntry getName owner shrunk
             /\ name e = JS.or_else (name shrunk) (Some (getName owner))
             /\ cache' !! owner = Some (Locked e)
       end.
Proof.
intros H. apply lookedUp_owner in H as (q & Hq & [(Hn & -> & ->)|(s & Hs & -> & ->)]).
- exists q. split; [exact Hq|]. auto.
- exists q. split; [exact Hq|].
  exists s. split; [exact Hs|]. split; [reflexivity|]. split; [reflexivity|].
  apply lookup_insert_eq.
Qed.

(** X3: a lookup that is repeated returns what it returned, and leaves the
    cache as the first lookup left it. *)
Theorem getLocked_again (cache cache' : gmap string CacheValue) (pattern : string)
  (r : option Entry) :
  lookedUp cache pattern cache' r -> lookedUp cache' pattern cache' r.
Proof.
intros H. pose proof (fun a b => lookedUp_aliases _ _ _ _ a b H) as Hal.
induction H as [pattern cache' r E | pattern shrunk cache' r E _ IH].
- apply getLocked_done. unfold getLocked_body in *.
  destruct (cache !! pattern) as [[a|e]|] eqn:Ec; [discriminate E | |].
  + injection E as <- <-. rewrite lookup_insert_eq, EntryStability.explodeEntry_idempotent.
    now rewrite insert_insert_eq.
  + injection E as <- <-. now rewrite Ec.
- eapply getLocked_alias; [|now apply IH].
  apply body_alias_iff, Hal. now apply body_alias_iff.
Qed.

(** A pattern from which the chain of aliases passes through [p] has no
    entry once [p] is removed. *)
Lemma removed_on_chain (cache : gmap string CacheValue) (p a : string) :
  reaches cache a p -> lookedUp (delete p cache) a (delete p cache) None.
Proof.
induction 1 as [p | a b p Hab _ IH].
- apply getLocked_done. unfold getLocked_body. now rewrite lookup_delete_eq.
- destruct (decide (a = p)) as [->|Hne].
  + apply getLocked_done. unfold getLocked_body. now rewrite lookup_delete_eq.
  + eapply getLocked_alias; [|exact IH].
    apply body_alias_iff. rewrite lookup_delete_ne by congruence. exact Hab.
Qed.

(** A lookup whose chain of aliases does not pass through [p] is not
    changed by the removal of [p]. *)
Lemma removed_off_chain (cache cache' : gmap string CacheValue) (p a : string)
  (r : option Entry) :
  ~ reaches cache a p ->
  lookedUp cache a cache' r -> lookedUp (delete p cache) a (delete p cache') r.
Proof.
intros Hp H. induction H as [a cache' r E | a b cache' r E _ IH].
- assert (Hne : a <> p) by (intros ->; apply Hp, rtc_refl).
  apply getLocked_done. unfold getLocked_body in *.
  rewrite lookup_delete_ne by congruence.
  destruct (cache !! a) as [[s|e]|]; [discriminate E | |].
  + injection E as <- <-. now rewrite delete_insert_ne by congruence.
  + injection E as <- <-. reflexivity.
- assert (Hne : a <> p) by (intros ->; apply Hp, rtc_refl).
  apply body_alias_iff in E.
  eapply getLocked_alias.
  + apply body_alias_iff. rewrite lookup_delete_ne by congruence. exact E.
  + apply IH. intros Hb. apply Hp. eapply rtc_l; [exact E | exact Hb].
Qed.

Lemma fuel_of_lookedUp (cache cache' : gmap string CacheValue) (pattern : string)
  (r : option Entry) :
  lookedUp cache pattern cache' r ->
  exists fuel, getLocked getName fuel (Some cache) pattern = Some (Some cache', r).
Proof.
induction 1 as [pattern cache' r E | pattern shrunk cache' r E _ [fuel IH]].
- exists 1%nat. cbn. now rewrite E.
- exists (S fuel). cbn [getLocked getLocked_fuel] in *. now rewrite E.
Qed.

Lemma lookedUp_of_fuel (fuel : nat) (cache cache' : gmap string CacheValue)
  (pattern : string) (r : option Entry) :
  getLocked getName fuel (Some cache) pattern = Some (Some cache', r) ->
  lookedUp cache pattern cache' r.
Proof.
cbn [getLocked].
destruct (getLocked_fuel getName fuel cache pattern) as [[c x]|] eqn:E; [|discriminate].
intros H. injection H as <- <-. revert pattern E.
induction fuel as [|fuel IH]; intros pattern E; [discriminate E|].
cbn [getLocked_fuel] in E.
destruct (getLocked_body getName cache pattern) as [shrunk|c' x'] eqn:Eb.
- eapply getLocked_alias; eauto.
- injection E as <- <-. now apply getLocked_done.
Qed.

(** X4: after [removePattern] the pattern has no entry; neither has a
    pattern whose chain of aliases passes through the removed pattern (the
    aliases are not removed with it); a lookup whose chain of aliases does
    not pass through the removed pattern returns what it returned before,
    and [removePattern] commutes with it. *)
Theorem removePattern_getLocked (cache : gmap string CacheValue) (p : string) :
  (forall this_cache fuel,
     getLocked getName (S fuel) (removePattern this_cache p) p
     = Some (removePattern this_cache p, None))
  /\ (forall a,
        reaches cache a p ->
        exists fuel,
          getLocked getName fuel (removePattern (Some cache) p) a
          = Some (removePattern (Some cache) p, None))
  /\ (forall a fuel cache' r,
        ~ reaches cache a p ->
        getLocked getName fuel (Some cache) a = Some (Some cache', r) ->
        exists fuel',
          getLocked getName fuel' (removePattern (Some cache) p) a
          = Some (removePattern (Some cache') p, r)).
Proof.
split; [|split].
- intros [c|] fuel; [|reflexivity].
  cbn [removePattern getLocked getLocked_fuel]. unfold getLocked_body.
  now rewrite lookup_delete_eq.
- intros a H. apply fuel_of_lookedUp. now apply removed_on_chain.
- intros a fuel cache' r Hp H. apply fuel_of_lookedUp.
  apply removed_off_chain; [exact Hp|]. eapply lookedUp_of_fuel, H.
Qed.

End WithGetName.

(** In [chainCache] the pattern [a@1] is an alias of [b@1], which is an
    alias of [foo@^1.0.0]: the entry returned for [a@1] has the name that
    [foo@^1.0.0] gives. *)
Lemma getLocked_owner_entry_chainCache :
  exists cache' e owner,
    getLocked nameSegment 3 (Some Examples.chainCache) "a@1" = Some (Some cache', Some e)
    /\ reaches Examples.chainCache "a@1" owner
    /\ name e = Some "foo"
    /\ cache' !! owner = Some (Locked e).
Proof.
do 2 eexists.
destruct (getLocked_owner_entry nameSegment Examples.chainCache _ "a@1" _
            (lookedUp_of_fuel nameSegment 3 Examples.chainCache _ "a@1" _ eq_refl))
  as (owner & Hreach & shrunk & _ & He & _ & Hstored).
exists owner. split; [reflexivity|]. split; [exact Hreach|]. split; [reflexivity|].
exact Hstored.
Defined.

(** The lookup of [a@1] in [chainCache], twice. *)
Lemma getLocked_again_chainCache :
  exists cache' r,
    getLocked nameSegment 3 (Some Examples.chainCache) "a@1" = Some (Some cache', r)
    /\ getLocked_returns nameSegment cache' "a@1" cache' r.
Proof.
do 2 eexists. split; [vm_compute; reflexivity|].
apply (getLocked_again nameSegment Examples.chainCache).
apply (lookedUp_of_fuel nameSegment 3). vm_compute. reflexivity.
Defined.

(** [chainCache] without [b@1]: [b@1] and its alias [a@1] have no entry,
    and [foo@^1.0.0] has the entry it had. *)
Lemma removePattern_getLocked_chainCache :
  getLocked nameSegment 1 (removePattern (Some Examples.chainCache) "b@1") "b@1"
  = Some (removePattern (Some Examples.chainCache) "b@1", None)
  /\ (exists fuel,
        getLocked nameSegment fuel (removePattern (Some Examples.chainCache) "b@1") "a@1"
        = Some (removePattern (Some Examples.chainCache) "b@1", None))
  /\ (exists fuel cache' e,
        getLocked nameSegment 1 (Some Examples.chainCache) "foo@^1.0.0"
        = Some (Some cache', Some e)
        /\ getLocked nameSegment fuel (removePattern (Some Examples.chainCache) "b@1")
             "foo@^1.0.0"
           = Some (removePattern (Some cache') "b@1", Some e)).
Proof.
destruct (removePattern_getLocked nameSegment Examples.chainCache "b@1") as (H1 & H2 & H3).
split; [apply H1|]. split.
- apply H2. eapply rtc_l; [|apply rtc_refl]. vm_compute. reflexivity.
- assert (Hoff : ~ reaches Examples.chainCache "foo@^1.0.0" "b@1").
  { intros H. inversion H as [|x y z Hxy]. vm_compute in Hxy. discriminate Hxy. }
  destruct (H3 "foo@^1.0.0" 1%nat _ _ Hoff eq_refl) as (fuel & Hfuel).
  exists fuel. do 2 eexists. split; [reflexivity | exact Hfuel].
Defined.

End CacheProps.

(** ** [getLockfile]: incomplete records, and reading the lockfile back *)

Module LockfileProps.

Import Lockfile ObjectProps SortProps.

#[local] Abbreviation missingReference :=
  (JS.InvariantViolation "Package is missing a reference").
#[local] Abbreviation missingRemote :=
  (JS.InvariantViolation "Package is missing a remote").

Section WithPatterns.

Variable getName : string -> string.
Variable patterns : list (string * Pkg.Manifest).

#[local] Abbreviation body := (getLockfile_body getName patterns).
#[local] Abbreviation loop := (getLockfile_loop getName patterns).

(** One turn of the loop: the reference is checked before the remote, and
    with both the turn ends without exception. *)
Lemma body_checks (st : Build) (p : string) (pkg : Pkg.Manifest) :
  JS.get patterns p = Some pkg ->
  match Pkg._reference pkg, Pkg._remote pkg with
  | None, _ => body st p = JS.throw missingReference
  | Some _, None => body st p = JS.throw missingRemote
  | Some _, Some _ => exists st', body st p = JS.ret st'
  end.
Proof.
intros Hg. unfold getLockfile_body. rewrite Hg. cbn [JS.bind JS.ret].
destruct (Pkg._reference pkg) as [ref|]; [|reflexivity]. cbn [JS.bind JS.ret].
destruct (Pkg._remote pkg) as [remote|]; [|reflexivity]. cbn [JS.bind JS.ret].
destruct (match keyForRemote remote with
          | Some k => seen st !! k
          | None => None
          end); eauto.
Qed.

(** The loop stops at the first pattern whose record is incomplete. *)
Lemma loop_first_incomplete (l1 l2 : list string) (p : string) (pkg : Pkg.Manifest)
  (st : Build) :
  (forall q, In q l1 ->
     exists pkg', JS.get patterns q = Some pkg'
                  /\ is_Some (Pkg._reference pkg') /\ is_Some (Pkg._remote pkg')) ->
  JS.get patterns p = Some pkg ->
  Pkg._reference pkg = None \/ Pkg._remote pkg = None ->
  loop st (l1 ++ p :: l2)
  = JS.throw (match Pkg._reference pkg with
              | None => missingReference
              | Some _ => missingRemote
              end).
Proof.
revert st. induction l1 as [|q l1 IH]; intros st Hl1 Hg Hp; cbn [app getLockfile_loop].
- pose proof (body_checks st p pkg Hg) as Hb.
  destruct (Pkg._reference pkg) as [ref|].
  + destruct Hp as [Hp|Hp]; [discriminate Hp|]. rewrite Hp in Hb. now rewrite Hb.
  + now rewrite Hb.
- destruct (Hl1 q (or_introl eq_refl)) as (pkg' & Hq & [ref Href] & [remote Hrem]).
  pose proof (body_checks st q pkg' Hq) as Hb. rewrite Href, Hrem in Hb.
  destruct Hb as [st' ->]. cbn [JS.bind JS.ret].
  apply IH; auto. intros q' Hq'. apply Hl1. now right.
Qed.

(** A list of patterns with an incomplete record has a first one. *)
Lemma first_incomplete (l : list string) :
  (forall q, In q l -> is_Some (JS.get patterns q)) ->
  (exists q pkg, In q l /\ JS.get patterns q = Some pkg
                 /\ (Pkg._reference pkg = None \/ Pkg._remote pkg = None)) ->
  exists l1 p l2 pkg,
    l = l1 ++ p :: l2
    /\ (forall q, In q l1 ->
          exists pkg', JS.get patterns q = Some pkg'
                       /\ is_Some (Pkg._reference pkg') /\ is_Some (Pkg._remote pkg'))
    /\ JS.get patterns p = Some pkg
    /\ (Pkg._reference pkg = None \/ Pkg._remote pkg = None).
Proof.
induction l as [|x l IH]; intros Hall (q & pkg & Hin & Hg & Hq); [destruct Hin|].
destruct (Hall x (or_introl eq_refl)) as [pkgx Hx].
destruct (Pkg._reference pkgx) as [ref|] eqn:Eref.
2:{ exists [], x, l, pkgx. repeat split; auto. intros ? []. }
destruct (Pkg._remote pkgx) as [remote|] eqn:Erem.
2:{ exists [], x, l, pkgx. repeat split; auto. intros ? []. }
destruct Hin as [<-|Hin].
{ rewrite Hx in Hg. injection Hg as <-. rewrite Eref, Erem in Hq.
  destruct Hq as [Hq|Hq]; discriminate Hq. }
destruct IH as (l1 & p & l2 & pkg' & -> & Hl1 & Hp & Hinc).
- intros y Hy. apply Hall. now right.
- exists q, pkg. auto.
- exists (x :: l1), p, l2, pkg'. repeat split; auto.
  intros y [<-|Hy]; [|now apply Hl1].
  exists pkgx. rewrite Eref, Erem. repeat split; eauto.
Qed.

End WithPatterns.

(** X5: [getLockfile] throws when some package record lacks its reference
    or its remote, and returns no part of a lockfile.  The exception is
    that of the first pattern, in the order of [sortAlpha], whose record is
    incomplete, and the reference is checked before the remote. *)
Theorem getLockfile_incomplete (getName : string -> string)
  (patterns : list (string * Pkg.Manifest)) (p : string) (pkg : Pkg.Manifest) :
  NoDup (JS.keys patterns) ->
  In (p, pkg) patterns ->
  Pkg._reference pkg = None \/ Pkg._remote pkg = None ->
  (getLockfile getName patterns = JS.throw missingReference
   \/ getLockfile getName patterns = JS.throw missingRemote)
  /\ forall l1 l2,
       JS.sort sortAlpha (JS.keys patterns) = l1 ++ p :: l2 ->
       (forall q pkg', In q l1 -> In (q, pkg') patterns ->
          is_Some (Pkg._reference pkg') /\ is_Some (Pkg._remote pkg')) ->
       getLockfile getName patterns
       = JS.throw (match Pkg._reference pkg with
                   | None => missingReference
                   | Some _ => missingRemote
                   end).
Proof.
intros Hnd Hin Hinc.
assert (Hget : forall q, In q (JS.sort sortAlpha (JS.keys patterns)) ->
                 is_Some (JS.get patterns q)).
{ intros q Hq. apply list_elem_of_In in Hq. rewrite sort_Permutation in Hq.
  apply list_elem_of_In in Hq. destruct (JS.get patterns q) eqn:E; [eauto|].
  apply get_None in E. contradiction. }
assert (Hthrow : forall l1 p' l2 pkg',
          JS.sort sortAlpha (JS.keys patterns) = l1 ++ p' :: l2 ->
          (forall q, In q l1 ->
             exists pkg0, JS.get patterns q = Some pkg0
                          /\ is_Some (Pkg._reference pkg0) /\ is_Some (Pkg._remote pkg0)) ->
          JS.get patterns p' = Some pkg' ->
          Pkg._reference pkg' = None \/ Pkg._remote pkg' = None ->
          getLockfile getName patterns
          = JS.throw (match Pkg._reference pkg' with
                      | None => missingReference
                      | Some _ => missingRemote
                      end)).
{ intros l1 p' l2 pkg' Hs Hl1 Hg Hi. unfold getLockfile. rewrite Hs.
  now rewrite (loop_first_incomplete getName patterns l1 l2 p' pkg' _ Hl1 Hg Hi). }
split.
- destruct (first_incomplete patterns (JS.sort sortAlpha (JS.keys patterns)) Hget)
    as (l1 & p' & l2 & pkg' & Hs & Hl1 & Hg & Hi).
  { exists p, pkg. split; [|split; [now apply get_of_In | exact Hinc]].
    apply list_elem_of_In. rewrite sort_Permutation. apply list_elem_of_In.
    eapply In_keys, Hin. }
  rewrite (Hthrow l1 p' l2 pkg' Hs Hl1 Hg Hi).
  destruct (Pkg._reference pkg'); [now right | now left].
- intros l1 l2 Hs Hl1. apply (Hthrow l1 p l2 pkg Hs); [|now apply get_of_In | exact Hinc].
  intros q Hq. destruct (Hget q) as [pkg0 Hg0]; [rewrite Hs; apply in_or_app; now left|].
  exists pkg0. split; [exact Hg0|]. eapply Hl1; [exact Hq|]. eapply get_In, Hg0.
Qed.

Lemma or_empty_blankObjectUndefined {V} (o : option (gmap string V)) :
  JS.or_empty (blankObjectUndefined o) = JS.or_empty o.
Proof.
destruct o as [m|]; [|reflexivity]. cbn [blankObjectUndefined].
destruct (Nat.eqb (size m) 0) eqn:E; [|reflexivity].
apply Nat.eqb_eq, map_size_empty_iff in E. now subst.
Qed.

(** A field with a non-empty value comes back, whether [implodeEntry]
    dropped it or kept it. *)
Lemma drop_fill (x d : string) :
  x <> "" ->
  JS.or_else (if decide (Some x = Some d) then None else Some x) (Some d) = Some x.
Proof.
intros Hx. destruct (decide (Some x = Some d)) as [E|_]; [now rewrite E|].
unfold JS.or_else, JS.truthy. now destruct (String.eqb_spec x "").
Qed.

(** X6: reading back what [getLockfile] wrote.  When every pattern with the
    remote identity key of [p] is bound to the package record of [p], and
    the name, the uid and the registry of this record are not empty, the
    entry of [p] in the lockfile, brought to its full form by
    [explodeEntry] for [p], has the name, version, uid, resolved string and
    registry of the record, whichever pattern the shared entry was made
    for; the name that a pattern with another name has set is what makes
    this hold.  The dependency maps come back with the empty object for a
    missing one, [peerDependencies] without it. *)
Theorem getLockfile_read_back (getName : string -> string)
  (patterns : list (string * Pkg.Manifest)) (p k : string)
  (pkg : Pkg.Manifest) (ref : Pkg.PackageReference) (remote : Pkg.PackageRemote)
  (out : list (string * nat) * list Entry) :
  NoDup (JS.keys patterns) ->
  getLockfile getName patterns = JS.ret out ->
  JS.get patterns p = Some pkg ->
  Pkg._reference pkg = Some ref ->
  Pkg._remote pkg = Some remote ->
  keyForRemote remote = Some k ->
  uniform patterns k pkg ->
  Pkg.name pkg <> "" ->
  Pkg._uid pkg <> "" ->
  Pkg.registry remote <> "" ->
  exists e,
    entryOf out p = Some e
    /\ explodeEntry getName p e
       = {| name := Some (Pkg.name pkg);
            version := Pkg.version pkg;
            resolved := Pkg.resolved remote;
            registry := Some (Pkg.registry remote);
            uid := Some (Pkg._uid pkg);
            permissions := JS.or_empty (Pkg.permissions ref);
            optionalDependencies := JS.or_empty (Pkg.optionalDependencies pkg);
            peerDependencies := blankObjectUndefined (Pkg.peerDependencies pkg);
            dependencies := JS.or_empty (Pkg.dependencies pkg) |}.
Proof.
intros Hnd Hout Hg Href Hrem Hk Hu Hname Huid Hreg.
pose proof (GetLockfileProps.getLockfile_returns_complete getName patterns out Hnd Hout)
  as Hc.
destruct (GetLockfileProps.getLockfile_Inv getName patterns Hnd Hc) as (st & E & HI).
rewrite E in Hout. injection Hout as <-.
assert (Hkeyed : keyOf patterns p k) by (exists pkg, remote; auto).
assert (Hdone : forall q, keyOf patterns q k ->
          In q (JS.sort sortAlpha (JS.keys patterns))).
{ intros q Hq. apply list_elem_of_In. rewrite sort_Permutation.
  apply list_elem_of_In. eapply GetLockfileProps.keyed_In_keys, Hq. }
destruct (inv_shared _ _ _ _ HI p k (Hdone p Hkeyed) Hkeyed) as (l & Hs & Gl).
destruct (inv_owner _ _ _ _ HI k l Hs)
  as (p0 & pkg0 & ref0 & remote0 & e & d1 & d2 & _ & _ & G0 & Gref & Grem & Gk & He & Hform).
assert (pkg0 = pkg) by (eapply Hu; eauto). subst pkg0.
assert (ref0 = ref) by congruence. assert (remote0 = remote) by congruence.
subst ref0 remote0.
assert (Hnamed : named patterns k (Pkg.name pkg)).
{ intros q pkg' remote' Hq Hr Hk'. now rewrite (Hu q pkg' remote' Hq Hr Hk'). }
destruct (inv_name _ _ _ _ HI k l (Pkg.name pkg) Hs Hnamed) as (e' & He' & Hn).
assert (e' = e) by congruence. subst e'.
exists e. split; [unfold entryOf; cbn [fst snd]; now rewrite Gl|].
assert (Hrest : forall e0,
          (e0 = implodeEntry getName p0 (fullEntryOf pkg ref remote)
           \/ exists n, e0 = set_name n (implodeEntry getName p0 (fullEntryOf pkg ref remote))) ->
          version e0 = Pkg.version pkg
          /\ resolved e0 = Pkg.resolved remote
          /\ JS.or_else (registry e0) (Some "npm") = Some (Pkg.registry remote)
          /\ JS.or_else (uid e0) (Some (version e0)) = Some (Pkg._uid pkg)
          /\ JS.or_empty (permissions e0) = JS.or_empty (Pkg.permissions ref)
          /\ JS.or_empty (optionalDependencies e0)
             = JS.or_empty (Pkg.optionalDependencies pkg)
          /\ peerDependencies e0 = blankObjectUndefined (Pkg.peerDependencies pkg)
          /\ JS.or_empty (dependencies e0) = JS.or_empty (Pkg.dependencies pkg)).
{ intros e0 [->|[n ->]];
    cbn [set_name implodeEntry fullEntryOf name version resolved registry uid
         permissions optionalDependencies peerDependencies dependencies];
    rewrite !or_empty_blankObjectUndefined, !drop_fill by assumption;
    repeat split. }
destruct (Hrest e Hform) as (Hv & Hrs & Hrg & Hui & Hpm & Hod & Hpd & Hd).
assert (Hnm : JS.or_else (name e) (Some (getName p)) = Some (Pkg.name pkg)).
{ destruct Hn as [[Hnone Hall]|[Hsome _]].
  - rewrite Hnone. cbn. f_equal. apply Hall; auto.
  - rewrite Hsome. unfold JS.or_else, JS.truthy.
    now destruct (String.eqb_spec (Pkg.name pkg) ""). }
unfold explodeEntry. now rewrite Hnm, Hui, Hv, Hrs, Hrg, Hpm, Hod, Hpd, Hd.
Qed.

(** In [patternsIncomplete] the pattern [bar@2] comes first, and its
    record has no remote. *)
Lemma getLockfile_incomplete_patternsIncomplete :
  getLockfile nameSegment Examples.patternsIncomplete = JS.throw missingRemote.
Proof.
assert (Hnd : NoDup (JS.keys Examples.patternsIncomplete)).
{ apply (bool_decide_unpack (NoDup (JS.keys Examples.patternsIncomplete))).
  vm_compute. exact I. }
destruct (getLockfile_incomplete nameSegment Examples.patternsIncomplete
            "bar@2" Examples.pkgUnfetched Hnd) as [_ H].
- right. now left.
- now right.
- apply (H [] ["zoo@file:../foo"]).
  + vm_compute. reflexivity.
  + intros q pkg' [].
Defined.

(** In [patternsA] the entry of [foo] is made for [foo@^1.0.0], without
    name; [zoo@file:../foo] reads the name [foo] from it. *)
Lemma getLockfile_read_back_patternsA :
  exists out e,
    getLockfile nameSegment Examples.patternsA = JS.ret out
    /\ entryOf out "zoo@file:../foo" = Some e
    /\ name (explodeEntry nameSegment "zoo@file:../foo" e) = Some "foo"
    /\ uid (explodeEntry nameSegment "zoo@file:../foo" e) = Some "1.0.0".
Proof.
assert (Hnd : NoDup (JS.keys Examples.patternsA)).
{ apply (bool_decide_unpack (NoDup (JS.keys Examples.patternsA))). vm_compute. exact I. }
eexists.
destruct (getLockfile_read_back nameSegment Examples.patternsA "zoo@file:../foo"
            "https://registry.example/foo-1.0.0.tgz#abc" Examples.pkgFoo
            {| Pkg.permissions := None |}
            {| Pkg.type := "tarball";
               Pkg.registry := "npm";
               Pkg.hash := Some "abc";
               Pkg.reference := Some "https://registry.example/foo-1.0.0.tgz";
               Pkg.resolved := Some "https://registry.example/foo-1.0.0.tgz#abc" |}
            _ Hnd ltac:(vm_compute; reflexivity))
  as (e & He & Hfull).
- reflexivity.
- reflexivity.
- reflexivity.
- reflexivity.
- intros pattern pkg' remote Hg Hr Hk. apply get_In in Hg.
  destruct Hg as [H|[H|[H|[]]]]; injection H as <- <-; [reflexivity | reflexivity |].
  cbn in Hr. injection Hr as <-. vm_compute in Hk. discriminate Hk.
- discriminate.
- discriminate.
- discriminate.
- exists e. split; [reflexivity|]. split; [exact He|]. now rewrite Hfull.
Defined.

End LockfileProps.

(** ** [getLockfile]: patterns without remote identity key *)

Module OwnEntryProps.

Import Lockfile ObjectProps SortProps.

Section WithPatterns.

Variable getName : string -> string.
Variable patterns : list (string * Pkg.Manifest).

#[local] Abbreviation body := (getLockfile_body getName patterns).
#[local] Abbreviation loop := (getLockfile_loop getName patterns).
#[local] Abbreviation inv := (Inv getName patterns).
#[local] Abbreviation own := (ownEntries getName patterns).

(** One turn of the loop keeps the entries of the patterns without key. *)
Lemma body_own (done : list string) (st st' : Build) (p : string)
  (pkg : Pkg.Manifest) (ref : Pkg.PackageReference) (remote : Pkg.PackageRemote) :
  inv done st -> own done st -> ~ In p done ->
  JS.get patterns p = Some pkg ->
  Pkg._reference pkg = Some ref ->
  Pkg._remote pkg = Some remote ->
  body st p = JS.ret st' ->
  own (done ++ [p]) st'.
Proof.
intros HI HO Hp Hg Href Hrem Hb.
unfold getLockfile_body in Hb. rewrite Hg in Hb. cbn [JS.bind JS.ret] in Hb.
rewrite Href in Hb. cbn [JS.bind JS.ret] in Hb.
rewrite Hrem in Hb. cbn [JS.bind JS.ret] in Hb.
assert (Hold : forall q0 l,
          In q0 done ->
          JS.get (lockfile st) q0 = Some l ->
          (forall k, seen st !! k <> Some l) ->
          (forall q, q <> q0 -> JS.get (lockfile st) q <> Some l) ->
          forall l',
            l' <> l ->
            JS.get (JS.set (lockfile st) p l') q0 = Some l
            /\ forall q, q <> q0 -> JS.get (JS.set (lockfile st) p l') q <> Some l).
{ intros q0 l Hq0 Hl Hseen Hother l' Hne.
  assert (p <> q0) by (intros ->; contradiction).
  split.
  - rewrite get_set. now destruct (String.eqb_spec p q0).
  - intros q Hq. rewrite get_set. destruct (String.eqb_spec p q); [congruence|].
    now apply Hother. }
destruct (match keyForRemote remote with
          | Some k => seen st !! k
          | None => None
          end) as [l'|] eqn:Eseen.
- (* the entry of an earlier pattern is used *)
  destruct (keyForRemote remote) as [k|] eqn:Ek; [|discriminate Eseen].
  injection Hb as <-. intros q0 pkg0 ref0 remote0 Hin Hg0 Href0 Hrem0 Hk0.
  apply in_app_or in Hin as [Hin|[<-|[]]].
  2:{ rewrite Hg in Hg0. injection Hg0 as <-. rewrite Hrem in Hrem0.
      injection Hrem0 as <-. congruence. }
  destruct (HO q0 pkg0 ref0 remote0 Hin Hg0 Href0 Hrem0 Hk0)
    as (l & Hl & Hh & Hseen & Hother).
  assert (Hne : l' <> l) by (intros ->; now apply (Hseen k)).
  destruct (Hold q0 l Hin Hl Hseen Hother l' Hne) as [G1 G2].
  exists l. cbn [lockfile seen heap]. split; [exact G1|]. split; [|split; auto].
  destruct (heap st !! l') as [e|]; [|exact Hh].
  destruct (negb (JS.truthy (name e)) && negb (String.eqb (getName p) (Pkg.name pkg)));
    [|exact Hh].
  now rewrite list_lookup_insert_ne.
- (* a new entry is made *)
  injection Hb as <-. intros q0 pkg0 ref0 remote0 Hin Hg0 Href0 Hrem0 Hk0.
  cbn [lockfile seen heap].
  apply in_app_or in Hin as [Hin|[<-|[]]].
  + destruct (HO q0 pkg0 ref0 remote0 Hin Hg0 Href0 Hrem0 Hk0)
      as (l & Hl & Hh & Hseen & Hother).
    pose proof (inv_bound _ _ _ _ HI q0 l Hl) as Hlt.
    assert (Hne : length (heap st) <> l) by lia.
    destruct (Hold q0 l Hin Hl Hseen Hother _ Hne) as [G1 G2].
    exists l. split; [exact G1|]. split; [|split; [|exact G2]].
    * rewrite lookup_app_l by exact Hlt. exact Hh.
    * intros k0. destruct (keyForRemote remote) as [k|]; [|apply Hseen].
      destruct (decide (k = k0)) as [<-|Hk].
      -- rewrite lookup_insert_eq. congruence.
      -- rewrite lookup_insert_ne by exact Hk. apply Hseen.
  + rewrite Hg in Hg0. injection Hg0 as <-. rewrite Href in Href0. injection Href0 as <-.
    rewrite Hrem in Hrem0. injection Hrem0 as <-. rewrite Hk0.
    exists (length (heap st)). split; [|split; [|split]].
    * now rewrite get_set, String.eqb_refl.
    * now rewrite list_lookup_middle.
    * intros k Hk. apply (inv_seen _ _ _ _ HI) in Hk. lia.
    * intros q Hq. rewrite get_set. destruct (String.eqb_spec p q); [congruence|].
      intros Hl. apply (inv_bound _ _ _ _ HI) in Hl. lia.
Qed.

Lemma loop_own (rest done : list string) (st : Build) :
  inv done st -> own done st ->
  NoDup (done ++ rest) ->
  (forall p, In p rest ->
     exists pkg, JS.get patterns p = Some pkg
                 /\ is_Some (Pkg._reference pkg) /\ is_Some (Pkg._remote pkg)) ->
  exists st',
    loop st rest = JS.ret st' /\ own (done ++ rest) st'.
Proof.
revert done st. induction rest as [|p rest IH]; intros done st HI HO Hnd Hall.
- exists st. rewrite app_nil_r. now split.
- destruct (Hall p) as (pkg & Hg & [ref Href] & [remote Hrem]); [now left|].
  assert (Hp : ~ In p done).
  { intros Hin. apply NoDup_app in Hnd as (_ & Hd & _).
    apply (Hd p); [now apply list_elem_of_In | left]. }
  destruct (GetLockfileProps.body_Inv getName patterns done st p pkg ref remote
              HI Hp Hg Href Hrem) as (st1 & E1 & HI1).
  pose proof (body_own done st st1 p pkg ref remote HI HO Hp Hg Href Hrem E1) as HO1.
  destruct (IH (done ++ [p]) st1 HI1 HO1) as (st' & E' & HO').
  + now rewrite <- app_assoc.
  + intros q Hq. apply Hall. now right.
  + exists st'. cbn [getLockfile_loop]. rewrite E1. cbn [JS.bind].
    rewrite <- app_assoc in HO'. now split.
Qed.

End WithPatterns.

(** X7: a pattern whose remote has no identity key (no [resolved], and no
    reference with hash) is bound, in the lockfile that [getLockfile]
    returns, to the entry that [implodeEntry] makes of its own package
    record: this entry is bound to no other pattern, also not to a pattern
    with the same package record, and no name is set on it afterwards. *)
Theorem getLockfile_keyless_own_entry (getName : string -> string)
  (patterns : list (string * Pkg.Manifest)) (p : string)
  (pkg : Pkg.Manifest) (ref : Pkg.PackageReference) (remote : Pkg.PackageRemote)
  (out : list (string * nat) * list Entry) :
  NoDup (JS.keys patterns) ->
  getLockfile getName patterns = JS.ret out ->
  JS.get patterns p = Some pkg ->
  Pkg._reference pkg = Some ref ->
  Pkg._remote pkg = Some remote ->
  keyForRemote remote = None ->
  exists l,
    JS.get (fst out) p = Some l
    /\ snd out !! l = Some (implodeEntry getName p (fullEntryOf pkg ref remote))
    /\ forall q, q <> p -> JS.get (fst out) q <> Some l.
Proof.
intros Hnd Hout Hg Href Hrem Hk.
pose proof (GetLockfileProps.getLockfile_returns_complete getName patterns out Hnd Hout)
  as Hc.
destruct (loop_own getName patterns (JS.sort sortAlpha (JS.keys patterns)) []
            {| lockfile := []; seen := ∅; heap := [] |})
  as (st & E & HO).
- apply GetLockfileProps.Inv_init.
- intros q pkg0 ref0 remote0 [].
- cbn [app]. now rewrite sort_Permutation.
- intros q Hq. apply list_elem_of_In in Hq. rewrite sort_Permutation in Hq.
  apply list_elem_of_In in Hq. destruct (JS.get patterns q) as [pkg0|] eqn:Eg.
  + exists pkg0. split; [reflexivity|]. eapply Hc, get_In, Eg.
  + apply get_None in Eg. contradiction.
- unfold getLockfile in Hout. rewrite E in Hout. injection Hout as <-. cbn [fst snd].
  destruct (HO p pkg ref remote) as (l & Hl & Hh & _ & Hother); auto.
  + cbn [app]. apply list_elem_of_In. rewrite sort_Permutation. apply list_elem_of_In.
    eapply In_keys, get_In, Hg.
  + exists l. auto.
Qed.

(** The two patterns of [patternsLocal] are bound to one package record
    without key, and to two entries. *)
Lemma getLockfile_keyless_own_entry_patternsLocal :
  exists out l,
    getLockfile nameSegment Examples.patternsLocal = JS.ret out
    /\ JS.get (fst out) "qux@file:../baz" = Some l
    /\ JS.get (fst out) "baz@file:../baz" <> Some l.
Proof.
assert (Hnd : NoDup (JS.keys Examples.patternsLocal)).
{ apply (bool_decide_unpack (NoDup (JS.keys Examples.patternsLocal))).
  vm_compute. exact I. }
eexists.
destruct (getLockfile_keyless_own_entry nameSegment Examples.patternsLocal
            "qux@file:../baz" Examples.pkgLocal
            {| Pkg.permissions := None |}
            {| Pkg.type := "copy";
               Pkg.registry := "npm";
               Pkg.hash := None;
               Pkg.reference := Some "../baz";
               Pkg.resolved := None |}
            _ Hnd ltac:(vm_compute; reflexivity))
  as (l & Hl & _ & Hother).
- reflexivity.
- reflexivity.
- reflexivity.
- reflexivity.
- exists l. split; [reflexivity|]. split; [exact Hl|]. apply Hother. discriminate.
Defined.

End OwnEntryProps.

(** ** Strings cut at a separator: [indexOf], [lastIndexOf], [split] *)

Module CutProps.

Import JS StringProps.

Lemma startsWith_app (s p x : string) :
  startsWith s p = true -> startsWith (s +:+ x) p = true.
Proof.
revert s. induction p as [|c p IH]; intros s H; [apply startsWith_nil|].
destruct s as [|d s]; [discriminate H|].
rewrite append_String. cbn [startsWith] in *.
apply andb_prop in H as [-> H]. now rewrite IH.
Qed.

Lemma startsWith_self (p x : string) : startsWith (p +:+ x) p = true.
Proof.
induction p as [|c p IH]; [apply startsWith_nil|].
rewrite append_String. cbn [startsWith]. now rewrite Ascii.eqb_refl, IH.
Qed.

Lemma startsWith_cut (s p : string) :
  startsWith s p = true -> exists b, s = p +:+ b.
Proof.
revert s. induction p as [|c p IH]; intros s H; [now exists s|].
destruct s as [|d s]; [discriminate H|]. cbn [startsWith] in H.
apply andb_prop in H as [Hc H]. apply Ascii.eqb_eq in Hc as ->.
destruct (IH s H) as [b ->]. now exists b.
Qed.

Lemma includes_inside (a p x : string) : includes (a +:+ p +:+ x) p = true.
Proof.
induction a as [|c a IH]; rewrite includes_eq.
- now rewrite append_nil_l, startsWith_self.
- rewrite append_String, IH. apply orb_true_r.
Qed.

Lemma includes_nil (p : string) : p <> "" -> includes "" p = false.
Proof. destruct p; [congruence | reflexivity]. Qed.

(** The first occurrence of a non-empty text. *)
Lemma indexOf_from_cut (i : Z) (s p : string) :
  p <> "" ->
  -1 < indexOf_from i s p ->
  exists a b, s = a +:+ p +:+ b
              /\ indexOf_from i s p = i + len a
              /\ includes a p = false.
Proof.
intros Hp. revert i. induction s as [|c s IH]; intros i; rewrite indexOf_from_eq;
  destruct (startsWith _ p) eqn:E.
- intros _. apply startsWith_cut in E as [b E]. exists "", b.
  rewrite append_nil_l, includes_nil by assumption. repeat split; auto.
  unfold len. simpl. lia.
- lia.
- intros _. apply startsWith_cut in E as [b E]. exists "", b.
  rewrite append_nil_l, includes_nil by assumption. repeat split; auto.
  unfold len. simpl. lia.
- intros H. destruct (IH (i + 1) H) as (a & b & -> & Hi & Ha).
  exists (String c a), b. rewrite append_String, len_String. split; [reflexivity|].
  split; [lia|]. rewrite includes_eq, Ha, orb_false_r.
  destruct (startsWith (String c a) p) eqn:E'; [|reflexivity].
  apply (startsWith_app _ _ (p +:+ b)) in E'. rewrite append_String in E'. congruence.
Qed.

Lemma indexOf_cut (s p : string) :
  p <> "" ->
  -1 < indexOf s p ->
  exists a b, s = a +:+ p +:+ b /\ indexOf s p = len a /\ includes a p = false.
Proof.
intros Hp H. destruct (indexOf_from_cut 0 s p Hp H) as (a & b & Hs & Hi & Ha).
exists a, b. unfold indexOf. rewrite Hi. repeat split; auto.
Qed.

(** The first occurrence of a code unit, with the two slices that
    [parseReference] takes around it. *)
Lemma cut_first (s : string) (c : ascii) :
  -1 < indexOf s (String c "") ->
  exists a b, s = a +:+ String c b
              /\ includes a (String c "") = false
              /\ slice s 0 (indexOf s (String c "")) = a
              /\ slice_from s (indexOf s (String c "") + 1) = b.
Proof.
intros H. destruct (indexOf_cut s (String c "") ltac:(discriminate) H)
  as (a & b & Hs & Hi & Ha).
exists a, b. rewrite Hi. change (String c "" +:+ b) with (String c b) in Hs. subst s.
repeat split; auto; [apply slice_prefix | apply slice_from_suffix].
Qed.

(** The last occurrence of a code unit. *)
Lemma last_occurrence (s : string) (c : ascii) :
  includes s (String c "") = true ->
  exists a b, s = a +:+ String c b /\ includes b (String c "") = false.
Proof.
induction s as [|x s IH]; [discriminate|]. rewrite includes_char_String.
destruct (includes s (String c "")) eqn:E.
- intros _. destruct (IH eq_refl) as (a & b & -> & Hb). now exists (String x a), b.
- rewrite orb_false_r. intros Hx. apply Ascii.eqb_eq in Hx as ->. now exists "", s.
Qed.

Lemma cut_last (s : string) (c : ascii) :
  -1 < lastIndexOf s (String c "") ->
  exists a b, s = a +:+ String c b
              /\ includes b (String c "") = false
              /\ slice s 0 (lastIndexOf s (String c "")) = a
              /\ slice_from s (lastIndexOf s (String c "") + 1) = b.
Proof.
intros H. unfold lastIndexOf in H.
destruct (lastIndexOf_from_range 0 s (String c "")) as [[H1 _]|[_ H2]]; [lia | lia |].
destruct (last_occurrence s c H2) as (a & b & -> & Hb).
exists a, b. rewrite lastIndexOf_char by assumption.
repeat split; auto; [apply slice_prefix | apply slice_from_suffix].
Qed.

(** An occurrence is found. *)
Lemma indexOf_found (s p : string) : includes s p = true -> -1 < indexOf s p.
Proof.
intros H. unfold indexOf.
destruct (indexOf_from_range 0 s p) as [[_ H2]|[H1 _]]; [lia | congruence | lia].
Qed.

Lemma lastIndexOf_found (s p : string) : includes s p = true -> -1 < lastIndexOf s p.
Proof.
intros H. unfold lastIndexOf.
destruct (lastIndexOf_from_range 0 s p) as [[_ H2]|[H1 _]]; [lia | congruence | lia].
Qed.

(** The text after the first occurrence of a code unit ends like the text
    after any of its occurrences. *)
Lemma after_first (a b x y : string) (c : ascii) :
  a +:+ String c b = x +:+ String c y ->
  includes a (String c "") = false ->
  exists z, b = z +:+ y.
Proof.
revert x. induction a as [|a0 a IH]; intros x H Ha.
- rewrite append_nil_l in H. destruct x as [|x0 x].
  + rewrite append_nil_l in H. injection H as ->. now exists "".
  + rewrite append_String in H. injection H as _ ->.
    exists (x +:+ String c ""). now rewrite append_assoc.
- rewrite includes_char_String in Ha. apply orb_false_elim in Ha as [Ha0 Ha].
  rewrite append_String in H. destruct x as [|x0 x].
  + rewrite append_nil_l in H. injection H as -> _. now rewrite Ascii.eqb_refl in Ha0.
  + rewrite append_String in H. injection H as _ H. now apply (IH x).
Qed.

(** The text after the last occurrence of a code unit ends with every end
    of the string that does not contain the code unit. *)
Lemma after_last (a b t e : string) (c : ascii) :
  a +:+ String c b = t +:+ e ->
  includes e (String c "") = false ->
  exists w, b = w +:+ e.
Proof.
revert t. induction a as [|a0 a IH]; intros t H He.
- rewrite append_nil_l in H. destruct t as [|t0 t].
  + rewrite append_nil_l in H. subst e.
    rewrite includes_char_String, Ascii.eqb_refl in He. discriminate He.
  + rewrite append_String in H. injection H as _ ->. now exists t.
- rewrite append_String in H. destruct t as [|t0 t].
  + rewrite append_nil_l in H. subst e.
    rewrite includes_char_String, includes_app_char, includes_char_String,
      Ascii.eqb_refl, orb_true_r, orb_true_r in He. discriminate He.
  + rewrite append_String in H. injection H as _ H. now apply (IH t).
Qed.

Lemma slice_from_app (a b : string) : slice_from (a +:+ b) (len a) = b.
Proof.
unfold slice_from. pose proof (len_nonneg a). pose proof (len_nonneg b).
rewrite clamp_in_range by (rewrite len_app; lia).
unfold len. rewrite Nat2Z.id. apply drop_app.
Qed.

Lemma slice_from_1 (c : ascii) (s : string) : slice_from (String c s) 1 = s.
Proof. apply (slice_from_app (String c "") s). Qed.

(** [split] on a string without separator, and at the first separator. *)
Lemma split_none (c : ascii) (s : string) :
  includes s (String c "") = false -> split c s = (s, []).
Proof.
induction s as [|x s IH]; [reflexivity|]. rewrite includes_char_String.
intros H. apply orb_false_elim in H as [Hx Hs]. cbn [split]. rewrite (IH Hs).
rewrite Ascii.eqb_sym, Hx. reflexivity.
Qed.

Lemma split_cut (c : ascii) (a b : string) :
  includes a (String c "") = false ->
  split c (a +:+ String c b) = (a, fst (split c b) :: snd (split c b)).
Proof.
induction a as [|x a IH]; intros Ha.
- rewrite append_nil_l. cbn [split]. rewrite Ascii.eqb_refl. now destruct (split c b).
- rewrite includes_char_String in Ha. apply orb_false_elim in Ha as [Hx Ha].
  rewrite append_String. cbn [split]. rewrite (IH Ha), Ascii.eqb_sym, Hx. reflexivity.
Qed.

Lemma first_occurrence (s : string) (c : ascii) :
  includes s (String c "") = true ->
  exists a b, s = a +:+ String c b /\ includes a (String c "") = false.
Proof.
intros H. destruct (cut_first s c (indexOf_found _ _ H)) as (a & b & Hs & Ha & _).
eauto.
Qed.

End CutProps.

(** ** Patterns of opam packages: [parseFragment] and [isVersion] *)

Module PatternProps.

Import JS StringProps CutProps OpamResolver.

Section WithScope.

Variable OPAM_SCOPE : string.
Variable semver_validRange : string -> option string.

#[local] Abbreviation parseFragment := (parseFragment OPAM_SCOPE).
#[local] Abbreviation isVersion := (isVersion OPAM_SCOPE semver_validRange).

Lemma parseFragment_tail (tail : string) :
  parseFragment ("@" +:+ OPAM_SCOPE +:+ "/" +:+ tail)
  = {| fragmentName := fst (split "@" tail);
       fragmentVersion := match snd (split "@" tail) with
                          | version :: _ => version
                          | [] => "*"
                          end |}.
Proof.
unfold OpamResolver.parseFragment.
replace ("@" +:+ OPAM_SCOPE +:+ "/" +:+ tail)
  with (("@" +:+ OPAM_SCOPE +:+ "/") +:+ tail)
  by (now rewrite !append_assoc).
rewrite slice_from_app. now destruct (split "@" tail).
Qed.

(** X8: [parseFragment] drops as many code units as [@OPAM_SCOPE/] has,
    whatever they are, and cuts the rest at its first [@]: the name is the
    text before it, the version the text after it up to the next [@], and
    [*] when there is no [@].  A version that is written, even empty, is
    kept. *)
Theorem parseFragment_cut (prefix name : string) :
  len prefix = len ("@" +:+ OPAM_SCOPE +:+ "/") ->
  includes name "@" = false ->
  parseFragment (prefix +:+ name)
  = {| fragmentName := name; fragmentVersion := "*" |}
  /\ forall version,
       includes version "@" = false ->
       parseFragment (prefix +:+ name +:+ "@" +:+ version)
       = {| fragmentName := name; fragmentVersion := version |}.
Proof.
intros Hlen Hname. unfold OpamResolver.parseFragment. rewrite <- Hlen. split.
- rewrite slice_from_app, split_none by assumption. reflexivity.
- intros version Hv. rewrite slice_from_app.
  change ("@" +:+ version) with (String "@" version).
  rewrite split_cut, (split_none _ version) by assumption. reflexivity.
Qed.

Lemma isVersion_scoped (rest : string) :
  isVersion ("@" +:+ OPAM_SCOPE +:+ rest)
  = match snd (split "@" (OPAM_SCOPE +:+ rest)) with
    | [] => true
    | constraint :: _ => truthy (semver_validRange constraint)
    end.
Proof.
unfold OpamResolver.isVersion.
replace ("@" +:+ OPAM_SCOPE +:+ rest) with (("@" +:+ OPAM_SCOPE) +:+ rest)
  by (now rewrite !append_assoc).
rewrite startsWith_self. cbn [negb].
rewrite append_assoc. change ("@" +:+ OPAM_SCOPE +:+ rest)
  with (String "@" (OPAM_SCOPE +:+ rest)).
cbn [first]. destruct (decide (Some "@"%char = Some "@"%char)); [|congruence].
rewrite slice_from_1. now destruct (split "@" (OPAM_SCOPE +:+ rest)).
Qed.

(** X9: [isVersion] rejects a pattern that does not start with
    [@OPAM_SCOPE]; it accepts every pattern that does and has no other
    [@]; and a pattern [@OPAM_SCOPE...@constraint] is accepted exactly when
    [semver.validRange] gives a non-empty range for the constraint.  The
    text between [@OPAM_SCOPE] and the constraint is not looked at: the
    scope need not end where [OPAM_SCOPE] ends. *)
Theorem isVersion_cut :
  includes OPAM_SCOPE "@" = false ->
  (forall pattern,
     startsWith pattern ("@" +:+ OPAM_SCOPE) = false -> isVersion pattern = false)
  /\ (forall rest,
        includes rest "@" = false ->
        isVersion ("@" +:+ OPAM_SCOPE +:+ rest) = true)
  /\ (forall rest constraint,
        includes rest "@" = false ->
        includes constraint "@" = false ->
        isVersion ("@" +:+ OPAM_SCOPE +:+ rest +:+ "@" +:+ constraint)
        = truthy (semver_validRange constraint)).
Proof.
intros Hscope. split; [|split].
- intros pattern H. unfold OpamResolver.isVersion. now rewrite H.
- intros rest Hrest. rewrite isVersion_scoped, split_none; [reflexivity|].
  now rewrite includes_app_char, Hscope, Hrest.
- intros rest constraint Hrest Hc. rewrite isVersion_scoped.
  replace (OPAM_SCOPE +:+ rest +:+ "@" +:+ constraint)
    with ((OPAM_SCOPE +:+ rest) +:+ String "@" constraint)
    by (now rewrite !append_assoc).
  rewrite split_cut by (now rewrite includes_app_char, Hscope, Hrest).
  cbn [snd]. now rewrite (split_none _ constraint Hc).
Qed.

(** X10: the version that the resolver takes from a pattern [@OPAM_SCOPE/...]
    that [isVersion] accepts is [*], for a pattern without constraint, or a
    constraint for which [semver.validRange] gives a non-empty range: the
    two functions cut the pattern at the same place. *)
Theorem isVersion_parseFragment (tail : string) :
  includes OPAM_SCOPE "@" = false ->
  isVersion ("@" +:+ OPAM_SCOPE +:+ "/" +:+ tail) = true ->
  let fragment := parseFragment ("@" +:+ OPAM_SCOPE +:+ "/" +:+ tail) in
  includes (fragmentName fragment) "@" = false
  /\ ((includes tail "@" = false /\ fragmentVersion fragment = "*")
      \/ truthy (semver_validRange (fragmentVersion fragment)) = true).
Proof.
intros Hscope H fragment. unfold fragment. rewrite parseFragment_tail.
cbn [fragmentName fragmentVersion]. rewrite isVersion_scoped in H.
destruct (includes tail "@") eqn:Et.
- destruct (first_occurrence tail "@" Et) as (a & b & -> & Ha).
  rewrite split_cut by assumption. cbn [fst snd]. split; [exact Ha|]. right.
  replace (OPAM_SCOPE +:+ "/" +:+ a +:+ String "@" b)
    with ((OPAM_SCOPE +:+ "/" +:+ a) +:+ String "@" b) in H
    by (now rewrite !append_assoc).
  rewrite split_cut in H; [exact H|].
  now rewrite !includes_app_char, Hscope, Ha.
- rewrite split_none by assumption. cbn [fst snd]. split; [exact Et|]. left. auto.
Qed.

End WithScope.

(** The pattern [@opam/lwt@>=2.0.0], and the pattern [@opam/lwt]. *)
Lemma parseFragment_cut_lwt :
  OpamResolver.parseFragment "opam" "@opam/lwt"
  = {| fragmentName := "lwt"; fragmentVersion := "*" |}
  /\ OpamResolver.parseFragment "opam" "@opam/lwt@>=2.0.0"
     = {| fragmentName := "lwt"; fragmentVersion := ">=2.0.0" |}.
Proof.
destruct (parseFragment_cut "opam" "@opam/" "lwt") as [H1 H2].
- reflexivity.
- reflexivity.
- split; [exact H1|]. apply (H2 ">=2.0.0"). reflexivity.
Defined.

(** A pattern of another scope, a pattern whose scope only starts like
    [opam], and a constraint that is no range. *)
Lemma isVersion_cut_samples :
  Sample.isVersion "@esy/lwt@1.0.0" = false
  /\ Sample.isVersion "@opam-alpha/lwt" = true
  /\ Sample.isVersion "@opam/lwt@nightly" = false.
Proof.
destruct (isVersion_cut "opam" Sample.validRange) as (H1 & H2 & H3); [reflexivity|].
split; [apply H1; reflexivity|]. split.
- apply (H2 "-alpha/lwt"). reflexivity.
- apply (H3 "/lwt" "nightly"); reflexivity.
Defined.

(** The pattern [@opam/lwt@^2.0.0] is accepted, and the resolver takes the
    version [^2.0.0] from it. *)
Lemma isVersion_parseFragment_lwt :
  Sample.isVersion "@opam/lwt@^2.0.0" = true
  /\ includes (fragmentName (OpamResolver.parseFragment "opam" "@opam/lwt@^2.0.0")) "@"
     = false
  /\ truthy (Sample.validRange
               (fragmentVersion (OpamResolver.parseFragment "opam" "@opam/lwt@^2.0.0")))
     = true.
Proof.
split; [reflexivity|].
destruct (isVersion_parseFragment "opam" Sample.validRange "lwt@^2.0.0") as [Hn Hv].
- reflexivity.
- reflexivity.
- split; [exact Hn|]. destruct Hv as [[Hno _]|Hv]; [discriminate Hno | exact Hv].
Defined.

End PatternProps.

(** ** References: what [parseReference] accepts *)

Module ReferenceShape.

Import JS StringProps CutProps OpamResolver.

Lemma invariant_inv {A} (cond : bool) (msg : string) (k : unit -> result A) (x : A) :
  bind (invariant cond msg) k = ret x -> cond = true /\ k tt = ret x.
Proof. destruct cond; [auto | discriminate]. Qed.

Lemma invariant_holds {A} (cond : bool) (msg : string) (k : unit -> result A) :
  cond = true -> bind (invariant cond msg) k = k tt.
Proof. now intros ->. Qed.

Lemma found_ltb (i : Z) : -1 < i -> (-1 <? i) = true.
Proof. intros H. now apply Z.ltb_lt. Qed.

(** The part of [parseReference] after the scope. *)
Lemma parse_after_scope (resolution value : string) (scope : option string)
  (ref : OpamPackageReference) :
  (let idx := indexOf value "@" in
   do _ <- invariant (-1 <? idx) (malformed resolution value);
   let name := slice value 0 idx in
   let value := slice_from value (idx + 1) in
   let idx := lastIndexOf value "-" in
   do _ <- invariant (-1 <? idx) (malformed resolution value);
   let version := slice value 0 idx in
   let value := slice_from value (idx + 1) in
   let idx := indexOf value ".tgz" in
   do _ <- invariant (-1 <? idx) (malformed resolution value);
   let uid := slice value 0 idx in
   ret {| name := name;
          fullName := fullNameOf scope name;
          scope := scope;
          ref_version := version;
          uid := uid |}) = ret ref ->
  exists rest,
    value = resolvedOf (name ref) (ref_version ref) (uid ref) +:+ rest
    /\ fullName ref = fullNameOf scope (name ref)
    /\ OpamResolver.scope ref = scope
    /\ includes (name ref) "@" = false
    /\ includes (uid ref) "-" = false
    /\ includes (uid ref) ".tgz" = false.
Proof.
cbv zeta. intros H.
apply invariant_inv in H as [H1 H]. apply Z.ltb_lt in H1.
destruct (cut_first value "@" H1) as (nm & v2 & Hv1 & Hnm & E1 & E2).
rewrite E1, E2 in H.
apply invariant_inv in H as [H2 H]. apply Z.ltb_lt in H2.
destruct (cut_last v2 "-" H2) as (ver & v3 & Hv2 & Hv3 & E3 & E4).
rewrite E3, E4 in H.
apply invariant_inv in H as [H3 H]. apply Z.ltb_lt in H3.
destruct (indexOf_cut v3 ".tgz" ltac:(discriminate) H3) as (u & rest & Hu & Hi & Hut).
rewrite Hi in H. rewrite Hu in H at 1. rewrite slice_prefix in H.
injection H as <-. cbn [name fullName OpamResolver.scope ref_version uid].
exists rest. split; [|repeat split; auto].
- rewrite Hv1, Hv2, Hu. unfold resolvedOf.
  change (String "@" (ver +:+ String "-" (u +:+ ".tgz" +:+ rest)))
    with ("@" +:+ ver +:+ "-" +:+ u +:+ ".tgz" +:+ rest).
  now rewrite !append_assoc.
- rewrite Hu, includes_app_char in Hv3. now apply orb_false_elim in Hv3 as [? _].
Qed.

(** X11: whatever [parseReference] accepts is the reference that [resolve]
    builds from the components it returns, followed by a rest that is not
    looked at: the string is [fullName@version-uid.tgz] and more, the scope
    is without [/], the name without [@], the uid without [-] and without
    [.tgz]. *)
Theorem parseReference_shape (resolution : string) (ref : OpamPackageReference) :
  parseReference resolution = ret ref ->
  exists rest,
    resolution = resolvedOf (fullName ref) (ref_version ref) (uid ref) +:+ rest
    /\ fullName ref = fullNameOf (scope ref) (name ref)
    /\ (forall s, scope ref = Some s -> includes s "/" = false)
    /\ (scope ref = None <-> first resolution <> Some "@"%char)
    /\ includes (name ref) "@" = false
    /\ includes (uid ref) "-" = false
    /\ includes (uid ref) ".tgz" = false.
Proof.
unfold parseReference. cbv zeta.
destruct (decide (first resolution = Some "@"%char)) as [Hat|Hat].
- intros H. destruct (-1 <? indexOf resolution "/") eqn:H0;
    cbn [invariant bind ret throw] in H; [|discriminate H].
  apply Z.ltb_lt in H0.
  destruct (cut_first resolution "/" H0) as (a & b & Hr & Ha & Hsl & Hsf).
  rewrite Hsf in H.
  assert (Hidx : indexOf resolution "/" = len a).
  { rewrite Hr. now apply indexOf_char. }
  rewrite Hidx in H.
  destruct a as [|a0 sc]; [rewrite Hr in Hat; discriminate Hat|].
  assert (a0 = "@"%char) as -> by (rewrite Hr in Hat; now injection Hat).
  assert (Hsc : slice resolution 1 (len (String "@" sc)) = sc).
  { rewrite Hr, len_String, append_String. apply slice_after_first. }
  rewrite Hsc in H.
  apply parse_after_scope in H as (rest & Hb & Hfull & Hscope & Hn & Hu & Ht).
  exists rest. rewrite Hfull, Hscope. cbn [fullNameOf].
  split; [|split; [reflexivity|split; [|split; [|auto]]]].
  + rewrite Hr, Hb. unfold resolvedOf.
    change (String "/" (name ref +:+ "@" +:+ ref_version ref +:+ "-" +:+ uid ref
                          +:+ ".tgz" +:+ rest))
      with ("/" +:+ name ref +:+ "@" +:+ ref_version ref +:+ "-" +:+ uid ref
              +:+ ".tgz" +:+ rest).
    change (String "@" sc) with ("@" +:+ sc). now rewrite !append_assoc.
  + intros s Hs. injection Hs as <-. rewrite includes_char_String in Ha.
    now apply orb_false_elim in Ha as [_ ?].
  + split; [discriminate | contradiction].
- cbn [bind ret]. intros H.
  apply parse_after_scope in H as (rest & Hb & Hfull & Hscope & Hn & Hu & Ht).
  exists rest. rewrite Hfull, Hscope. cbn [fullNameOf].
  split; [exact Hb|]. split; [reflexivity|]. split; [discriminate|].
  split; [tauto|auto].
Qed.

(** The part of [parseReference] after the scope returns on every string
    that ends with [@version-uid.tgz]. *)
Lemma parse_after_scope_returns (resolution value y version u : string)
  (scope : option string) :
  value = y +:+ String "@" (version +:+ String "-" (u +:+ ".tgz")) ->
  exists ref,
    (let idx := indexOf value "@" in
     do _ <- invariant (-1 <? idx) (malformed resolution value);
     let name := slice value 0 idx in
     let value := slice_from value (idx + 1) in
     let idx := lastIndexOf value "-" in
     do _ <- invariant (-1 <? idx) (malformed resolution value);
     let version := slice value 0 idx in
     let value := slice_from value (idx + 1) in
     let idx := indexOf value ".tgz" in
     do _ <- invariant (-1 <? idx) (malformed resolution value);
     let uid := slice value 0 idx in
     ret {| name := name;
            fullName := fullNameOf scope name;
            scope := scope;
            ref_version := version;
            uid := uid |}) = ret ref.
Proof.
intros Hv.
assert (H1 : -1 < indexOf value "@").
{ apply indexOf_found. rewrite Hv, includes_app_char, includes_char_String,
    Ascii.eqb_refl. apply orb_true_r. }
destruct (cut_first value "@" H1) as (a & b & Hab & Ha & _ & E2).
rewrite Hab in Hv. destruct (after_first _ _ _ _ _ Hv Ha) as (z & Hb).
assert (Hb' : b = (z +:+ version) +:+ String "-" (u +:+ ".tgz")).
{ rewrite Hb. now rewrite append_assoc. }
assert (H2 : -1 < lastIndexOf b "-").
{ apply lastIndexOf_found. rewrite Hb', includes_app_char, includes_char_String,
    Ascii.eqb_refl. apply orb_true_r. }
destruct (cut_last b "-" H2) as (a3 & b3 & Hab3 & Hb3 & _ & E4).
assert (Hend : exists w, b3 = w +:+ ".tgz").
{ apply (after_last a3 b3 (z +:+ version +:+ String "-" u) ".tgz" "-").
  - rewrite <- Hab3, Hb'. now rewrite !append_assoc.
  - reflexivity. }
destruct Hend as [w Hw].
assert (H3 : -1 < indexOf b3 ".tgz").
{ apply indexOf_found. rewrite Hw. apply (includes_inside w ".tgz" ""). }
eexists. cbv zeta.
rewrite (invariant_holds _ _ _ (found_ltb _ H1)), E2.
rewrite (invariant_holds _ _ _ (found_ltb _ H2)), E4.
rewrite (invariant_holds _ _ _ (found_ltb _ H3)). reflexivity.
Qed.

(** X12: the string that [resolve] builds is accepted, whatever the version
    and the uid are, when the name is a plain name (not empty, not
    starting with [@]) or a scoped name (starting with [@], with a [/]):
    [isLockfileEntryOutdated] does not pass over the entries that
    [resolve] makes. *)
Theorem isValidReference_resolvedOf (name version uid : string) :
  (exists c rest, name = String c rest /\ c <> "@"%char)
  \/ (exists rest, name = String "@" rest /\ includes rest "/" = true) ->
  isValidReference (Some (resolvedOf name version uid)) = true.
Proof.
intros Hname.
assert (Hres : resolvedOf name version uid
               = name +:+ String "@" (version +:+ String "-" (uid +:+ ".tgz")))
  by reflexivity.
assert (Hret : exists ref, parseReference (resolvedOf name version uid) = ret ref).
{ assert (Hfirst : forall c rest, name = String c rest ->
            first (resolvedOf name version uid) = Some c).
  { intros c rest ->. reflexivity. }
  unfold parseReference. cbv zeta.
  destruct (decide (first (resolvedOf name version uid) = Some "@"%char)) as [Hat|Hat].
  - destruct Hname as [(c & rest & Hn & Hc)|(rest & Hn & Hslash)].
    { rewrite (Hfirst c rest Hn) in Hat. congruence. }
    assert (H0 : -1 < indexOf (resolvedOf name version uid) "/").
    { apply indexOf_found. rewrite Hres, Hn, includes_app_char, includes_char_String,
        Hslash. now rewrite orb_true_r. }
    destruct (cut_first _ "/" H0) as (a & b & Hab & Ha & _ & E2).
    destruct (first_occurrence rest "/" Hslash) as (sc & nm & Hrest & Hsc).
    assert (Hb : exists y, b = y +:+ String "@" (version +:+ String "-" (uid +:+ ".tgz"))).
    { assert (Hsplit : a +:+ String "/" b
                       = String "@" sc
                         +:+ String "/" (nm +:+ String "@"
                                           (version +:+ String "-" (uid +:+ ".tgz")))).
      { rewrite <- Hab, Hres, Hn, Hrest. now rewrite !append_String, !append_assoc. }
      destruct (after_first _ _ _ _ _ Hsplit Ha) as (z & Hz).
      exists (z +:+ nm). rewrite Hz. now rewrite append_assoc. }
    destruct Hb as [y Hy].
    destruct (parse_after_scope_returns (resolvedOf name version uid) b y version uid
                (Some (slice (resolvedOf name version uid) 1
                         (indexOf (resolvedOf name version uid) "/"))) Hy)
      as [ref Href].
    exists ref. rewrite (found_ltb _ H0). cbn [invariant bind ret]. rewrite E2.
    exact Href.
  - destruct Hname as [(c & rest & Hn & Hc)|(rest & Hn & Hslash)].
    2:{ rewrite (Hfirst _ rest Hn) in Hat. congruence. }
    cbn [bind ret]. eapply parse_after_scope_returns, Hres. }
destruct Hret as [ref Href]. unfold isValidReference. now rewrite Href.
Qed.

(** The part of [parseReference] after the scope fails with the text at
    which it stopped. *)
Lemma parse_after_scope_throws (resolution value : string) (scope : option string)
  (e : exn) :
  (let idx := indexOf value "@" in
   do _ <- invariant (-1 <? idx) (malformed resolution value);
   let name := slice value 0 idx in
   let value := slice_from value (idx + 1) in
   let idx := lastIndexOf value "-" in
   do _ <- invariant (-1 <? idx) (malformed resolution value);
   let version := slice value 0 idx in
   let value := slice_from value (idx + 1) in
   let idx := indexOf value ".tgz" in
   do _ <- invariant (-1 <? idx) (malformed resolution value);
   let uid := slice value 0 idx in
   ret {| name := name;
          fullName := fullNameOf scope name;
          scope := scope;
          ref_version := version;
          uid := uid |}) = throw e ->
  exists y at_,
    value = y +:+ at_
    /\ e = InvariantViolation (malformed resolution at_)
    /\ (includes at_ "@" = false \/ includes at_ "-" = false
        \/ includes at_ ".tgz" = false).
Proof.
cbv zeta. intros H.
destruct (-1 <? indexOf value "@") eqn:H1; cbn [invariant bind ret throw] in H.
2:{ injection H as <-. exists "", value. split; [reflexivity|]. split; [reflexivity|].
    left. apply indexOf_absent. apply Z.ltb_ge in H1.
    pose proof (indexOf_from_range 0 value "@"). unfold indexOf in *. lia. }
apply Z.ltb_lt in H1.
destruct (cut_first value "@" H1) as (nm & v2 & Hv1 & _ & _ & E2). rewrite E2 in H.
destruct (-1 <? lastIndexOf v2 "-") eqn:H2; cbn [invariant bind ret throw] in H.
2:{ injection H as <-. exists (nm +:+ "@"), v2.
    split; [rewrite Hv1; now rewrite append_assoc|]. split; [reflexivity|].
    right. left. apply Z.ltb_ge in H2.
    pose proof (lastIndexOf_from_range 0 v2 "-"). unfold lastIndexOf in *.
    destruct H as [[_ H]|[H _]]; [lia | exact H | lia]. }
apply Z.ltb_lt in H2.
destruct (cut_last v2 "-" H2) as (ver & v3 & Hv2 & _ & _ & E4). rewrite E4 in H.
destruct (-1 <? indexOf v3 ".tgz") eqn:H3; cbn [invariant bind ret throw] in H;
  [discriminate H|].
injection H as <-. exists (nm +:+ "@" +:+ ver +:+ "-"), v3.
split; [rewrite Hv1, Hv2; now rewrite !append_assoc|]. split; [reflexivity|].
right. right. apply indexOf_absent. apply Z.ltb_ge in H3.
pose proof (indexOf_from_range 0 v3 ".tgz"). unfold indexOf in *. lia.
Qed.

(** X13: [parseReference] fails with an invariant violation only, which is
    what [isValidReference] catches; the message names the resolution and
    the rest of it at which the next separator ([/] after a leading [@],
    then [@], the last [-], [.tgz]) was not found. *)
Theorem parseReference_malformed (resolution : string) (e : exn) :
  parseReference resolution = throw e ->
  exists y at_,
    resolution = y +:+ at_
    /\ e = InvariantViolation (malformed resolution at_)
    /\ (includes at_ "/" = false \/ includes at_ "@" = false
        \/ includes at_ "-" = false \/ includes at_ ".tgz" = false).
Proof.
unfold parseReference. cbv zeta.
destruct (decide (first resolution = Some "@"%char)) as [Hat|Hat].
- destruct (-1 <? indexOf resolution "/") eqn:H0; cbn [invariant bind ret throw].
  + intros H. apply Z.ltb_lt in H0.
    destruct (cut_first resolution "/" H0) as (a & b & Hr & _ & _ & Hsf).
    rewrite Hsf in H.
    apply parse_after_scope_throws in H as (y & at_ & Hb & He & Hno).
    exists (a +:+ "/" +:+ y), at_. split; [|split; [exact He | tauto]].
    rewrite Hr, Hb. now rewrite !append_assoc.
  + intros H. injection H as <-. exists "", resolution.
    split; [reflexivity|]. split; [reflexivity|]. left.
    apply indexOf_absent. apply Z.ltb_ge in H0.
    pose proof (indexOf_from_range 0 resolution "/"). unfold indexOf in *. lia.
- cbn [bind ret]. intros H.
  apply parse_after_scope_throws in H as (y & at_ & Hb & He & Hno).
  exists y, at_. split; [exact Hb|]. split; [exact He | tauto].
Qed.

(** A reference without uid. *)
Lemma parseReference_malformed_sample :
  exists y at_,
    "@opam/lwt@1.0.0" = y +:+ at_
    /\ parseReference "@opam/lwt@1.0.0"
       = throw (InvariantViolation (malformed "@opam/lwt@1.0.0" at_)).
Proof.
destruct (parseReference_malformed "@opam/lwt@1.0.0"
            (InvariantViolation (malformed "@opam/lwt@1.0.0" "1.0.0")) eq_refl)
  as (y & at_ & Hy & He & _).
exists y, at_. split; [exact Hy|]. rewrite <- He. reflexivity.
Defined.

(** The reference of the spec is cut into its components; a reference with
    something after [.tgz] is accepted as well. *)
Lemma parseReference_shape_samples :
  exists rest,
    "foo@1.2.3-abc.tgz?x=1" = resolvedOf "foo" "1.2.3" "abc" +:+ rest
    /\ includes "foo" "@" = false
    /\ includes "abc" "-" = false.
Proof.
destruct (parseReference_shape "foo@1.2.3-abc.tgz?x=1"
            {| name := "foo"; fullName := "foo"; scope := None;
               ref_version := "1.2.3"; uid := "abc" |} eq_refl)
  as (rest & Hr & _ & _ & _ & Hn & Hu & _).
exists rest. auto.
Defined.

(** A uid with [-] and a scoped name. *)
Lemma isValidReference_resolvedOf_samples :
  isValidReference (Some (resolvedOf "@opam/lwt" "1.2.3-rc1" "a-b")) = true.
Proof.
apply (isValidReference_resolvedOf "@opam/lwt" "1.2.3-rc1" "a-b").
right. exists "opam/lwt". split; reflexivity.
Defined.

End ReferenceShape.

(** ** The version that is found, and [resolveManifest] *)

Module SolutionProps.

Import OpamResolver ObjectProps SortProps SolverProps.

Section WithLibraries.

Variable OPAM_SCOPE : string.
Variable semver_parse : string -> option SemVer.t.
Variable semver_prerelease : string -> option (list string).
Variable semver_satisfies : SemVer.t -> string -> bool.
Variable semver_satisfies_string : string -> string -> JS.result bool.
Variable versionCompare : string -> string -> Z.

Variable name : string.
Variable versions_of : list (string * MinimalManifest).

#[local] Abbreviation findVersion :=
  (findVersion OPAM_SCOPE semver_parse semver_prerelease semver_satisfies
     versionCompare name versions_of).
#[local] Abbreviation solve :=
  (solveVersionConstraint OPAM_SCOPE semver_parse semver_prerelease semver_satisfies
     semver_satisfies_string versionCompare name versions_of).
#[local] Abbreviation satisfiesRange :=
  (satisfiesRange semver_parse semver_prerelease semver_satisfies).
#[local] Abbreviation eligible := (eligible semver_satisfies_string versions_of).
#[local] Abbreviation compilerAccepts := (compilerAccepts semver_satisfies_string).
#[local] Abbreviation valid := (valid semver_parse versions_of).
#[local] Abbreviation keys := (JS.keys versions_of).
#[local] Abbreviation accepted := (accepted semver_satisfies_string).
#[local] Abbreviation availableFor := (availableFor semver_satisfies_string versions_of).

(** The filter of [solveVersionConstraint] gets an answer for every version
    of the collection. *)
#[local] Abbreviation filters o :=
  (forall ov version,
     o = Some ov -> In version keys -> exists b, availableFor ov version = JS.ret b).

Lemma solve_filters (constraint : Constraint) (s : Solution) :
  solve constraint = JS.ret s -> filters (ocamlVersion constraint).
Proof.
intros H ov version Hov Hin. unfold solveVersionConstraint in H. rewrite Hov in H.
destruct (filterM (availableFor ov) keys) as [err|ys] eqn:E; [discriminate H|].
eapply filterM_returns; eauto.
Qed.

Lemma accepted_filters (o : option string) :
  (forall v, semver_satisfies_string v "" = semver_satisfies_string v "*") ->
  accepted o -> filters o.
Proof.
intros Hempty Hacc ov version Hov Hin. subst o.
eapply availableFor_accepted; eauto.
Qed.

(** The candidates that [solveVersionConstraint] gives to [findVersion]
    first. *)
Lemma solve_first (constraint : Constraint) :
  (forall v, semver_satisfies_string v "" = semver_satisfies_string v "*") ->
  filters (ocamlVersion constraint) ->
  let versions :=
    match ocamlVersion constraint with
    | Some ov => List.filter (eligible ov) keys
    | None => keys
    end in
  solve constraint
  = JS.bind (findVersion versions (versionRange constraint)) (fun solution =>
      match solution with
      | Some s => JS.ret s
      | None =>
          match ocamlVersion constraint with
          | Some _ =>
              JS.bind (findVersion keys (versionRange constraint)) (fun other =>
                match other with
                | Some _ => JS.ret no_version_found_for_ocaml_constraint
                | None => JS.ret no_version_found
                end)
          | None => JS.ret no_version_found
          end
      end).
Proof.
intros Hempty Hret versions. unfold solveVersionConstraint, versions.
destruct (ocamlVersion constraint) as [ov|]; [|reflexivity].
rewrite (filterM_filter _ (eligible ov))
  by (intros version Hin; apply availableFor_eligible; eauto).
reflexivity.
Qed.

Lemma eligible_compilerAccepts (ov version : string) (m : MinimalManifest) :
  JS.get versions_of version = Some m ->
  eligible ov version = compilerAccepts (Some ov) m.
Proof. intros H. unfold OpamResolver.eligible. now rewrite H. Qed.

(** The version that [findVersion] finds is one of the candidates, it
    satisfies the range, and no candidate that satisfies the range has a
    greater opam version. *)
Lemma findVersion_greatest (versions : list string) (versionRange x : string) :
  (forall s v, semver_parse s = Some v -> SemVer.raw v = s) ->
  (forall a b, 0 <= versionCompare a b \/ 0 <= versionCompare b a) ->
  (forall a b c,
     0 <= versionCompare a b -> 0 <= versionCompare b c -> 0 <= versionCompare a c) ->
  valid versions ->
  findVersion versions versionRange = JS.ret (Some (found x)) ->
  In x versions
  /\ satisfiesRange versionRange x = true
  /\ exists m,
       JS.get versions_of x = Some m
       /\ forall w mw,
            In w versions ->
            JS.get versions_of w = Some mw ->
            satisfiesRange versionRange w = true ->
            0 <= versionCompare (opam_version m) (opam_version mw).
Proof.
intros Hraw Htotal Htrans Hv Hfound.
destruct (findVersion_selection OPAM_SCOPE semver_parse semver_prerelease
            semver_satisfies versionCompare name versions_of versions versionRange
            Hraw Htotal Htrans Hv)
  as (parsed & _ & F & Hperm & Hsorted & [[E _]|(p & Hfirst & E & Hin)]).
{ rewrite E in Hfound. discriminate Hfound. }
rewrite E in Hfound. injection Hfound as Hx.
assert (Hmem : forall q, In q (JS.sort (byOpamVersion versionCompare) parsed)
                         <-> In q parsed).
{ intros q. rewrite <- !list_elem_of_In. now rewrite Hperm. }
assert (Hof : forall q, In q parsed ->
          exists version, In version versions
            /\ parsedAs semver_parse semver_prerelease versions_of versionRange version q
            /\ SemVer.raw (semver q) = version).
{ clear -F. induction F as [|version q versions parsed (Hq & Hr & _) _ IH];
    intros q0 Hq0; [destruct Hq0|].
  destruct Hq0 as [<-|Hq0].
  - exists version. split; [now left | auto].
  - destruct (IH q0 Hq0) as (v & Hv & H). exists v. split; [now right | exact H]. }
assert (Hto : forall w, In w versions ->
          exists q, In q parsed
            /\ parsedAs semver_parse semver_prerelease versions_of versionRange w q).
{ clear -F. induction F as [|version q versions parsed (Hq & _) _ IH];
    intros w Hw; [destruct Hw|].
  destruct Hw as [<-|Hw].
  - exists q. split; [now left | exact Hq].
  - destruct (IH w Hw) as (q' & Hq' & H). exists q'. split; [now right | exact H]. }
destruct Hfirst as (l1 & l2 & Hl & Hsat & Hl1).
assert (Hp : In p parsed) by (apply Hmem; rewrite Hl; apply in_elt).
destruct (Hof p Hp) as (version & _ & Hpas & Hrawp).
assert (Hvx : version = x) by congruence. rewrite Hvx in Hpas. clear Hvx Hrawp.
split; [now rewrite <- Hx|]. split.
{ rewrite <- (parsedAs_satisfies _ _ semver_satisfies _ _ _ _ Hpas). exact Hsat. }
destruct Hpas as (v & m & Hpv & Hm & Hsv & Hov & _).
exists m. split; [exact Hm|]. intros w mw Hw Hmw Hws.
destruct (Hto w Hw) as (q & Hq & Hqas).
pose proof (parsedAs_satisfies _ _ semver_satisfies _ _ _ _ Hqas) as Hqs. rewrite Hws in Hqs.
destruct Hqas as (vq & mq & _ & Hmq & _ & Hoq & _).
assert (mq = mw) by congruence. subst mq. rewrite <- Hov, <- Hoq.
apply Hmem in Hq. rewrite Hl in Hq, Hsorted.
apply in_app_or in Hq as [Hq|[<-|Hq]].
- rewrite (Hl1 q Hq) in Hqs. discriminate Hqs.
- destruct (Htotal (opamVersion p) (opamVersion p)); assumption.
- apply StronglySorted_app_1_r, StronglySorted_inv in Hsorted as [_ Hall].
  rewrite Forall_forall in Hall. apply Hall. now apply list_elem_of_In.
Qed.

Lemma filter_keys (ov version : string) :
  In version (List.filter (eligible ov) keys) -> In version keys.
Proof. intros H. now apply filter_In in H as [H _]. Qed.

(** What [solveVersionConstraint] finds comes from its first call of
    [findVersion]. *)
Lemma solve_found (constraint : Constraint) (x : string) :
  (forall v, semver_satisfies_string v "" = semver_satisfies_string v "*") ->
  solve constraint = JS.ret (found x) ->
  let versions :=
    match ocamlVersion constraint with
    | Some ov => List.filter (eligible ov) keys
    | None => keys
    end in
  findVersion versions (versionRange constraint) = JS.ret (Some (found x))
  /\ valid versions.
Proof.
intros Hempty H versions.
rewrite (solve_first constraint Hempty (solve_filters _ _ H)) in H. fold versions in H.
destruct (findVersion versions (versionRange constraint)) as [err|[sol|]] eqn:E;
  cbn [JS.bind JS.ret] in H; [discriminate H | |].
- injection H as ->. split; [reflexivity|].
  eapply findVersion_returns_valid; [|exact E].
  unfold versions. destruct (ocamlVersion constraint); [apply filter_keys | auto].
- exfalso. destruct (ocamlVersion constraint); [|discriminate H].
  destruct (findVersion keys (versionRange constraint)) as [err|[sol|]];
    cbn [JS.bind JS.ret] in H; discriminate H.
Qed.

(** X14: without compiler version [solveVersionConstraint] finds a version
    exactly when some version of the collection satisfies the range, and
    answers [no-version-found] otherwise; it never answers that the
    compiler is the reason.  It returns on every collection whose versions
    [semver.parse] accepts. *)
Theorem solveVersionConstraint_without_compiler (versionRange : string) :
  let constraint := {| versionRange := versionRange; ocamlVersion := None |} in
  let anyMatch :=
    exists version, In version keys /\ satisfiesRange versionRange version = true in
  (valid keys -> exists s, solve constraint = JS.ret s)
  /\ forall s,
       solve constraint = JS.ret s ->
       ((exists x, s = found x) <-> anyMatch)
       /\ (s = no_version_found <-> ~ anyMatch)
       /\ s <> no_version_found_for_ocaml_constraint.
Proof.
intros constraint anyMatch.
assert (Hrun : solve constraint
               = JS.bind (findVersion keys versionRange) (fun solution =>
                   match solution with
                   | Some s => JS.ret s
                   | None => JS.ret no_version_found
                   end)) by reflexivity.
assert (Hcases : valid keys ->
          exists s, solve constraint = JS.ret s
            /\ ((exists x, s = found x) <-> anyMatch)
            /\ (s = no_version_found <-> ~ anyMatch)
            /\ s <> no_version_found_for_ocaml_constraint).
{ intros Hv. rewrite Hrun.
  destruct (findVersion_outcome OPAM_SCOPE semver_parse semver_prerelease
              semver_satisfies versionCompare name versions_of keys versionRange Hv)
    as [[E Hno]|(x & E & Hyes)]; rewrite E; cbn [JS.bind JS.ret].
  - exists no_version_found. split; [reflexivity|]. repeat split; try tauto;
      try discriminate. intros (x & Hx). discriminate Hx.
  - exists (found x). split; [reflexivity|]. repeat split; try tauto;
      try discriminate; eauto. }
split.
- intros Hv. destruct (Hcases Hv) as (s & Hs & _). eauto.
- intros s Hs.
  assert (Hv : valid keys).
  { rewrite Hrun in Hs.
    destruct (findVersion keys versionRange) as [err|r] eqn:E; [discriminate Hs|].
    eapply findVersion_returns_valid; [|exact E]. auto. }
  destruct (Hcases Hv) as (s' & Hs' & Hc). rewrite Hs in Hs'.
  unfold JS.ret in Hs'. injection Hs' as <-. exact Hc.
Qed.

(** X15: the version that [solveVersionConstraint] finds is a version of the
    collection that satisfies the range and whose manifest accepts the
    compiler version, and it is a greatest such version: no other one has
    a greater opam version. *)
Theorem solveVersionConstraint_found_greatest (constraint : Constraint) (x : string) :
  (forall s v, semver_parse s = Some v -> SemVer.raw v = s) ->
  (forall a b, 0 <= versionCompare a b \/ 0 <= versionCompare b a) ->
  (forall a b c,
     0 <= versionCompare a b -> 0 <= versionCompare b c -> 0 <= versionCompare a c) ->
  (forall v, semver_satisfies_string v "" = semver_satisfies_string v "*") ->
  solve constraint = JS.ret (found x) ->
  exists m,
    JS.get versions_of x = Some m
    /\ satisfiesRange (OpamResolver.versionRange constraint) x = true
    /\ compilerAccepts (ocamlVersion constraint) m = true
    /\ forall w mw,
         JS.get versions_of w = Some mw ->
         satisfiesRange (OpamResolver.versionRange constraint) w = true ->
         compilerAccepts (ocamlVersion constraint) mw = true ->
         0 <= versionCompare (opam_version m) (opam_version mw).
Proof.
intros Hraw Htotal Htrans Hempty Hs.
destruct (solve_found constraint x Hempty Hs) as [Hf Hv].
destruct (findVersion_greatest _ _ _ Hraw Htotal Htrans Hv Hf)
  as (Hin & Hsat & m & Hm & Hbest).
exists m. split; [exact Hm|]. split; [exact Hsat|].
assert (Hkey : forall w mw, JS.get versions_of w = Some mw -> In w keys).
{ intros w mw Hw. eapply In_keys, get_In, Hw. }
destruct (ocamlVersion constraint) as [ov|]; cbn [OpamResolver.compilerAccepts].
- apply filter_In in Hin as [_ He]. rewrite (eligible_compilerAccepts ov x m Hm) in He.
  split; [exact He|]. intros w mw Hw Hws Hwc. apply (Hbest w mw); auto.
  apply filter_In. split; [eapply Hkey, Hw|].
  now rewrite (eligible_compilerAccepts ov w mw Hw).
- split; [reflexivity|]. intros w mw Hw Hws _. apply (Hbest w mw); auto.
  eapply Hkey, Hw.
Qed.

(** X16: a version that is found for a compiler is not lost without the
    compiler: when every version of the collection is accepted by
    [semver.parse], the same query without compiler version finds a
    version whose opam version is not smaller. *)
Theorem solveVersionConstraint_drop_compiler (versionRange ov x : string) :
  (forall s v, semver_parse s = Some v -> SemVer.raw v = s) ->
  (forall a b, 0 <= versionCompare a b \/ 0 <= versionCompare b a) ->
  (forall a b c,
     0 <= versionCompare a b -> 0 <= versionCompare b c -> 0 <= versionCompare a c) ->
  (forall v, semver_satisfies_string v "" = semver_satisfies_string v "*") ->
  valid keys ->
  solve {| versionRange := versionRange; ocamlVersion := Some ov |} = JS.ret (found x) ->
  exists x' m m',
    solve {| versionRange := versionRange; ocamlVersion := None |} = JS.ret (found x')
    /\ JS.get versions_of x = Some m
    /\ JS.get versions_of x' = Some m'
    /\ 0 <= versionCompare (opam_version m') (opam_version m).
Proof.
intros Hraw Htotal Htrans Hempty Hv Hs.
destruct (solve_found _ x Hempty Hs) as [Hf Hvf].
cbn [ocamlVersion OpamResolver.versionRange] in Hf, Hvf.
destruct (findVersion_greatest _ _ _ Hraw Htotal Htrans Hvf Hf)
  as (Hin & Hsat & m & Hm & _).
apply filter_In in Hin as [Hin _].
destruct (findVersion_outcome OPAM_SCOPE semver_parse semver_prerelease
            semver_satisfies versionCompare name versions_of keys versionRange Hv)
  as [[_ Hno]|(x' & E & _)].
{ exfalso. apply Hno. eauto. }
destruct (findVersion_greatest _ _ _ Hraw Htotal Htrans Hv E)
  as (_ & _ & m' & Hm' & Hbest).
exists x', m, m'. split; [|split; [exact Hm | split; [exact Hm'|]]].
- unfold solveVersionConstraint. cbn [ocamlVersion OpamResolver.versionRange JS.bind JS.ret].
  now rewrite E.
- apply (Hbest x m); auto.
Qed.

(** What [findVersion] finds is one of the candidates and satisfies the
    range. *)
Lemma findVersion_member (versions : list string) (versionRange x : string) :
  (forall s v, semver_parse s = Some v -> SemVer.raw v = s) ->
  valid versions ->
  findVersion versions versionRange = JS.ret (Some (found x)) ->
  In x versions /\ satisfiesRange versionRange x = true.
Proof.
intros Hraw Hv Hfound.
destruct (findVersion_parsed OPAM_SCOPE semver_parse semver_prerelease semver_satisfies
            versionCompare name versions_of versions versionRange Hv)
  as (parsed & _ & F & E).
rewrite E in Hfound. injection Hfound as Hfound.
apply firstSatisfying_Some in Hfound as (p & (l1 & l2 & Hl & Hsat & _) & Hx).
injection Hx as ->.
assert (Hp : In p parsed).
{ apply list_elem_of_In. rewrite <- (sort_Permutation (byOpamVersion versionCompare)).
  apply list_elem_of_In. rewrite Hl. apply in_elt. }
clear -F Hp Hraw Hsat. induction F as [|version q versions parsed Hq _ IH]; [destruct Hp|].
destruct Hp as [<-|Hp].
- pose proof (parsedAs_satisfies _ _ semver_satisfies _ _ _ _ Hq) as Hs.
  destruct Hq as (v & m & Hpv & _ & Hsv & _).
  assert (Hr : SemVer.raw (semver q) = version).
  { rewrite Hsv. unfold masked. destruct (semver_prerelease versionRange);
      cbn [SemVer.set_prerelease SemVer.raw]; now apply Hraw. }
  rewrite Hr. split; [now left | congruence].
- destruct (IH Hp) as [H1 H2]. split; [now right | exact H2].
Qed.

(** The outcome of [solveVersionConstraint] on a collection whose versions
    [semver.parse] accepts: a version is found exactly when some version
    satisfies the range and its manifest accepts the compiler. *)
Lemma solve_isFound (constraint : Constraint) :
  (forall v, semver_satisfies_string v "" = semver_satisfies_string v "*") ->
  filters (ocamlVersion constraint) ->
  valid keys ->
  exists s,
    solve constraint = JS.ret s
    /\ (isFound s = true
        <-> exists v m,
              JS.get versions_of v = Some m
              /\ satisfiesRange (versionRange constraint) v = true
              /\ compilerAccepts (ocamlVersion constraint) m = true).
Proof.
intros Hempty Hret Hv. rewrite (solve_first constraint Hempty Hret).
set (versions := match ocamlVersion constraint with
                 | Some ov => List.filter (eligible ov) keys
                 | None => keys
                 end).
assert (Hsub : forall version, In version versions -> In version keys).
{ unfold versions. destruct (ocamlVersion constraint); [apply filter_keys | auto]. }
assert (Hvf : valid versions) by (intros version Hin; apply Hv, Hsub, Hin).
assert (Hcand : (exists version, In version versions
                   /\ satisfiesRange (versionRange constraint) version = true)
                <-> exists v m,
                      JS.get versions_of v = Some m
                      /\ satisfiesRange (versionRange constraint) v = true
                      /\ compilerAccepts (ocamlVersion constraint) m = true).
{ unfold versions. split.
  - intros (version & Hin & Hs).
    destruct (get_key versions_of version (Hsub _ Hin)) as [m Hm].
    exists version, m. split; [exact Hm|]. split; [exact Hs|].
    destruct (ocamlVersion constraint) as [ov|]; [|reflexivity].
    apply filter_In in Hin as [_ He]. now rewrite <- (eligible_compilerAccepts ov version m).
  - intros (v & m & Hm & Hs & Hc). exists v. split; [|exact Hs].
    assert (Hk : In v keys) by (eapply In_keys, get_In, Hm).
    destruct (ocamlVersion constraint) as [ov|]; [|exact Hk].
    apply filter_In. split; [exact Hk|]. now rewrite (eligible_compilerAccepts ov v m). }
destruct (findVersion_outcome OPAM_SCOPE semver_parse semver_prerelease
            semver_satisfies versionCompare name versions_of versions
            (versionRange constraint) Hvf)
  as [[E Hno]|(x & E & Hyes)]; rewrite E; cbn [JS.bind JS.ret].
- rewrite Hcand in Hno.
  destruct (ocamlVersion constraint) as [ov|].
  + destruct (findVersion_outcome OPAM_SCOPE semver_parse semver_prerelease
                semver_satisfies versionCompare name versions_of keys
                (versionRange constraint) Hv)
      as [[E' _]|(x' & E' & _)]; rewrite E'; cbn [JS.bind JS.ret];
      eexists; (split; [reflexivity|]); cbn [isFound]; split;
      [discriminate | tauto | discriminate | tauto].
  + eexists. split; [reflexivity|]. cbn [isFound]. split; [discriminate | tauto].
- rewrite Hcand in Hyes. exists (found x). split; [reflexivity|]. cbn [isFound]. tauto.
Qed.

(** X17: [resolveManifest] on a collection whose versions [semver.parse]
    accepts, with a compiler version that [semver.satisfies] takes, or
    with none.  It returns a manifest of the collection, stored under a
    version that satisfies the requested range ([*] for no version and for
    [latest]) and accepting the compiler, when there is one; otherwise it
    throws a [MessageError] made by [dependencyNotFoundErrorMessage].  It
    never returns [undefined]. *)
Theorem resolveManifest_outcome (this_version : option string)
  (request : PackageRequest) (ocamlVersion : option string) :
  (forall s v, semver_parse s = Some v -> SemVer.raw v = s) ->
  (forall v, semver_satisfies_string v "" = semver_satisfies_string v "*") ->
  valid keys ->
  accepted ocamlVersion ->
  let candidate v m :=
    JS.get versions_of v = Some m
    /\ satisfiesRange (requestedRange this_version) v = true
    /\ compilerAccepts ocamlVersion m = true in
  match resolveManifest OPAM_SCOPE semver_parse semver_prerelease semver_satisfies
          semver_satisfies_string versionCompare name this_version request
          versions_of ocamlVersion with
  | inr (Some m) => exists v, candidate v m
  | inr None => False
  | inl err =>
      (forall v m, ~ candidate v m)
      /\ exists reason,
           err = JS.MessageError (dependencyNotFoundErrorMessage reason request)
  end.
Proof.
intros Hraw Hempty Hv Hacc candidate. unfold resolveManifest.
set (constraint := {| versionRange := requestedRange this_version;
                      ocamlVersion := ocamlVersion |}).
destruct (solve_isFound constraint Hempty (accepted_filters _ Hempty Hacc) Hv)
  as (s & Hs & Hfound).
rewrite Hs. cbn [JS.bind JS.ret].
destruct s as [x| |]; cbn [isFound] in Hfound.
- destruct (solve_found constraint x Hempty Hs) as [Hf Hvf].
  destruct (findVersion_member _ _ _ Hraw Hvf Hf) as [Hin Hsat].
  cbn [OpamResolver.ocamlVersion OpamResolver.versionRange constraint] in Hin, Hsat.
  assert (Hk : In x keys).
  { destruct ocamlVersion; [now apply filter_keys in Hin | exact Hin]. }
  destruct (get_key versions_of x Hk) as [m Hm]. rewrite Hm.
  exists x. split; [exact Hm|]. split; [exact Hsat|].
  destruct ocamlVersion as [ov|]; [|reflexivity].
  apply filter_In in Hin as [_ He]. now rewrite <- (eligible_compilerAccepts ov x m).
- split; [|eexists; reflexivity]. intros v m Hc.
  assert (H : false = true) by (apply Hfound; exists v, m; exact Hc). discriminate H.
- split; [|eexists; reflexivity]. intros v m Hc.
  assert (H : false = true) by (apply Hfound; exists v, m; exact Hc). discriminate H.
Qed.

End WithLibraries.

Section Outdated.

Variable OPAM_SCOPE : string.
Variable semver_parse : string -> option SemVer.t.
Variable semver_prerelease : string -> option (list string).
Variable semver_satisfies : SemVer.t -> string -> bool.
Variable semver_satisfies_string : string -> string -> JS.result bool.
Variable versionCompare : string -> string -> Z.

#[local] Abbreviation isLockfileEntryOutdated :=
  (isLockfileEntryOutdated OPAM_SCOPE semver_parse semver_prerelease semver_satisfies
     semver_satisfies_string versionCompare).

(** The name that [isLockfileEntryOutdated] gives to the solver. *)
#[local] Abbreviation nameOf lockfileEntry :=
  (match Lockfile.name lockfileEntry with
   | Some n => n
   | None => "undefined"
   end).

Lemma get_single (k : string) (m : MinimalManifest) (k' : string) :
  JS.get [(k, m)] k' = if String.eqb k k' then Some m else None.
Proof. reflexivity. Qed.

(** X18: for a lock entry with a reference that [parseReference] accepts
    and a version that [semver.parse] accepts, and with a compiler version
    that [semver.satisfies] takes, or with none, [isLockfileEntryOutdated]
    says that the entry is outdated exactly when its version does not
    satisfy the requested range (the pre-release tag of the version is
    hidden unless the range is a pre-release version) or its [ocaml] peer
    dependency does not accept the compiler version.  [hasVersion] is not
    looked at. *)
Theorem isLockfileEntryOutdated_valid_reference (ocamlVersion : option string)
  (lockfileEntry : Lockfile.Entry) (versionRange : string) (hasVersion : bool)
  (v : SemVer.t) :
  (forall x, semver_satisfies_string x "" = semver_satisfies_string x "*") ->
  accepted semver_satisfies_string ocamlVersion ->
  isValidReference (Lockfile.resolved lockfileEntry) = true ->
  semver_parse (Lockfile.version lockfileEntry) = Some v ->
  isLockfileEntryOutdated ocamlVersion lockfileEntry versionRange hasVersion
  = JS.ret (negb (semver_satisfies (masked semver_prerelease versionRange v) versionRange
                  && compilerAccepts semver_satisfies_string ocamlVersion
                       (lockedManifest lockfileEntry))).
Proof.
intros Hempty Hacc Hvalid Hparse. unfold OpamResolver.isLockfileEntryOutdated.
rewrite Hvalid. cbn [negb].
set (ver := Lockfile.version lockfileEntry) in *.
set (coll := [(ver, lockedManifest lockfileEntry)]).
change [(ver, {| version := ver;
                 peerDependencies := Lockfile.peerDependencies lockfileEntry;
                 opam_version := ver |})] with coll.
assert (Hv : valid semver_parse coll (JS.keys coll)).
{ intros version [E|[]]. cbn [fst] in E. rewrite <- E.
  split; [now left | rewrite Hparse; eauto]. }
assert (Hret : forall ov version,
          ocamlVersion = Some ov -> In version (JS.keys coll) ->
          exists b, availableFor semver_satisfies_string coll ov version = JS.ret b)
  by (apply accepted_filters; assumption).
destruct (solve_isFound OPAM_SCOPE semver_parse semver_prerelease semver_satisfies
            semver_satisfies_string versionCompare (nameOf lockfileEntry) coll
            {| OpamResolver.versionRange := versionRange;
               OpamResolver.ocamlVersion := ocamlVersion |} Hempty Hret Hv)
  as (s & Hs & Hfound).
rewrite Hs. cbn [JS.bind JS.ret]. f_equal. f_equal.
cbn [OpamResolver.versionRange OpamResolver.ocamlVersion] in Hfound.
assert (Hsat : satisfiesRange semver_parse semver_prerelease semver_satisfies
                 versionRange ver
               = semver_satisfies (masked semver_prerelease versionRange v) versionRange).
{ unfold satisfiesRange. now rewrite Hparse. }
apply eq_true_iff_eq. rewrite Hfound, andb_true_iff, <- Hsat. split.
- intros (x & m & Hm & Hx & Hc). unfold coll in Hm. rewrite get_single in Hm.
  destruct (String.eqb_spec ver x) as [<-|]; [|discriminate Hm].
  injection Hm as <-. auto.
- intros [Hx Hc]. exists ver, (lockedManifest lockfileEntry).
  split; [|auto]. unfold coll. now rewrite get_single, String.eqb_refl.
Qed.


End Outdated.

Section Fresh.

Variable OPAM_SCOPE : string.
Variable semver_parse : string -> option SemVer.t.
Variable semver_prerelease : string -> option (list string).
Variable semver_satisfies : SemVer.t -> string -> bool.
Variable semver_satisfies_string : string -> string -> JS.result bool.
Variable versionCompare : string -> string -> Z.

(** X26: a lock entry made of a version that [solveVersionConstraint] has
    found is not outdated for the constraint that found it: when the entry
    has this version, the [peerDependencies] of the manifest found (as they
    are, or as [implodeEntry] writes them) and a reference that
    [parseReference] accepts, [isLockfileEntryOutdated] returns [false] for
    the same range and compiler version. *)
Theorem isLockfileEntryOutdated_fresh (name : string)
  (versions_of : list (string * MinimalManifest)) (constraint : Constraint)
  (x : string) (m : MinimalManifest) (lockfileEntry : Lockfile.Entry)
  (hasVersion : bool) :
  (forall s v, semver_parse s = Some v -> SemVer.raw v = s) ->
  (forall v, semver_satisfies_string v "" = semver_satisfies_string v "*") ->
  solveVersionConstraint OPAM_SCOPE semver_parse semver_prerelease semver_satisfies
    semver_satisfies_string versionCompare name versions_of constraint
  = JS.ret (found x) ->
  JS.get versions_of x = Some m ->
  Lockfile.version lockfileEntry = x ->
  Lockfile.peerDependencies lockfileEntry = peerDependencies m
  \/ Lockfile.peerDependencies lockfileEntry
     = Lockfile.blankObjectUndefined (peerDependencies m) ->
  isValidReference (Lockfile.resolved lockfileEntry) = true ->
  isLockfileEntryOutdated OPAM_SCOPE semver_parse semver_prerelease semver_satisfies
    semver_satisfies_string versionCompare (ocamlVersion constraint) lockfileEntry
    (versionRange constraint) hasVersion
  = JS.ret false.
Proof.
intros Hraw Hempty Hs Hm Hver Hpd Hvalid.
destruct (solve_found OPAM_SCOPE semver_parse semver_prerelease semver_satisfies
            semver_satisfies_string versionCompare name versions_of constraint x
            Hempty Hs) as [Hf Hvf].
destruct (findVersion_member OPAM_SCOPE semver_parse semver_prerelease semver_satisfies
            versionCompare name versions_of _ _ _ Hraw Hvf Hf) as [Hin Hsat].
assert (Hparse : is_Some (semver_parse x)) by (now apply Hvf).
assert (Hacc : compilerAccepts semver_satisfies_string (ocamlVersion constraint) m = true).
{ destruct (ocamlVersion constraint) as [ov|]; [|reflexivity].
  apply filter_In in Hin as [_ He].
  now rewrite <- (eligible_compilerAccepts semver_satisfies_string versions_of ov x m Hm). }
assert (Hlocked : compilerAccepts semver_satisfies_string (ocamlVersion constraint)
                    (lockedManifest lockfileEntry) = true).
{ destruct (ocamlVersion constraint) as [ov|]; [|reflexivity].
  cbn [compilerAccepts] in *. rewrite <- Hacc. do 2 f_equal.
  unfold ocamlConstraint, lockedManifest. cbn [peerDependencies].
  destruct Hpd as [->| ->]; [reflexivity|].
  destruct (peerDependencies m) as [deps|]; [|reflexivity].
  cbn [Lockfile.blankObjectUndefined].
  destruct (Nat.eqb (size deps) 0) eqn:E; [|reflexivity].
  apply Nat.eqb_eq, map_size_empty_iff in E. subst deps. now rewrite lookup_empty. }
unfold OpamResolver.isLockfileEntryOutdated. rewrite Hvalid. cbn [negb].
rewrite Hver.
set (coll := [(x, lockedManifest lockfileEntry)]).
assert (Hcoll : [(x, {| version := x;
                        peerDependencies := Lockfile.peerDependencies lockfileEntry;
                        opam_version := x |})] = coll).
{ unfold coll, lockedManifest. now rewrite Hver. }
rewrite Hcoll.
assert (Hv : valid semver_parse coll (JS.keys coll)).
{ intros version [E|[]]. cbn [fst] in E. rewrite <- E. split; [now left | exact Hparse]. }
assert (Hret : forall ov version,
          ocamlVersion constraint = Some ov -> In version (JS.keys coll) ->
          exists b, availableFor semver_satisfies_string coll ov version = JS.ret b).
{ intros ov version Hov [E|[]]. cbn [fst] in E. subst version.
  rewrite Hov in Hlocked. cbn [compilerAccepts] in Hlocked.
  apply isTrue_true in Hlocked. exists true.
  rewrite (availableFor_ocamlConstraint semver_satisfies_string coll ov x
             (lockedManifest lockfileEntry) Hempty); [exact Hlocked|].
  unfold coll. cbn [JS.get]. now rewrite String.eqb_refl. }
destruct (solve_isFound OPAM_SCOPE semver_parse semver_prerelease semver_satisfies
            semver_satisfies_string versionCompare
            (match Lockfile.name lockfileEntry with
             | Some n => n
             | None => "undefined"
             end) coll constraint Hempty Hret Hv) as (s & Hs' & Hfound).
destruct constraint as [range ov]. cbn [versionRange ocamlVersion] in *.
rewrite Hs'. cbn [JS.bind JS.ret]. f_equal.
replace (isFound s) with true; [reflexivity|]. symmetry. apply Hfound.
exists x, (lockedManifest lockfileEntry). split; [|auto].
unfold coll. cbn [JS.get]. now rewrite String.eqb_refl.
Qed.

End Fresh.

(** No version of [narrowCatalog] satisfies [>=5.0.0]. *)
Lemma solveVersionConstraint_without_compiler_narrowCatalog :
  Sample.solve "foo" Examples.narrowCatalog
    {| versionRange := ">=5.0.0"; ocamlVersion := None |}
  = JS.ret no_version_found
  /\ ~ exists version,
         In version (JS.keys Examples.narrowCatalog)
         /\ satisfiesRange Sample.parse Sample.prerelease Sample.satisfies
              ">=5.0.0" version = true.
Proof.
destruct (solveVersionConstraint_without_compiler "opam" Sample.parse Sample.prerelease
            Sample.satisfies Sample.satisfies_string Sample.versionCompare "foo"
            Examples.narrowCatalog ">=5.0.0") as [Hret Hcls].
destruct Hret as [s Hs].
{ intros version [<-|[<-|[]]]; (split; [cbn; tauto | eexists; reflexivity]). }
destruct (Hcls s Hs) as (_ & Hnone & _).
assert (E : s = no_version_found) by (vm_compute in Hs; now injection Hs as <-).
split; [rewrite <- E; exact Hs | now apply Hnone].
Defined.

(** In [narrowCatalog], with the compiler [1.2.0], the version found for
    [*] is [1.1.0]. *)
Lemma solveVersionConstraint_found_greatest_narrowCatalog :
  exists m,
    JS.get Examples.narrowCatalog "1.1.0" = Some m
    /\ forall w mw,
         JS.get Examples.narrowCatalog w = Some mw ->
         satisfiesRange Sample.parse Sample.prerelease Sample.satisfies "*" w = true ->
         compilerAccepts Sample.satisfies_string (Some "1.2.0") mw = true ->
         0 <= Sample.versionCompare (opam_version m) (opam_version mw).
Proof.
destruct (solveVersionConstraint_found_greatest "opam" Sample.parse Sample.prerelease
            Sample.satisfies Sample.satisfies_string Sample.versionCompare "foo"
            Examples.narrowCatalog
            {| versionRange := "*"; ocamlVersion := Some "1.2.0" |} "1.1.0"
            sample_parse_raw sample_versionCompare_total sample_versionCompare_trans
            sample_empty_range eq_refl)
  as (m & Hm & _ & _ & Hbest).
exists m. split; [exact Hm | exact Hbest].
Defined.

Lemma solveVersionConstraint_drop_compiler_narrowCatalog :
  exists x' m m',
    Sample.solve "foo" Examples.narrowCatalog
      {| versionRange := "*"; ocamlVersion := None |} = JS.ret (found x')
    /\ JS.get Examples.narrowCatalog "1.1.0" = Some m
    /\ JS.get Examples.narrowCatalog x' = Some m'
    /\ 0 <= Sample.versionCompare (opam_version m') (opam_version m).
Proof.
apply (solveVersionConstraint_drop_compiler "opam" Sample.parse Sample.prerelease
         Sample.satisfies Sample.satisfies_string Sample.versionCompare "foo"
         Examples.narrowCatalog "*" "1.2.0" "1.1.0"
         sample_parse_raw sample_versionCompare_total sample_versionCompare_trans
         sample_empty_range).
- intros version [<-|[<-|[]]]; (split; [cbn; tauto | eexists; reflexivity]).
- reflexivity.
Defined.

(** The request of [latest] in [narrowCatalog] with the compiler [1.2.0]
    is answered by a manifest of the catalog; with the compiler [2.0.0] it
    is refused with a message. *)
Lemma resolveManifest_outcome_narrowCatalog :
  (exists m v,
     Sample.resolveManifest "foo" (Some "latest") Examples.request
       Examples.narrowCatalog (Some "1.2.0") = JS.ret (Some m)
     /\ JS.get Examples.narrowCatalog v = Some m)
  /\ exists reason,
       Sample.resolveManifest "foo" (Some "latest") Examples.request
         Examples.narrowCatalog (Some "2.0.0")
       = JS.throw (JS.MessageError
                     (dependencyNotFoundErrorMessage reason Examples.request)).
Proof.
assert (Hv : valid Sample.parse Examples.narrowCatalog (JS.keys Examples.narrowCatalog)).
{ intros version [<-|[<-|[]]]; (split; [cbn; tauto | eexists; reflexivity]). }
split.
- pose proof (resolveManifest_outcome "opam" Sample.parse Sample.prerelease
                Sample.satisfies Sample.satisfies_string Sample.versionCompare "foo"
                Examples.narrowCatalog (Some "latest") Examples.request (Some "1.2.0")
                sample_parse_raw sample_empty_range Hv
                (sample_accepted "1.2.0" (ex_intro _ _ eq_refl))) as H.
  cbv zeta in H. fold Sample.resolveManifest in H.
  destruct (Sample.resolveManifest "foo" (Some "latest") Examples.request
              Examples.narrowCatalog (Some "1.2.0")) as [err|[m|]] eqn:E;
    [vm_compute in E; discriminate E | | destruct H].
  destruct H as (v & Hm & _). exists m, v. auto.
- pose proof (resolveManifest_outcome "opam" Sample.parse Sample.prerelease
                Sample.satisfies Sample.satisfies_string Sample.versionCompare "foo"
                Examples.narrowCatalog (Some "latest") Examples.request (Some "2.0.0")
                sample_parse_raw sample_empty_range Hv
                (sample_accepted "2.0.0" (ex_intro _ _ eq_refl))) as H.
  cbv zeta in H. fold Sample.resolveManifest in H.
  destruct (Sample.resolveManifest "foo" (Some "latest") Examples.request
              Examples.narrowCatalog (Some "2.0.0")) as [err|r] eqn:E;
    [|vm_compute in E; discriminate E].
  destruct H as (_ & reason & ->). exists reason. reflexivity.
Defined.

(** The entry [wellFormedEntry] has the version [1.0.0]: it is outdated
    for [>=2.0.0] and not for [^1.0.0], whatever [hasVersion] is. *)
Lemma isLockfileEntryOutdated_valid_reference_wellFormedEntry :
  Examples.isLockfileEntryOutdated (Some "4.6.0") Examples.wellFormedEntry ">=2.0.0" true
  = JS.ret true
  /\ Examples.isLockfileEntryOutdated (Some "4.6.0") Examples.wellFormedEntry "^1.0.0" false
     = JS.ret false.
Proof.
split.
- exact (isLockfileEntryOutdated_valid_reference "opam" Sample.parse Sample.prerelease
           Sample.satisfies Sample.satisfies_string Sample.versionCompare
           (Some "4.6.0") Examples.wellFormedEntry ">=2.0.0" true _
           sample_empty_range (sample_accepted "4.6.0" (ex_intro _ _ eq_refl))
           eq_refl eq_refl).
- exact (isLockfileEntryOutdated_valid_reference "opam" Sample.parse Sample.prerelease
           Sample.satisfies Sample.satisfies_string Sample.versionCompare
           (Some "4.6.0") Examples.wellFormedEntry "^1.0.0" false _
           sample_empty_range (sample_accepted "4.6.0" (ex_intro _ _ eq_refl))
           eq_refl eq_refl).
Defined.


(** The version found in [narrowCatalog] for the compiler [1.2.0] and the
    range [*], as a lock entry. *)
Lemma isLockfileEntryOutdated_fresh_narrowCatalog :
  Examples.isLockfileEntryOutdated (Some "1.2.0") Examples.freshEntry "*" true
  = JS.ret false.
Proof.
apply (isLockfileEntryOutdated_fresh "opam" Sample.parse Sample.prerelease
         Sample.satisfies Sample.satisfies_string Sample.versionCompare "foo"
         Examples.narrowCatalog
         {| versionRange := "*"; ocamlVersion := Some "1.2.0" |} "1.1.0"
         (mkManifest "1.1.0" (Some {[ "ocaml" := "^1.0.0" ]}) "1.1.0")
         Examples.freshEntry true sample_parse_raw sample_empty_range).
- reflexivity.
- reflexivity.
- reflexivity.
- left. reflexivity.
- reflexivity.
Defined.

End SolutionProps.

(** ** The format of a tarball: [getTarballFormatFromFilename] *)

Module FormatProps.

Import JS StringProps OpamFetcher.

Lemma length_app (a b : string) :
  String.length (a +:+ b) = (String.length a + String.length b)%nat.
Proof. induction a as [|c a IH]; [reflexivity|]. rewrite append_String. cbn. now rewrite IH. Qed.

Lemma substring_app (a b : string) (k m : nat) :
  substring (String.length a + k) m (a +:+ b) = substring k m b.
Proof. induction a as [|c a IH]; [reflexivity|]. rewrite append_String. exact IH. Qed.

Lemma substring_all (s : string) : substring 0 (String.length s) s = s.
Proof. induction s as [|c s IH]; [reflexivity|]. cbn. now rewrite IH. Qed.

(** The text from a position on, with what comes before it. *)
Lemma substring_cut (s : string) (n m : nat) :
  (n + m)%nat = String.length s -> exists pre, s = pre +:+ substring n m s.
Proof.
revert s m. induction n as [|n IH]; intros s m H.
- exists "". cbn in H. subst m. now rewrite substring_all.
- destruct s as [|c s]; [discriminate H|]. cbn in H. injection H as H.
  destruct (IH s m H) as [pre Hpre]. exists (String c pre).
  rewrite append_String. cbn [substring]. destruct m; now rewrite <- Hpre.
Qed.

Lemma endsWith_self (s : string) : endsWith s s = true.
Proof.
unfold endsWith. rewrite Nat.leb_refl, Nat.sub_diag, substring_all.
apply String.eqb_refl.
Qed.

Lemma endsWith_cut (s p : string) : endsWith s p = true -> exists pre, s = pre +:+ p.
Proof.
unfold endsWith. intros H. apply andb_prop in H as [Hl He].
apply Nat.leb_le in Hl. apply String.eqb_eq in He.
destruct (substring_cut s (String.length s - String.length p) (String.length p))
  as [pre Hpre]; [lia|].
exists pre. now rewrite He in Hpre.
Qed.

(** A suffix that is not longer than the extension is a suffix of the
    extension. *)
Lemma endsWith_short (stem ext p : string) :
  (String.length p <= String.length ext)%nat ->
  endsWith (stem +:+ ext) p = endsWith ext p.
Proof.
intros H. unfold endsWith. rewrite length_app.
replace (String.length stem + String.length ext - String.length p)%nat
  with (String.length stem + (String.length ext - String.length p))%nat by lia.
rewrite substring_app.
replace (String.length p <=? String.length stem + String.length ext)%nat with true
  by (symmetry; apply Nat.leb_le; lia).
replace (String.length p <=? String.length ext)%nat with true
  by (symmetry; apply Nat.leb_le; lia).
reflexivity.
Qed.

Lemma suffix_of_longer (a b c d : string) :
  a +:+ b = c +:+ d ->
  (String.length b <= String.length d)%nat ->
  exists q, d = q +:+ b.
Proof.
revert c. induction a as [|x a IH]; intros c H Hl.
- rewrite append_nil_l in H. subst b. rewrite length_app in Hl.
  destruct c as [|y c]; [now exists ""|]. cbn in Hl. lia.
- destruct c as [|y c].
  + rewrite append_nil_l in H. subst d. now exists (String x a).
  + rewrite !append_String in H. injection H as _ H. now apply (IH c).
Qed.

(** A suffix that is not shorter than the extension ends with the
    extension. *)
Lemma endsWith_long (stem ext p : string) :
  (String.length ext <= String.length p)%nat ->
  endsWith p ext = false ->
  endsWith (stem +:+ ext) p = false.
Proof.
intros Hl Hp. destruct (endsWith (stem +:+ ext) p) eqn:E; [|reflexivity].
apply endsWith_cut in E as [pre E].
destruct (suffix_of_longer stem ext pre p E Hl) as [q ->].
rewrite endsWith_short, endsWith_self in Hp by lia. discriminate Hp.
Qed.

Ltac suffix_test :=
  repeat first
    [ rewrite endsWith_short by (cbn; lia)
    | rewrite endsWith_long by (cbn; first [lia | reflexivity]) ];
  reflexivity.

(** X20: the format is read off the end of the file name; the extensions
    that are told apart do not end with one another, so that the order of
    the tests does not matter for them.  [.tar.xz] is [xz]; names that end
    in [.txz] or [.tbz2], and every other name, are taken for [gzip]. *)
Theorem getTarballFormatFromFilename_extension (stem : string) :
  getTarballFormatFromFilename (stem +:+ ".tgz") = gzip
  /\ getTarballFormatFromFilename (stem +:+ ".tar.gz") = gzip
  /\ getTarballFormatFromFilename (stem +:+ ".tar.bz") = bzip
  /\ getTarballFormatFromFilename (stem +:+ ".tar.bz2") = bzip
  /\ getTarballFormatFromFilename (stem +:+ ".tbz") = bzip
  /\ getTarballFormatFromFilename (stem +:+ ".zip") = zip
  /\ getTarballFormatFromFilename (stem +:+ ".xz") = xz
  /\ getTarballFormatFromFilename (stem +:+ ".tar.xz") = xz
  /\ getTarballFormatFromFilename (stem +:+ ".txz") = gzip
  /\ getTarballFormatFromFilename (stem +:+ ".tbz2") = gzip.
Proof.
unfold getTarballFormatFromFilename. repeat split; suffix_test.
Qed.

End FormatProps.

(** ** A fetch after the download: unpacking, and the files of the manifest *)

Module FetchOutcomes.

Import OpamFetcher StringProps FetcherProps.

Section WithCollaborators.

Variable md5_hex : string -> string.
Variable path_join : string -> string -> string.
Variable STATUS_CODES : Z -> option string.
Variable lang : string -> string -> string.
Variable env : Env.

#[local] Abbreviation fetchTarball := (_fetchTarball md5_hex STATUS_CODES lang env).
#[local] Abbreviation requestFailed := (requestFailed STATUS_CODES lang).
#[local] Abbreviation response manifest := (download env (url (opam manifest))).

(** X21: a download that is piped to its end with a status below 400 and
    that has the checksum of the manifest.  The registry is asked once,
    every chunk is given to the hasher, in the order of its arrival, the
    bytes received are piped to the file, the digest is taken, and the
    promise of [_fetchTarball] is fulfilled with the checksum. *)
Theorem fetch_verified_download (manifest : OpamManifest) (filename expected : string) :
  checksum (opam manifest) = Some expected ->
  ending (response manifest) = finish ->
  statusCode (response manifest) < 400 ->
  md5_hex (JS.join (chunks (response manifest))) = expected ->
  fetchTarball manifest filename []
  = ([Request (url (opam manifest))]
       ++ map HashUpdate (chunks (response manifest))
       ++ [WriteStream filename (JS.join (chunks (response manifest))); HashDigest],
     Some (JS.ret expected)).
Proof.
intros Hsum Hend Hstatus Hdigest.
rewrite (fetchTarball_checked md5_hex STATUS_CODES lang env manifest expected filename []
           Hsum Hend).
replace (400 <=? statusCode (response manifest)) with false
  by (symmetry; apply Z.leb_gt; lia).
unfold onFinish. cbn [hasher]. rewrite Hdigest, String.eqb_refl. reflexivity.
Qed.

(** X23: when the tarball cannot be written to its end, the promise of
    [_fetchTarball] is rejected with the error of the write stream (with
    the error of the request when the status of the response is 400 or
    more): the registry was asked once, the digest is not taken, with or
    without checksum, and nothing that awaits the download is run. *)
Theorem fetch_write_error {B : Type} (k : string -> Async B)
  (manifest : OpamManifest) (filename : string) (err : JS.exn) :
  ending (response manifest) = error err ->
  exists trace rejection,
    fetchTarball manifest filename [] = (trace, Some (JS.throw rejection))
    /\ abind (fetchTarball manifest filename) k [] = (trace, Some (JS.throw rejection))
    /\ rejection = (if 400 <=? statusCode (response manifest)
                    then requestFailed (statusCode (response manifest))
                    else err)
    /\ List.filter isRequest trace = [Request (url (opam manifest))]
    /\ forall e, In e trace -> e <> HashDigest /\ unpacks e = false.
Proof.
intros Hend.
assert (Hrun : exists trace,
          fetchTarball manifest filename []
          = (trace,
             Some (JS.throw (if 400 <=? statusCode (response manifest)
                             then requestFailed (statusCode (response manifest))
                             else err)))
          /\ List.filter isRequest trace = [Request (url (opam manifest))]
          /\ forall e, In e trace -> e <> HashDigest /\ unpacks e = false).
{ unfold _fetchTarball, request, handleRequestError, writeValidatedStream. rewrite Hend.
  destruct (fetchTarball_piped env manifest []) as (sink & updates & -> & ->).
  eexists. split.
  - destruct (400 <=? statusCode (response manifest)); reflexivity.
  - split.
    + rewrite List.filter_app. cbn [app List.filter isRequest].
      now rewrite filter_isRequest_HashUpdate.
    + intros e He. apply in_app_or in He as [He|[<-|[]]].
      * cbn [app] in He. destruct He as [<-|He].
        -- split; [discriminate | reflexivity].
        -- apply in_map_iff in He as (c & <- & _). split; [discriminate | reflexivity].
      * split; [discriminate | reflexivity]. }
destruct Hrun as (trace & Hrun & Hreq & Hquiet).
exists trace. eexists. split; [exact Hrun|].
split; [now apply abind_rejected|]. auto.
Qed.

(** X24: [applyPatches] takes the patches in their order: each patch is
    written under its own name in [dest], the command [patch -p1 <
    _esy_patch] (the same for every patch, whatever its name) is run in
    [dest], and the file of the patch is removed.  When the command fails
    for the first patch, the promise is rejected with its error: the file
    of the patch is not removed, and the other patches are not written. *)
Theorem applyPatches_trace (dest : string) (patches : list File) (t : list Effect) :
  ((forall e, failure env e = None) ->
   applyPatches path_join env dest patches t
   = (t ++ flat_map (fun patch =>
                       [WriteFile (path_join dest (file_name patch)) (content patch);
                        Exec "patch -p1 < _esy_patch" (Some dest);
                        Unlink (path_join dest (file_name patch))]) patches,
      Some (JS.ret tt)))
  /\ forall patch rest err,
       patches = patch :: rest ->
       failure env (WriteFile (path_join dest (file_name patch)) (content patch)) = None ->
       failure env (Exec "patch -p1 < _esy_patch" (Some dest)) = Some err ->
       applyPatches path_join env dest patches t
       = (t ++ [WriteFile (path_join dest (file_name patch)) (content patch);
                Exec "patch -p1 < _esy_patch" (Some dest)],
          Some (JS.throw err)).
Proof.
split.
- intros Hok. revert t. induction patches as [|patch rest IH]; intros t.
  + cbn. now rewrite app_nil_r.
  + cbn [applyPatches flat_map].
    unfold abind at 1. unfold perform at 1. rewrite Hok.
    unfold abind at 1. unfold perform at 1. rewrite Hok.
    unfold abind at 1. unfold perform at 1. rewrite Hok.
    rewrite IH, <- !app_assoc. reflexivity.
- intros patch rest err -> Hwrite Hexec. cbn [applyPatches].
  unfold abind at 1. unfold perform at 1. rewrite Hwrite.
  unfold abind at 1. unfold perform at 1. rewrite Hexec.
  now rewrite <- app_assoc.
Qed.

(** X25: a response with a status of 400 or more rejects the promise of
    [_fetchTarball] with the error of the request, whatever the checksum
    of the manifest is and however the writing of the body ends (also when
    the body has the checksum of the manifest, and when the writing never
    ends): the registry was asked once, and nothing that awaits the
    download is run. *)
Theorem fetch_error_status {B : Type} (k : string -> Async B)
  (manifest : OpamManifest) (filename : string) :
  400 <= statusCode (response manifest) ->
  exists trace,
    fetchTarball manifest filename []
    = (trace,
       Some (JS.throw (requestFailed (statusCode (response manifest)))))
    /\ abind (fetchTarball manifest filename) k []
       = (trace,
          Some (JS.throw (requestFailed (statusCode (response manifest)))))
    /\ List.filter isRequest trace = [Request (url (opam manifest))]
    /\ forall e, In e trace -> unpacks e = false.
Proof.
intros Hstatus.
assert (Hrun : exists trace,
          fetchTarball manifest filename []
          = (trace,
             Some (JS.throw (requestFailed (statusCode (response manifest)))))
          /\ List.filter isRequest trace = [Request (url (opam manifest))]
          /\ forall e, In e trace -> unpacks e = false).
{ unfold _fetchTarball, request, handleRequestError, writeValidatedStream.
  replace (400 <=? statusCode (response manifest)) with true
    by (symmetry; apply Z.leb_le; lia).
  destruct (fetchTarball_piped env manifest []) as (sink & updates & -> & ->).
  set (file := WriteStream filename (JS.join (chunks (response manifest)))).
  set (piped := [] ++ [Request (url (opam manifest))] ++ map HashUpdate updates).
  assert (Hquiet : forall e, In e piped -> unpacks e = false).
  { intros e He. cbn [app] in He. destruct He as [<-|He]; [reflexivity|].
    apply in_map_iff in He as (c & <- & _). reflexivity. }
  assert (Hreq : forall rest,
            (forall e, In e rest -> isRequest e = false) ->
            List.filter isRequest (piped ++ rest) = [Request (url (opam manifest))]).
  { intros rest Hrest. unfold piped. rewrite List.filter_app.
    cbn [app List.filter isRequest]. rewrite filter_isRequest_HashUpdate. cbn [app].
    f_equal. induction rest as [|x rest IH]; [reflexivity|]. cbn [List.filter].
    rewrite (Hrest x) by now left. apply IH. intros e He. apply Hrest. now right. }
  destruct (ending (response manifest)); cbn [settle JS.throw]; eexists;
    (split; [reflexivity|]); split.
  - rewrite <- app_assoc. apply Hreq. intros e [<-|[<-|[]]]; reflexivity.
  - intros e He. apply in_app_or in He as [He|[<-|[]]]; [|reflexivity].
    apply in_app_or in He as [He|[<-|[]]]; [now apply Hquiet | reflexivity].
  - apply Hreq. intros e [<-|[]]. reflexivity.
  - intros e He. apply in_app_or in He as [He|[<-|[]]];
      [now apply Hquiet | reflexivity].
  - apply Hreq. intros e [<-|[]]. reflexivity.
  - intros e He. apply in_app_or in He as [He|[<-|[]]];
      [now apply Hquiet | reflexivity]. }
destruct Hrun as (trace & Hrun & Hrest).
exists trace. split; [exact Hrun|]. split; [now apply abind_rejected | exact Hrest].
Qed.

(** X27: without checksum ([manifest.opam.checksum] is [null])
    [_fetchTarball] gives no chunk of the download to the hasher; when its
    promise is fulfilled, it is fulfilled with the md5 digest of no bytes,
    whatever was downloaded; and it is fulfilled, the bytes received being
    piped to the file, when the response has a status below 400 and is
    piped to its end. *)
Theorem fetchTarball_without_checksum (manifest : OpamManifest) (filename : string) :
  checksum (opam manifest) = None ->
  exists trace promise,
    fetchTarball manifest filename [] = (trace, promise)
    /\ List.filter isRequest trace = [Request (url (opam manifest))]
    /\ (forall e, In e trace -> isHashUpdate e = false)
    /\ (forall h, promise = Some (JS.ret h) -> h = md5_hex "")
    /\ (ending (response manifest) = finish ->
        statusCode (response manifest) < 400 ->
        promise = Some (JS.ret (md5_hex ""))
        /\ trace = [Request (url (opam manifest));
                    WriteStream filename (JS.join (chunks (response manifest)));
                    HashDigest]).
Proof.
intros Hsum. unfold _fetchTarball, request, handleRequestError, writeValidatedStream.
rewrite Hsum, fold_onData_None. cbn [hasher out app].
rewrite append_nil_l.
set (file := WriteStream filename (JS.join (chunks (response manifest)))).
destruct (ending (response manifest)) as [| err |] eqn:Hend;
  eexists; eexists; (split; [reflexivity|]); (split; [reflexivity|]); split.
- intros e [<-|[<-|[<-|[]]]]; reflexivity.
- split.
  + intros h. destruct (400 <=? statusCode (response manifest)); cbn; intros H;
      [discriminate H | now injection H as <-].
  + intros _ Hs. split; [|reflexivity].
    destruct (400 <=? statusCode (response manifest)) eqn:E; [|reflexivity].
    apply Z.leb_le in E. lia.
- intros e [<-|[<-|[]]]; reflexivity.
- split; [|discriminate].
  intros h. destruct (400 <=? statusCode (response manifest)); cbn; intros H;
    discriminate H.
- intros e [<-|[<-|[]]]; reflexivity.
- split; [|discriminate].
  intros h. destruct (400 <=? statusCode (response manifest)); cbn; intros H;
    discriminate H.
Qed.

End WithCollaborators.

(** The sample download has the checksum of [verifiedManifest]. *)
Lemma fetch_verified_download_sample :
  Sample.fetchTarball (Sample.env 200 Examples.verifiedManifest)
    Examples.verifiedManifest "/cache/foo/.yarn-tarball.tgz" []
  = ([Request (Some "https://example.org/foo-1.0.0.tar.gz");
      HashUpdate "abc"; HashUpdate "def";
      WriteStream "/cache/foo/.yarn-tarball.tgz" "abcdef";
      HashDigest],
     Some (JS.ret "e80b5017098950fc58aad83c8c14978e")).
Proof.
apply (fetch_verified_download Sample.md5_hex Sample.STATUS_CODES Sample.lang
         (Sample.env 200 Examples.verifiedManifest) Examples.verifiedManifest
         "/cache/foo/.yarn-tarball.tgz" "e80b5017098950fc58aad83c8c14978e").
- reflexivity.
- reflexivity.
- reflexivity.
- reflexivity.
Defined.

(** A download that cannot be written to its end. *)
Lemma fetch_write_error_sample :
  exists trace,
    Sample.fetchTarball
      (Sample.envOf Sample.brokenResponse (fun _ => None) Examples.uncheckedManifest)
      Examples.uncheckedManifest "/cache/foo/.yarn-tarball.tgz" []
    = (trace, Some (JS.throw (JS.Error "ENOSPC")))
    /\ forall e, In e trace -> e <> HashDigest /\ unpacks e = false.
Proof.
destruct (fetch_write_error Sample.md5_hex Sample.STATUS_CODES Sample.lang
            (Sample.envOf Sample.brokenResponse (fun _ => None)
               Examples.uncheckedManifest)
            (fun hash : string => aret hash)
            Examples.uncheckedManifest "/cache/foo/.yarn-tarball.tgz"
            (JS.Error "ENOSPC"))
  as (trace & rejection & E & _ & Hrej & _ & Hquiet).
- reflexivity.
- exists trace. rewrite Hrej in E. split; [exact E | exact Hquiet].
Defined.

(** Two patches on a file system on which nothing fails, and on one on
    which the [patch] command fails. *)
Lemma applyPatches_trace_twoPatches :
  applyPatches Sample.path_join (Sample.env 200 Examples.localManifest) "/cache/foo"
    Examples.twoPatches []
  = ([WriteFile "/cache/foo/first.patch" "--- a/Makefile";
      Exec "patch -p1 < _esy_patch" (Some "/cache/foo");
      Unlink "/cache/foo/first.patch";
      WriteFile "/cache/foo/second.patch" "--- a/configure";
      Exec "patch -p1 < _esy_patch" (Some "/cache/foo");
      Unlink "/cache/foo/second.patch"],
     Some (JS.ret tt))
  /\ applyPatches Sample.path_join
       (Sample.envOf Sample.goodResponse Sample.patchFails Examples.localManifest)
       "/cache/foo" Examples.twoPatches []
     = ([WriteFile "/cache/foo/first.patch" "--- a/Makefile";
         Exec "patch -p1 < _esy_patch" (Some "/cache/foo")],
        Some (JS.throw (JS.Error "Command failed"))).
Proof.
split.
- apply (proj1 (applyPatches_trace Sample.path_join
                  (Sample.env 200 Examples.localManifest) "/cache/foo"
                  Examples.twoPatches [])).
  reflexivity.
- apply (proj2 (applyPatches_trace Sample.path_join
                  (Sample.envOf Sample.goodResponse Sample.patchFails
                     Examples.localManifest) "/cache/foo" Examples.twoPatches [])
           (OpamFetcher.mkFile "first.patch" "--- a/Makefile")
           [OpamFetcher.mkFile "second.patch" "--- a/configure"]
           (JS.Error "Command failed")); reflexivity.
Defined.

(** The registry answers 404 with a body that has the checksum of
    [verifiedManifest]. *)
Lemma fetch_error_status_sample :
  exists trace,
    Sample.fetchTarball (Sample.env 404 Examples.verifiedManifest)
      Examples.verifiedManifest "/cache/foo/.yarn-tarball.tgz" []
    = (trace, Some (JS.throw (JS.Error ("Request failed " +:+ OpamResolver.quote
                                 +:+ "404 Not Found" +:+ OpamResolver.quote))))
    /\ forall e, In e trace -> unpacks e = false.
Proof.
destruct (fetch_error_status Sample.md5_hex Sample.STATUS_CODES Sample.lang
            (Sample.env 404 Examples.verifiedManifest)
            (fun hash : string => aret hash)
            Examples.verifiedManifest "/cache/foo/.yarn-tarball.tgz")
  as (trace & E & _ & _ & Hquiet).
- cbn. lia.
- exists trace. split; [exact E | exact Hquiet].
Defined.

(** Without a checksum the sample download is fulfilled with the digest of
    no bytes, though the chunks [abc] and [def] were received. *)
Lemma fetchTarball_without_checksum_sample :
  Sample.fetchTarball (Sample.env 200 Examples.uncheckedManifest)
    Examples.uncheckedManifest "/cache/foo/.yarn-tarball.tgz" []
  = ([Request (Some "https://example.org/foo-1.0.0.tar.gz");
      WriteStream "/cache/foo/.yarn-tarball.tgz" "abcdef";
      HashDigest],
     Some (JS.ret "d41d8cd98f00b204e9800998ecf8427e")).
Proof.
destruct (fetchTarball_without_checksum Sample.md5_hex Sample.STATUS_CODES Sample.lang
            (Sample.env 200 Examples.uncheckedManifest)
            Examples.uncheckedManifest "/cache/foo/.yarn-tarball.tgz" eq_refl)
  as (trace & promise & E & _ & _ & _ & Hok).
destruct (Hok eq_refl) as [Hp Ht]; [cbn; lia|].
rewrite Hp, Ht in E. exact E.
Defined.

End FetchOutcomes.
